(** * Path tracking with iterative linear MPC: a shallow embedding of
      [src/control/src/ws_mpc/mpc_main.py]

    Python floats are read as real numbers ([R]); every arithmetic
    operation is the exact one, so a statement over [R] describes the
    program up to the rounding of its float results.  Where rounding
    changes a result in kind, the function is modelled again on IEEE 754
    binary64 in the module [Binary64].  Python lists are [list]s,
    indices are [nat] (or [Z] where the source subtracts them), the
    exceptions the source can raise are the [Err] branch of [result],
    and the two library calls whose algorithms live outside the
    repository ([np.linalg.solve] and the cvxpy solver) are section
    variables. *)

From Stdlib Require Import Reals Lra Lia ZArith List Bool Arith.
From Stdlib Require PrimFloat SpecFloat FloatOps.
Import ListNotations.

Local Open Scope R_scope.

(** ** Booleans of the real comparisons *)

Definition Rleb (a b : R) : bool := if Rle_dec a b then true else false.
Definition Rltb (a b : R) : bool := if Rlt_dec a b then true else false.
Definition Reqb (a b : R) : bool := if Req_dec_T a b then true else false.

(** ** Exceptions *)

Inductive exn : Type :=
| ValueError
| IndexError
| TypeError
| ZeroDivisionError
| LinAlgError.

Inductive result (A : Type) : Type :=
| Ok (a : A)
| Err (e : exn).
Arguments Ok {A} a.
Arguments Err {A} e.

Definition bind {A B : Type} (m : result A) (k : A -> result B) : result B :=
  match m with
  | Ok a => k a
  | Err e => Err e
  end.

Notation "x <- m ;; k" := (bind m (fun x => k))
  (at level 61, m at next level, right associativity).
Notation "' p <- m ;; k" := (bind m (fun x => let p := x in k))
  (at level 61, p pattern, m at next level, right associativity).

(** [l[i]] for a non-negative index. *)
Definition index {A : Type} (l : list A) (i : nat) : result A :=
  match nth_error l i with
  | Some a => Ok a
  | None => Err IndexError
  end.

(** [l[-1]]. *)
Definition index_last {A : Type} (l : list A) : result A :=
  match l with
  | [] => Err IndexError
  | _ => index l (length l - 1)
  end.

(** [l[i] = v] on a Python list. *)
Fixpoint list_set {A : Type} (l : list A) (i : nat) (v : A) : list A :=
  match l, i with
  | [], _ => []
  | _ :: t, O => v :: t
  | h :: t, S j => h :: list_set t j v
  end.

Definition setitem {A : Type} (l : list A) (i : nat) (v : A) : result (list A) :=
  if (i <? length l)%nat then Ok (list_set l i v) else Err IndexError.

(** [l[lo:hi]] for non-negative bounds. *)
Definition slice {A : Type} (l : list A) (lo hi : nat) : list A :=
  firstn (hi - lo) (skipn lo l).

(** ** The [math] and [numpy] scalar functions *)

(** [math.hypot]. *)
Definition hypot (x y : R) : R := sqrt (x * x + y * y).

(** [math.atan2 y x]. *)
Definition atan2 (y x : R) : R :=
  if Rltb 0 x then atan (y / x)
  else if Rltb x 0 then
    if Rleb 0 y then atan (y / x) + PI else atan (y / x) - PI
  else if Rltb 0 y then PI / 2
  else if Rltb y 0 then - (PI / 2)
  else 0.

(** [a % b] on floats: the result takes the sign of [b].  Over the reals
    it is strictly below [b] in magnitude; [Binary64.py_mod] is the
    operation with the rounding of its last addition. *)
Definition py_mod (a b : R) : R := a - b * IZR (Zfloor (a / b)).

Definition deg2rad (x : R) : R := x * (PI / 180).
Definition rad2deg (x : R) : R := x * (180 / PI).

(** [round(x)] with one argument: to the nearest integer, ties to even. *)
Definition py_round (x : R) : Z :=
  let f := Zfloor x in
  let r := x - IZR f in
  if Rltb r (1 / 2) then f
  else if Rltb (1 / 2) r then (f + 1)%Z
  else if Z.even f then f else (f + 1)%Z.

(** ** Module constants *)

Definition NX : nat := 4.
Definition NU : nat := 2.
Definition T : nat := 5.

Definition GOAL_DIS : R := 1.5.
Definition STOP_SPEED : R := 0.5 / 3.6.
Definition MAX_TIME : R := 500.

Definition MAX_ITER : nat := 3.
Definition DU_TH : R := 0.1.

Definition TARGET_SPEED : R := 15 / 3.6.
Definition N_IND_SEARCH : nat := 10.

Definition DT : R := 0.2.
Definition WB : R := 2.5.

Definition MAX_STEER : R := deg2rad 45.
Definition MAX_DSTEER : R := deg2rad 30.
Definition MAX_SPEED : R := 55 / 3.6.
Definition MIN_SPEED : R := 0 / 3.6.
Definition MAX_ACCEL : R := 1.

(** ** [angle_mod] and [pi_2_pi] *)

Definition angle_mod (x : R) (zero_2_2pi degree : bool) : R :=
  let x := if degree then deg2rad x else x in
  let mod_angle :=
    if zero_2_2pi then py_mod x (2 * PI)
    else py_mod (x + PI) (2 * PI) - PI in
  if degree then rad2deg mod_angle else mod_angle.

Definition pi_2_pi (angle : R) : R := angle_mod angle false false.


(** ** Python and numpy helpers *)

(** A [for] loop over [l] whose body threads the loop state [s] and may
    raise. *)
Fixpoint for_in {I S : Type} (l : list I) (body : I -> S -> result S) (s : S)
  : result S :=
  match l with
  | [] => Ok s
  | i :: l' => s' <- body i s ;; for_in l' body s'
  end.

(** [l[i]] for a signed index: a negative [i] counts from the end. *)
Definition index_z {A : Type} (l : list A) (i : Z) : result A :=
  let n := Z.of_nat (length l) in
  if (0 <=? i)%Z then index l (Z.to_nat i)
  else if (- n <=? i)%Z then index l (Z.to_nat (n + i))
  else Err IndexError.

(** [np.diff]. *)
Fixpoint diff (l : list R) : list R :=
  match l with
  | a :: (b :: _) as t => (b - a) :: diff t
  | _ => []
  end.

(** [np.cumsum], started from the running total [acc]. *)
Fixpoint cumsum_from (acc : R) (l : list R) : list R :=
  match l with
  | [] => []
  | a :: t => (acc + a) :: cumsum_from (acc + a) t
  end.

Definition cumsum (l : list R) : list R := cumsum_from 0 l.

(** The builtin [sum] on a sequence of floats. *)
Definition sum (l : list R) : R := fold_left Rplus l 0.

Fixpoint map2 {A B C : Type} (f : A -> B -> C) (l : list A) (m : list B)
  : list C :=
  match l, m with
  | a :: l', b :: m' => f a b :: map2 f l' m'
  | _, _ => []
  end.

(** An element-wise numpy operation on two one-dimensional arrays, with
    numpy's broadcasting of a length-one operand; other length
    mismatches raise. *)
Definition np_binop (f : R -> R -> R) (a b : list R) : result (list R) :=
  if (length a =? length b)%nat then Ok (map2 f a b)
  else match a, b with
       | [a0], _ => Ok (map (f a0) b)
       | _, [b0] => Ok (map (fun ai => f ai b0) a)
       | _, _ => Err ValueError
       end.

(** The builtin [min] on a list: the first smallest element. *)
Definition py_min (l : list R) : result R :=
  match l with
  | [] => Err ValueError
  | a :: t => Ok (fold_left (fun m e => if Rltb e m then e else m) t a)
  end.

(** [l.index(v)]: the first position holding [v]. *)
Fixpoint list_index (l : list R) (v : R) : result nat :=
  match l with
  | [] => Err ValueError
  | a :: t => if Reqb a v then Ok O else (i <- list_index t v ;; Ok (S i))
  end.

(** [bisect.bisect] (that is [bisect_right]): binary search with the
    comparison [x < a[mid]].  Each round shrinks [hi - lo], so [length a]
    rounds of fuel are enough from [lo = 0], [hi = len(a)]. *)
Fixpoint bisect_loop (fuel : nat) (a : list R) (x : R) (lo hi : nat) : nat :=
  match fuel with
  | O => lo
  | S fuel' =>
      if (lo <? hi)%nat then
        let mid := ((lo + hi) / 2)%nat in
        if Rltb x (nth mid a 0) then bisect_loop fuel' a x lo mid
        else bisect_loop fuel' a x (mid + 1) hi
      else lo
  end.

Definition bisect (a : list R) (x : R) : nat :=
  bisect_loop (length a) a x 0 (length a).

(** Two-dimensional numpy arrays whose size is only known at run time
    (the spline's system matrix): lists of rows, with checked access. *)
Definition lmatrix : Type := list (list R).

Definition lzeros (n m : nat) : lmatrix := repeat (repeat 0 m) n.

Definition lmset (M : lmatrix) (i j : nat) (v : R) : result lmatrix :=
  r <- index M i ;;
  r' <- setitem r j v ;;
  setitem M i r'.

(** Two-dimensional numpy arrays of a shape fixed by module constants
    ([np.zeros((NX, T + 1))] and the like), written with constant or
    loop-bounded indices: total functions of the two indices. *)
Definition matrix : Type := nat -> nat -> R.

Definition zeros : matrix := fun _ _ => 0.

Definition mset (M : matrix) (i j : nat) (v : R) : matrix :=
  fun i' j' => if ((i' =? i) && (j' =? j))%nat then v else M i' j'.

(** [M[:, t]] of a matrix with [n] rows, and [M[i, :]] of one with [n]
    columns. *)
Definition col (n : nat) (M : matrix) (t : nat) : list R :=
  map (fun i => M i t) (seq 0 n).

Definition row (n : nat) (M : matrix) (i : nat) : list R :=
  map (fun t => M i t) (seq 0 n).

Definition dot (u v : list R) : R := sum (map2 Rmult u v).

Definition vadd (u v : list R) : list R := map2 Rplus u v.
Definition vsub (u v : list R) : list R := map2 Rminus u v.

(** [M @ v] for [M] with [n] rows and [len(v)] columns. *)
Definition matvec (n : nat) (M : matrix) (v : list R) : list R :=
  map (fun i => dot (map (M i) (seq 0 (length v))) v) (seq 0 n).

(** [np.diag]. *)
Definition diag (l : list R) : matrix :=
  fun i j => if (i =? j)%nat then nth i l 0 else 0.

Fixpoint veqb (u v : list R) : bool :=
  match u, v with
  | [], [] => true
  | a :: u', b :: v' => Reqb a b && veqb u' v'
  | _, _ => false
  end.

(** ** [CubicSpline1D] *)

Module CubicSpline1D.

Record t : Type := mk {
  a : list R;
  b : list R;
  c : list R;
  d : list R;
  x : list R;
  y : list R;
  nx : nat
}.

(** [__calc_A].  The loop runs only when [nx >= 2], and the three writes
    after it are reached only past [A[0, 1]], which needs [nx >= 2]: the
    subtractions [nx - 1] and [nx - 2] never go below zero where they are
    used as indices. *)
Definition calc_A_step (nx : nat) (h : list R) (i : nat) (A : lmatrix)
  : result lmatrix :=
  A <- (if negb (i =? nx - 2)%nat then
          hi <- index h i ;;
          hi1 <- index h (i + 1) ;;
          lmset A (i + 1) (i + 1) (2 * (hi + hi1))
        else Ok A) ;;
  hi <- index h i ;;
  A <- lmset A (i + 1) i hi ;;
  hi <- index h i ;;
  lmset A i (i + 1) hi.

Definition calc_A (nx : nat) (h : list R) : result lmatrix :=
  A <- lmset (lzeros nx nx) 0 0 1 ;;
  A <- for_in (seq 0 (nx - 1)) (calc_A_step nx h) A ;;
  A <- lmset A 0 1 0 ;;
  A <- lmset A (nx - 1) (nx - 2) 0 ;;
  lmset A (nx - 1) (nx - 1) 1.

(** [__calc_B]. *)
Definition calc_B_step (h a : list R) (i : nat) (B : list R)
  : result (list R) :=
  ai2 <- index a (i + 2) ;;
  ai1 <- index a (i + 1) ;;
  hi1 <- index h (i + 1) ;;
  ai <- index a i ;;
  hi <- index h i ;;
  setitem B (i + 1) (3 * (ai2 - ai1) / hi1 - 3 * (ai1 - ai) / hi).

Definition calc_B (nx : nat) (h a : list R) : result (list R) :=
  for_in (seq 0 (nx - 2)) (calc_B_step h a) (repeat 0 nx).

(** [__search_index]. *)
Definition search_index (sp : t) (xq : R) : Z :=
  (Z.of_nat (bisect (x sp) xq) - 1)%Z.

(** The body of the loop of [__init__] that fills [d] and [b]. *)
Definition coeff_step (h a c : list R) (i : nat) (st : list R * list R)
  : result (list R * list R) :=
  let '(d, b) := st in
  ci1 <- index c (i + 1) ;;
  ci <- index c i ;;
  hi <- index h i ;;
  let dv := (ci1 - ci) / (3 * hi) in
  ai1 <- index a (i + 1) ;;
  ai <- index a i ;;
  let bv := 1 / hi * (ai1 - ai) - hi / 3 * (2 * ci + ci1) in
  Ok (d ++ [dv], b ++ [bv]).

Section Init.

(** [np.linalg.solve]: the vector [c] with [A c = B], or [LinAlgError]. *)
Variable linalg_solve : lmatrix -> list R -> result (list R).

(** [__init__].  A division by a zero entry of [h] raises nothing in
    numpy ([h] is an array; the quotient is [nan] or [inf] with a
    warning), so no error branch is attached to the divisions.  The
    values of the coefficients are those of the source where no entry
    of [h] is zero; with a zero entry the source's are [nan]. *)
Definition init (x y : list R) : result t :=
  let h := diff x in
  if existsb (fun hi => Rltb hi 0) h then Err ValueError
  else
    let nx := length x in
    let a := y in
    A <- calc_A nx h ;;
    B <- calc_B nx h a ;;
    c <- linalg_solve A B ;;
    '(d, b) <- for_in (seq 0 (nx - 1)) (coeff_step h a c) ([], []) ;;
    Ok (mk a b c d x y nx).

End Init.

(** [calc_position]; [None] is the source's out-of-range answer. *)
Definition calc_position (sp : t) (xq : R) : result (option R) :=
  x0 <- index (x sp) 0 ;;
  if Rltb xq x0 then Ok None
  else
    xl <- index_last (x sp) ;;
    if Rltb xl xq then Ok None
    else
      let i := search_index sp xq in
      xi <- index_z (x sp) i ;;
      let dx := xq - xi in
      ai <- index_z (a sp) i ;;
      bi <- index_z (b sp) i ;;
      ci <- index_z (c sp) i ;;
      di <- index_z (d sp) i ;;
      Ok (Some (ai + bi * dx + ci * dx ^ 2 + di * dx ^ 3)).

(** [calc_first_derivative]. *)
Definition calc_first_derivative (sp : t) (xq : R) : result (option R) :=
  x0 <- index (x sp) 0 ;;
  if Rltb xq x0 then Ok None
  else
    xl <- index_last (x sp) ;;
    if Rltb xl xq then Ok None
    else
      let i := search_index sp xq in
      xi <- index_z (x sp) i ;;
      let dx := xq - xi in
      bi <- index_z (b sp) i ;;
      ci <- index_z (c sp) i ;;
      di <- index_z (d sp) i ;;
      Ok (Some (bi + 2 * ci * dx + 3 * di * dx ^ 2)).

(** [calc_second_derivative]. *)
Definition calc_second_derivative (sp : t) (xq : R) : result (option R) :=
  x0 <- index (x sp) 0 ;;
  if Rltb xq x0 then Ok None
  else
    xl <- index_last (x sp) ;;
    if Rltb xl xq then Ok None
    else
      let i := search_index sp xq in
      xi <- index_z (x sp) i ;;
      let dx := xq - xi in
      ci <- index_z (c sp) i ;;
      di <- index_z (d sp) i ;;
      Ok (Some (2 * ci + 6 * di * dx)).

End CubicSpline1D.

(** ** [CubicSpline2D] *)

Module CubicSpline2D.

Record t : Type := mk {
  s : list R;
  ds : list R;
  sx : CubicSpline1D.t;
  sy : CubicSpline1D.t
}.

(** [__calc_s]: the cumulative chord lengths and the chord lengths. *)
Definition calc_s (x y : list R) : result (list R * list R) :=
  let dx := diff x in
  let dy := diff y in
  ds <- np_binop hypot dx dy ;;
  Ok (0 :: cumsum ds, ds).

Section Init.

Variable linalg_solve : lmatrix -> list R -> result (list R).

Definition init (x y : list R) : result t :=
  '(s, ds) <- calc_s x y ;;
  sx <- CubicSpline1D.init linalg_solve s x ;;
  sy <- CubicSpline1D.init linalg_solve s y ;;
  Ok (mk s ds sx sy).

End Init.

Definition calc_position (sp : t) (sq : R) : result (option R * option R) :=
  x <- CubicSpline1D.calc_position (sx sp) sq ;;
  y <- CubicSpline1D.calc_position (sy sp) sq ;;
  Ok (x, y).

(** An operand of float arithmetic: [None] there is a [TypeError]. *)
Definition as_float (v : option R) : result R :=
  match v with
  | Some r => Ok r
  | None => Err TypeError
  end.

(** [calc_curvature].  The power [** (3 / 2)] of the non-negative
    [dx ** 2 + dy ** 2] is written [z * sqrt z]; the derivatives are numpy
    floats, so a zero denominator raises nothing. *)
Definition calc_curvature (sp : t) (sq : R) : result R :=
  dx <- CubicSpline1D.calc_first_derivative (sx sp) sq ;;
  ddx <- CubicSpline1D.calc_second_derivative (sx sp) sq ;;
  dy <- CubicSpline1D.calc_first_derivative (sy sp) sq ;;
  ddy <- CubicSpline1D.calc_second_derivative (sy sp) sq ;;
  ddy <- as_float ddy ;;
  dx <- as_float dx ;;
  ddx <- as_float ddx ;;
  dy <- as_float dy ;;
  let z := dx ^ 2 + dy ^ 2 in
  Ok ((ddy * dx - ddx * dy) / (z * sqrt z)).

(** [calc_yaw]. *)
Definition calc_yaw (sp : t) (sq : R) : result R :=
  dx <- CubicSpline1D.calc_first_derivative (sx sp) sq ;;
  dy <- CubicSpline1D.calc_first_derivative (sy sp) sq ;;
  dy <- as_float dy ;;
  dx <- as_float dx ;;
  Ok (atan2 dy dx).

End CubicSpline2D.

(** ** Vehicle state and model *)

Module State.

Record t : Type := mk {
  x : R;
  y : R;
  yaw : R;
  v : R;
  predelta : option R
}.

(** [State(x=.., y=.., yaw=.., v=..)]. *)
Definition new (x y yaw v : R) : t := mk x y yaw v None.

Definition set_x (s : t) (r : R) : t := mk r (y s) (yaw s) (v s) (predelta s).
Definition set_y (s : t) (r : R) : t := mk (x s) r (yaw s) (v s) (predelta s).
Definition set_yaw (s : t) (r : R) : t := mk (x s) (y s) r (v s) (predelta s).
Definition set_v (s : t) (r : R) : t := mk (x s) (y s) (yaw s) r (predelta s).

End State.

(** [get_linear_model_matrix]: [A] is [NX x NX], [B] is [NX x NU] and [C]
    has [NX] entries. *)
Definition get_linear_model_matrix (v phi delta : R)
  : matrix * matrix * list R :=
  let A := zeros in
  let A := mset A 0 0 1 in
  let A := mset A 1 1 1 in
  let A := mset A 2 2 1 in
  let A := mset A 3 3 1 in
  let A := mset A 0 2 (DT * cos phi) in
  let A := mset A 0 3 (- DT * v * sin phi) in
  let A := mset A 1 2 (DT * sin phi) in
  let A := mset A 1 3 (DT * v * cos phi) in
  let A := mset A 3 2 (DT * tan delta / WB) in
  let B := zeros in
  let B := mset B 2 0 DT in
  let B := mset B 3 1 (DT * v / (WB * cos delta ^ 2)) in
  let C := repeat 0 NX in
  let C := list_set C 0 (DT * v * sin phi * phi) in
  let C := list_set C 1 (- DT * v * cos phi * phi) in
  let C := list_set C 3 (- DT * v * delta / (WB * cos delta ^ 2)) in
  (A, B, C).

(** [update_state]: the fields are rewritten one after the other, each
    right-hand side reading the state as it stands at that point. *)
Definition update_state (state : State.t) (a delta : R) : State.t :=
  let delta :=
    if Rleb MAX_STEER delta then MAX_STEER
    else if Rleb delta (- MAX_STEER) then - MAX_STEER
    else delta in
  let state :=
    State.set_x state
      (State.x state + State.v state * cos (State.yaw state) * DT) in
  let state :=
    State.set_y state
      (State.y state + State.v state * sin (State.yaw state) * DT) in
  let state :=
    State.set_yaw state
      (State.yaw state + State.v state / WB * tan delta * DT) in
  let state := State.set_v state (State.v state + a * DT) in
  if Rltb MAX_SPEED (State.v state) then State.set_v state MAX_SPEED
  else if Rltb (State.v state) MIN_SPEED then State.set_v state MIN_SPEED
  else state.

(** The state as the vector [[x, y, v, yaw]] of the optimiser. *)
Definition state_vector (s : State.t) : list R :=
  [State.x s; State.y s; State.v s; State.yaw s].

(** ** Reference tracking *)

Definition calc_nearest_index (state : State.t) (cx cy cyaw : list R)
  (pind : nat) : result (nat * R) :=
  let dx := map (fun icx => State.x state - icx)
                (slice cx pind (pind + N_IND_SEARCH)) in
  let dy := map (fun icy => State.y state - icy)
                (slice cy pind (pind + N_IND_SEARCH)) in
  let d := map2 (fun idx idy => idx ^ 2 + idy ^ 2) dx dy in
  mind <- py_min d ;;
  k <- list_index d mind ;;
  let ind := (k + pind)%nat in
  let mind := sqrt mind in
  cxi <- index cx ind ;;
  let dxl := cxi - State.x state in
  cyi <- index cy ind ;;
  let dyl := cyi - State.y state in
  cyawi <- index cyaw ind ;;
  let angle := pi_2_pi (cyawi - atan2 dyl dxl) in
  let mind := if Rltb angle 0 then mind * -1 else mind in
  Ok (ind, mind).

(** One row of the reference window: column [i] of [xref] and [dref] read
    from position [j] of the course. *)
Definition set_ref (cx cy sp cyaw : list R) (xref dref : matrix) (i : nat)
  (j : Z) : result (matrix * matrix) :=
  cxj <- index_z cx j ;;
  let xref := mset xref 0 i cxj in
  cyj <- index_z cy j ;;
  let xref := mset xref 1 i cyj in
  spj <- index_z sp j ;;
  let xref := mset xref 2 i spj in
  cyawj <- index_z cyaw j ;;
  let xref := mset xref 3 i cyawj in
  let dref := mset dref 0 i 0 in
  Ok (xref, dref).

(** The body of the loop of [calc_ref_trajectory] at horizon step [i];
    the loop state is [travel], [xref] and [dref].  [travel / dl] raises
    on [dl = 0]. *)
Definition ref_step (state : State.t) (cx cy cyaw sp : list R) (dl : R)
  (ind : nat) (i : nat) (st : R * matrix * matrix)
  : result (R * matrix * matrix) :=
  let '(travel, xref, dref) := st in
  let ncourse := length cx in
  let travel := travel + Rabs (State.v state) * DT in
  if Reqb dl 0 then Err ZeroDivisionError
  else
    let dind := py_round (travel / dl) in
    if (Z.of_nat ind + dind <? Z.of_nat ncourse)%Z then
      '(xref, dref) <-
        set_ref cx cy sp cyaw xref dref i (Z.of_nat ind + dind) ;;
      Ok (travel, xref, dref)
    else
      '(xref, dref) <-
        set_ref cx cy sp cyaw xref dref i (Z.of_nat ncourse - 1) ;;
      Ok (travel, xref, dref).

(** [calc_ref_trajectory]; [xref] is [NX x (T + 1)], [dref] is
    [1 x (T + 1)]. *)
Definition calc_ref_trajectory (state : State.t) (cx cy cyaw ck sp : list R)
  (dl : R) (pind : nat) : result (matrix * nat * matrix) :=
  let xref := zeros in
  let dref := zeros in
  '(ind, _) <- calc_nearest_index state cx cy cyaw pind ;;
  let ind := if (ind <=? pind)%nat then pind else ind in
  '(xref, dref) <- set_ref cx cy sp cyaw xref dref 0 (Z.of_nat ind) ;;
  let travel := 0 in
  '(_, xref, dref) <-
    for_in (seq 0 (T + 1)) (ref_step state cx cy cyaw sp dl ind)
           (travel, xref, dref) ;;
  Ok (xref, ind, dref).

(** ** Goal check *)

(** [check_goal]; [goal] is the two-element list [[gx, gy]], [tind] and
    [nind] are Python integers. *)
Definition check_goal (state : State.t) (goal : R * R) (tind nind : Z)
  : bool :=
  let dx := State.x state - fst goal in
  let dy := State.y state - snd goal in
  let d := hypot dx dy in
  let isgoal := Rleb d GOAL_DIS || existsb (fun x => Rltb x 0) [dx; dy] in
  let isgoal := if (5 <=? Z.abs (tind - nind))%Z then false else isgoal in
  let isstop := Rleb (Rabs (State.v state)) STOP_SPEED in
  if isgoal && isstop then true else false.

(** ** Speed profile *)

(** The body of the loop of [calc_speed_profile] at index [i]; the loop
    state is [speed_profile] and [direction]. *)
Definition speed_profile_step (cx cy cyaw : list R) (target_speed : R)
  (i : nat) (st : list R * R) : result (list R * R) :=
  let '(speed_profile, direction) := st in
  cxi1 <- index cx (i + 1) ;;
  cxi <- index cx i ;;
  let dx := cxi1 - cxi in
  cyi1 <- index cy (i + 1) ;;
  cyi <- index cy i ;;
  let dy := cyi1 - cyi in
  let move_direction := atan2 dy dx in
  direction <-
    (if negb (Reqb dx 0) && negb (Reqb dy 0) then
       cyawi <- index cyaw i ;;
       let dangle := Rabs (pi_2_pi (move_direction - cyawi)) in
       if Rleb (PI / 4) dangle then Ok (-1) else Ok 1
     else Ok direction) ;;
  speed_profile <-
    (if negb (Reqb direction 1) then setitem speed_profile i (- target_speed)
     else setitem speed_profile i target_speed) ;;
  Ok (speed_profile, direction).

Definition calc_speed_profile (cx cy cyaw : list R) (target_speed : R)
  : result (list R) :=
  let speed_profile := repeat target_speed (length cx) in
  let direction := 1 in
  '(speed_profile, _) <-
    for_in (seq 0 (length cx - 1))
           (speed_profile_step cx cy cyaw target_speed)
           (speed_profile, direction) ;;
  match speed_profile with
  | [] => Err IndexError
  | _ => speed_profile <- setitem speed_profile (length speed_profile - 1) 0 ;;
         Ok speed_profile
  end.

(** ** The receding-horizon optimisation *)

(** Cost matrices [R], [Rd], [Q] and [Qf] of the source. *)
Definition R_cost : matrix := diag [0.01; 0.01].
Definition Rd_cost : matrix := diag [0.01; 1].
Definition Q_cost : matrix := diag [1; 1; 0.5; 0.5].
Definition Qf_cost : matrix := Q_cost.

(** [predict_motion]; [x0] is a Python list, [xbar] has the shape of
    [xref], that is [NX] rows. *)
Definition copy_x0 (x0 : list R) (i : nat) (xbar : matrix) : result matrix :=
  if (i <? NX)%nat then
    x0i <- index x0 i ;;
    Ok (mset xbar i 0 x0i)
  else Err IndexError.

Definition predict_step (step : R * R * nat) (st : State.t * matrix)
  : result (State.t * matrix) :=
  let '(ai, di, i) := step in
  let '(state, xbar) := st in
  let state := update_state state ai di in
  let xbar := mset xbar 0 i (State.x state) in
  let xbar := mset xbar 1 i (State.y state) in
  let xbar := mset xbar 2 i (State.v state) in
  let xbar := mset xbar 3 i (State.yaw state) in
  Ok (state, xbar).

Definition predict_motion (x0 oa od : list R) (xref : matrix)
  : result matrix :=
  let xbar : matrix := fun i j => xref i j * 0 in
  xbar <- for_in (seq 0 (length x0)) (copy_x0 x0) xbar ;;
  x00 <- index x0 0 ;;
  x01 <- index x0 1 ;;
  x03 <- index x0 3 ;;
  x02 <- index x0 2 ;;
  let state := State.new x00 x01 x03 x02 in
  '(_, xbar) <-
    for_in (combine (combine oa od) (seq 1 T)) predict_step (state, xbar) ;;
  Ok xbar.

(** The values a solve leaves in the cvxpy variables [x] ([NX x (T + 1)])
    and [u] ([NU x T]). *)
Record valuation : Type := mkval {
  xval : matrix;
  uval : matrix
}.

(** A cvxpy problem: the expression to minimise and the list of
    constraints, each read as its truth value under a valuation. *)
Record Problem : Type := mkprob {
  objective : valuation -> R;
  constraints : list (valuation -> bool)
}.

(** [prob.status] after [prob.solve]. *)
Inductive Status : Type :=
| OPTIMAL
| INFEASIBLE
| UNBOUNDED
| OPTIMAL_INACCURATE
| INFEASIBLE_INACCURATE
| UNBOUNDED_INACCURATE
| USER_LIMIT
| SOLVER_ERROR.

Definition status_eqb (s1 s2 : Status) : bool :=
  match s1, s2 with
  | OPTIMAL, OPTIMAL | INFEASIBLE, INFEASIBLE | UNBOUNDED, UNBOUNDED
  | OPTIMAL_INACCURATE, OPTIMAL_INACCURATE
  | INFEASIBLE_INACCURATE, INFEASIBLE_INACCURATE
  | UNBOUNDED_INACCURATE, UNBOUNDED_INACCURATE
  | USER_LIMIT, USER_LIMIT | SOLVER_ERROR, SOLVER_ERROR => true
  | _, _ => false
  end.

(** [cvxpy.quad_form]. *)
Definition quad_form (e : list R) (P : matrix) : R :=
  dot e (matvec (length e) P e).

(** The body of the loop over the horizon in [linear_mpc_control]: the
    cost and constraints gathered so far, extended for step [t]. *)
Definition mpc_stage (xref xbar dref : matrix) (t : nat) (p : Problem)
  : Problem :=
  let x t w := col NX (xval w) t in
  let u t w := col NU (uval w) t in
  let cost := objective p in
  let cons := constraints p in
  let cost := fun w => cost w + quad_form (u t w) R_cost in
  let cost :=
    if negb (t =? 0)%nat then
      fun w => cost w + quad_form (vsub (col NX xref t) (x t w)) Q_cost
    else cost in
  let '(A, B, C) :=
    get_linear_model_matrix (xbar 2%nat t) (xbar 3%nat t) (dref 0%nat t) in
  let cons :=
    cons ++ [fun w =>
      veqb (x (t + 1)%nat w)
           (vadd (vadd (matvec NX A (x t w)) (matvec NX B (u t w))) C)] in
  if (t <? T - 1)%nat then
    mkprob
      (fun w => cost w + quad_form (vsub (u (t + 1)%nat w) (u t w)) Rd_cost)
      (cons ++ [fun w =>
         Rleb (Rabs (uval w 1%nat (t + 1)%nat - uval w 1%nat t))
              (MAX_DSTEER * DT)])
  else mkprob cost cons.

Fixpoint mpc_stages (xref xbar dref : matrix) (ts : list nat) (p : Problem)
  : Problem :=
  match ts with
  | [] => p
  | t :: ts' => mpc_stages xref xbar dref ts' (mpc_stage xref xbar dref t p)
  end.

(** The problem [linear_mpc_control] hands to the solver.  The equality
    with [x0] needs [x0] to have [NX] entries. *)
Definition mpc_problem (xref xbar : matrix) (x0 : list R) (dref : matrix)
  : result Problem :=
  let p := mpc_stages xref xbar dref (seq 0 T) (mkprob (fun _ => 0) []) in
  let cost := fun w =>
    objective p w
    + quad_form (vsub (col NX xref T) (col NX (xval w) T)) Qf_cost in
  let cons := constraints p in
  if negb (length x0 =? NX)%nat then Err ValueError
  else
    let cons := cons ++ [fun w => veqb (col NX (xval w) 0) x0] in
    let cons := cons ++ [fun w =>
      forallb (fun e => Rleb e MAX_SPEED) (row (T + 1) (xval w) 2)] in
    let cons := cons ++ [fun w =>
      forallb (fun e => Rleb MIN_SPEED e) (row (T + 1) (xval w) 2)] in
    let cons := cons ++ [fun w =>
      forallb (fun e => Rleb (Rabs e) MAX_ACCEL) (row T (uval w) 0)] in
    let cons := cons ++ [fun w =>
      forallb (fun e => Rleb (Rabs e) MAX_STEER) (row T (uval w) 1)] in
    Ok (mkprob cost cons).

(** The six values [linear_mpc_control] and
    [iterative_linear_mpc_control] return; each is an array or [None]. *)
Record mpc_out : Type := mkout {
  oa : option (list R);
  odelta : option (list R);
  ox : option (list R);
  oy : option (list R);
  oyaw : option (list R);
  ov : option (list R)
}.

(** [a - b] where [a] may be [None]. *)
Definition np_sub (a : option (list R)) (b : list R) : result (list R) :=
  match a with
  | None => Err TypeError
  | Some a => np_binop Rminus a b
  end.

(** An argument that has to be a sequence. *)
Definition as_seq (a : option (list R)) : result (list R) :=
  match a with
  | None => Err TypeError
  | Some a => Ok a
  end.

Section Solver.

(** [prob.solve(solver=cvxpy.CLARABEL)]: the status it leaves and the
    values of the variables. *)
Variable cvx_solve : Problem -> Status * valuation.

Definition linear_mpc_control (xref xbar : matrix) (x0 : list R)
  (dref : matrix) : result mpc_out :=
  prob <- mpc_problem xref xbar x0 dref ;;
  let '(status, w) := cvx_solve prob in
  if status_eqb status OPTIMAL || status_eqb status OPTIMAL_INACCURATE then
    let ox := row (T + 1) (xval w) 0 in
    let oy := row (T + 1) (xval w) 1 in
    let ov := row (T + 1) (xval w) 2 in
    let oyaw := row (T + 1) (xval w) 3 in
    let oa := row T (uval w) 0 in
    let odelta := row T (uval w) 1 in
    Ok (mkout (Some oa) (Some odelta) (Some ox) (Some oy) (Some oyaw)
              (Some ov))
  else Ok (mkout None None None None None None).

(** The [for i in range(MAX_ITER)] loop of
    [iterative_linear_mpc_control], [n] rounds from the values [cur] of
    [oa, od, ox, oy, oyaw, ov]; leaving by [break] and running out of
    rounds both fall through to the [return]. *)
Fixpoint refine (n : nat) (xref : matrix) (x0 : list R) (dref : matrix)
  (cur : mpc_out) : result mpc_out :=
  match n with
  | O => Ok cur
  | S n' =>
      a <- as_seq (oa cur) ;;
      d <- as_seq (odelta cur) ;;
      xbar <- predict_motion x0 a d xref ;;
      let poa := a in
      let pod := d in
      out <- linear_mpc_control xref xbar x0 dref ;;
      da <- np_sub (oa out) poa ;;
      dd <- np_sub (odelta out) pod ;;
      let du := sum (map Rabs da) + sum (map Rabs dd) in
      if Rleb du DU_TH then Ok out else refine n' xref x0 dref out
  end.

Definition iterative_linear_mpc_control (xref : matrix) (x0 : list R)
  (dref : matrix) (oa od : option (list R)) : result mpc_out :=
  let '(oa, od) :=
    match oa, od with
    | Some a, Some d => (a, d)
    | _, _ => (repeat 0 T, repeat 0 T)
    end in
  refine MAX_ITER xref x0 dref
         (mkout (Some oa) (Some od) None None None None).

End Solver.

(** ** The rest of the module *)

(** The two [while] loops of [smooth_yaw] on [yaw[i + 1]], [prev] being
    [yaw[i]]; [None] when the rounds of [fuel] run out. *)
Fixpoint unwind_down (fuel : nat) (prev y : R) : option R :=
  match fuel with
  | O => None
  | S fuel' =>
      if Rleb (PI / 2) (y - prev) then unwind_down fuel' prev (y - PI * 2)
      else Some y
  end.

Fixpoint unwind_up (fuel : nat) (prev y : R) : option R :=
  match fuel with
  | O => None
  | S fuel' =>
      if Rleb (y - prev) (- PI / 2) then unwind_up fuel' prev (y + PI * 2)
      else Some y
  end.

(** Rounds that cover a loop started at the difference [dyaw]: each
    round moves the difference by [2 * PI].  That holds of the exact
    subtraction; on binary64 a heading so large that [2 * PI] is below
    half a unit in its last place is not moved, and the loop of the
    source does not end. *)
Definition unwind_fuel (dyaw : R) : nat :=
  S (Z.to_nat (Zceil (Rabs dyaw / (2 * PI)))).

(** One round of the [for] loop of [smooth_yaw]: the new [yaw[i + 1]]. *)
Definition smooth_step (prev y : R) : option R :=
  match unwind_down (unwind_fuel (y - prev)) prev y with
  | None => None
  | Some y1 => unwind_up (unwind_fuel (y1 - prev)) prev y1
  end.

(** The [for] loop from index [i] on, [prev] being the current
    [yaw[i]] and [rest] the entries after it. *)
Fixpoint smooth_from (prev : R) (rest : list R) : option (list R) :=
  match rest with
  | [] => Some []
  | y :: rest' =>
      match smooth_step prev y with
      | None => None
      | Some y' =>
          match smooth_from y' rest' with
          | None => None
          | Some out => Some (y' :: out)
          end
      end
  end.

(** [smooth_yaw]. *)
Definition smooth_yaw (yaw : list R) : option (list R) :=
  match yaw with
  | [] => Some []
  | y0 :: rest =>
      match smooth_from y0 rest with
      | None => None
      | Some out => Some (y0 :: out)
      end
  end.

(** [update_state_carla]. *)
Definition update_state_carla (state : State.t)
  (easting northing yaw_radians_lib speed : R) : State.t :=
  let yaw_radians_lib :=
    if Rleb MAX_STEER yaw_radians_lib then MAX_STEER
    else if Rleb yaw_radians_lib (- MAX_STEER) then - MAX_STEER
    else yaw_radians_lib in
  let state := State.set_x state easting in
  let state := State.set_y state northing in
  let state := State.set_yaw state yaw_radians_lib in
  let state := State.set_v state speed in
  if Rltb MAX_SPEED (State.v state) then State.set_v state MAX_SPEED
  else if Rltb (State.v state) MIN_SPEED then State.set_v state MIN_SPEED
  else state.

(** [angle_norm] and [accelerate_norm]. *)
Definition angle_norm (yaw_angle : R) : R :=
  let yaw_norm := Rabs yaw_angle / MAX_STEER in
  if Rleb 0 yaw_angle then yaw_norm else - yaw_norm.

Definition accelerate_norm (acc_current : R) : R :=
  let acc_norm := Rabs acc_current / MAX_ACCEL in
  if Rleb 0 acc_current then acc_norm else - acc_norm.

(** ** [MPC_Controller.do_simulation] *)

(** The seven lists [do_simulation] records and returns. *)
Record history : Type := mkhist {
  h_t : list R;
  h_x : list R;
  h_y : list R;
  h_yaw : list R;
  h_v : list R;
  h_d : list R;
  h_a : list R
}.

(** The variables the [while] loop of [do_simulation] carries. *)
Record sim : Type := mksim {
  sim_state : State.t;
  sim_time : R;
  sim_target_ind : nat;
  sim_oa : option (list R);
  sim_odelta : option (list R);
  sim_hist : history
}.

Section Simulation.

Variable cvx_solve : Problem -> Status * valuation.

(** One pass through the body of the [while] loop; the boolean tells
    whether [check_goal] ended the loop.  The drawing branch under
    [show_animation] only draws and is left out. *)
Definition simulation_tick (cx cy cyaw ck sp : list R) (dl : R)
  (goal : R * R) (s : sim) : result (sim * bool) :=
  let state := sim_state s in
  '(xref, target_ind, dref) <-
    calc_ref_trajectory state cx cy cyaw ck sp dl (sim_target_ind s) ;;
  let x0 := [State.x state; State.y state; State.v state; State.yaw state] in
  out <- iterative_linear_mpc_control cvx_solve xref x0 dref
           (sim_oa s) (sim_odelta s) ;;
  '(di, ai, state) <-
    match odelta out with
    | Some od =>
        di <- index od 0 ;;
        a <- as_seq (oa out) ;;
        ai <- index a 0 ;;
        Ok (di, ai, update_state state ai di)
    | None => Ok (0, 0, state)
    end ;;
  let time := sim_time s + DT in
  let h := sim_hist s in
  let h := mkhist (h_t h ++ [time]) (h_x h ++ [State.x state])
                  (h_y h ++ [State.y state]) (h_yaw h ++ [State.yaw state])
                  (h_v h ++ [State.v state]) (h_d h ++ [di])
                  (h_a h ++ [ai]) in
  Ok (mksim state time target_ind (oa out) (odelta out) h,
      check_goal state goal (Z.of_nat target_ind) (Z.of_nat (length cx))).

(** The loop [while MAX_TIME >= time]; [None] when the rounds of
    [fuel] run out. *)
Fixpoint simulation_loop (fuel : nat) (cx cy cyaw ck sp : list R) (dl : R)
  (goal : R * R) (s : sim) : option (result sim) :=
  match fuel with
  | O => None
  | S fuel' =>
      if Rleb (sim_time s) MAX_TIME then
        match simulation_tick cx cy cyaw ck sp dl goal s with
        | Err e => Some (Err e)
        | Ok (s', true) => Some (Ok s')
        | Ok (s', false) => simulation_loop fuel' cx cy cyaw ck sp dl goal s'
        end
      else Some (Ok s)
  end.

End Simulation.

(** ** Angle normalisation on binary64

    [angle_mod] once more, on the floats the program computes with:
    IEEE 754 binary64 with round-to-nearest-even, which is what
    Python's [float] and numpy's [float64] are. *)

Module Binary64.

Import PrimFloat.

(** [np.pi] and [math.pi]: the double nearest to pi. *)
Definition np_pi : float := 0x1.921fb54442d18p+1%float.

(** C's [fmod]: the remainder of the division truncated towards zero,
    with the sign of [a].  It is exact: both operands are integers in
    units of two to the smaller exponent, and the remainder of the
    integers, in the same units, fits the format. *)
Definition fmod (a b : float) : float :=
  match FloatOps.Prim2SF a, FloatOps.Prim2SF b with
  | SpecFloat.S754_finite sa ma ea, SpecFloat.S754_finite _ mb eb =>
      let e := Z.min ea eb in
      let na := (Z.pos ma * 2 ^ (ea - e))%Z in
      let nb := (Z.pos mb * 2 ^ (eb - e))%Z in
      let r := Z.rem na nb in
      FloatOps.SF2Prim
        (SpecFloat.binary_normalize FloatOps.prec FloatOps.emax
           (if sa then - r else r)%Z e sa)
  | SpecFloat.S754_zero _, SpecFloat.S754_finite _ _ _ => a
  | SpecFloat.S754_zero _, SpecFloat.S754_infinity _ => a
  | SpecFloat.S754_finite _ _ _, SpecFloat.S754_infinity _ => a
  | _, _ => nan
  end.

(** [a % b] on float64, as numpy's [npy_divmod] (and Python's float
    [%]) computes it: [fmod], then one addition of [b] when the signs
    differ; a zero remainder takes the sign of [b]. *)
Definition py_mod (a b : float) : float :=
  let m := fmod a b in
  if eqb m 0 then (if ltb b 0 then (-0)%float else 0%float)
  else if Bool.eqb (ltb b 0) (ltb m 0) then m
  else (m + b)%float.

(** [np.deg2rad] and [np.rad2deg]. *)
Definition deg2rad (x : float) : float := (x * (np_pi / 180))%float.
Definition rad2deg (x : float) : float := (x * (180 / np_pi))%float.

(** [angle_mod] on a float argument. *)
Definition angle_mod (x : float) (zero_2_2pi degree : bool) : float :=
  let x := if degree then deg2rad x else x in
  let mod_angle :=
    if zero_2_2pi then py_mod x (2 * np_pi)
    else (py_mod (x + np_pi) (2 * np_pi) - np_pi)%float in
  if degree then rad2deg mod_angle else mod_angle.

(** [pi_2_pi]. *)
Definition pi_2_pi (angle : float) : float := angle_mod angle false false.


End Binary64.

(** ** Vocabulary of the statements *)

(** The position delta of the pair [i], [i + 1] of a course. *)
Definition seg_dx (cx : list R) (i : nat) : R := nth (S i) cx 0 - nth i cx 0.
Definition seg_dy (cy : list R) (i : nat) : R := nth (S i) cy 0 - nth i cy 0.

(** The deviation of the travel direction of pair [i] from the heading
    [cyaw[i]], normalised and in magnitude. *)
Definition deviation (cx cy cyaw : list R) (i : nat) : R :=
  Rabs (pi_2_pi (atan2 (seg_dy cy i) (seg_dx cx i) - nth i cyaw 0)).

(** Both axis deltas of pair [i] are non-zero. *)
Definition oblique (cx cy : list R) (i : nat) : bool :=
  negb (Reqb (seg_dx cx i) 0) && negb (Reqb (seg_dy cy i) 0).

(** The direction flag of [calc_speed_profile] once the pairs below [k]
    have been handled. *)
Fixpoint direction_upto (cx cy cyaw : list R) (k : nat) : R :=
  match k with
  | O => 1
  | S k' =>
      if oblique cx cy k' then
        if Rleb (PI / 4) (deviation cx cy cyaw k') then -1 else 1
      else direction_upto cx cy cyaw k'
  end.


(** A solver is sound when the values it leaves with an optimal (or
    optimal-within-tolerance) status satisfy every constraint.  This is
    a condition on the solver, not a property of the code: a solver
    that works to a tolerance meets it up to that tolerance only. *)
Definition solver_sound (solve : Problem -> Status * valuation) : Prop :=
  forall p,
    status_eqb (fst (solve p)) OPTIMAL
    || status_eqb (fst (solve p)) OPTIMAL_INACCURATE = true ->
    forallb (fun c => c (snd (solve p))) (constraints p) = true.

(** A stand-in for the solver, used to exercise the statements: it
    tries the all-zero trajectory only, and reports [OPTIMAL] when that
    trajectory meets every constraint and [INFEASIBLE] otherwise. *)
Definition zero_valuation : valuation := mkval zeros zeros.

Definition zero_probe_solver (p : Problem) : Status * valuation :=
  if forallb (fun c => c zero_valuation) (constraints p)
  then (OPTIMAL, zero_valuation)
  else (INFEASIBLE, zero_valuation).


(** A list-of-rows matrix with [n] rows of [m] entries. *)
Definition is_shape (n m : nat) (A : lmatrix) : Prop :=
  length A = n /\ Forall (fun r => length r = m) A.

(** [np.linalg.solve] answers the system [CubicSpline1D.init] builds
    from the abscissas [xs] and ordinates [ys], with a vector of the
    size of the system. *)
Definition solver_answers (solve : lmatrix -> list R -> result (list R))
  (xs ys : list R) : Prop :=
  forall A B,
    CubicSpline1D.calc_A (length xs) (diff xs) = Ok A ->
    CubicSpline1D.calc_B (length xs) (diff xs) ys = Ok B ->
    exists c, solve A B = Ok c /\ length c = length xs.

(** A stand-in for [np.linalg.solve], used to exercise the statements:
    it hands the right-hand side back. *)
Definition echo_solver (A : lmatrix) (B : list R) : result (list R) := Ok B.

(** The state after [t] applications of [update_state] along the input
    lists [oa] and [od] (as far as they reach). *)
Fixpoint rollout (s : State.t) (oa od : list R) (t : nat) {struct t}
  : State.t :=
  match t, oa, od with
  | S t', a :: oa', d :: od' => rollout (update_state s a d) oa' od' t'
  | _, _, _ => s
  end.

(** The squared distance from the state to sample [j] of the course. *)
Definition sqdist (state : State.t) (cx cy : list R) (j : nat) : R :=
  (State.x state - nth j cx 0) ^ 2 + (State.y state - nth j cy 0) ^ 2.

(** The course index behind row [i] of the reference window: [ind]
    advanced by the rounded travel of [i + 1] time steps at speed [v],
    held at the last sample of a course of [n] samples.  The travel is
    the exact sum; the source's, accumulated in floats, can round to
    the neighbouring index at a tie. *)
Definition ref_index (n ind : nat) (v dl : R) (i : nat) : nat :=
  Z.to_nat (Z.min (Z.of_nat ind + py_round (INR (S i) * (Rabs v * DT) / dl))
                  (Z.of_nat n - 1)).

(** Every step of the list [l], entered from [prev], lies in
    [(lo, hi]]. *)
Fixpoint steps_within (lo hi prev : R) (l : list R) : Prop :=
  match l with
  | [] => True
  | y :: t => lo < y - prev <= hi /\ steps_within lo hi y t
  end.

(** Two angles that differ by a whole number of turns. *)
Definition same_direction (a b : R) : Prop :=
  exists k : Z, b = a + IZR k * (2 * PI).

(** [A x + B u + C] for the triple [get_linear_model_matrix] returns. *)
Definition affine (m : matrix * matrix * list R) (x u : list R) : list R :=
  let '(A, B, C) := m in
  vadd (vadd (matvec NX A x) (matvec NX B u)) C.

(** The two constraints [linear_mpc_control] adds at step [t] of the
    horizon: the linearised dynamics from column [t] to column [t + 1],
    and the steering-rate limit between inputs [t] and [t + 1]. *)
Definition dyn_constraint (xbar dref : matrix) (t : nat) (w : valuation)
  : bool :=
  veqb (col NX (xval w) (t + 1))
       (affine (get_linear_model_matrix (xbar 2%nat t) (xbar 3%nat t)
                  (dref 0%nat t))
               (col NX (xval w) t) (col NU (uval w) t)).

Definition rate_constraint (t : nat) (w : valuation) : bool :=
  Rleb (Rabs (uval w 1%nat (t + 1)%nat - uval w 1%nat t)) (MAX_DSTEER * DT).

(** A valuation of the variables [x] and [u] that is a trajectory of
    the linearised vehicle from [x0] within the limits: it starts at
    [x0], moves from each column to the next by the affine model at the
    nominal trajectory [xbar], keeps every speed within
    [[MIN_SPEED, MAX_SPEED]], every acceleration within [MAX_ACCEL],
    every steering angle within [MAX_STEER], and consecutive steering
    angles within [MAX_DSTEER * DT] of each other. *)
Definition linear_trajectory (xbar dref : matrix) (x0 : list R)
  (w : valuation) : Prop :=
  col NX (xval w) 0 = x0
  /\ (forall t, (t < T)%nat ->
        col NX (xval w) (t + 1)
        = affine (get_linear_model_matrix (xbar 2%nat t) (xbar 3%nat t)
                    (dref 0%nat t))
                 (col NX (xval w) t) (col NU (uval w) t))
  /\ (forall t, (t <= T)%nat -> MIN_SPEED <= xval w 2%nat t <= MAX_SPEED)
  /\ (forall t, (t < T)%nat ->
        Rabs (uval w 0%nat t) <= MAX_ACCEL
        /\ Rabs (uval w 1%nat t) <= MAX_STEER)
  /\ (forall t, (t + 1 < T)%nat ->
        Rabs (uval w 1%nat (t + 1)%nat - uval w 1%nat t) <= MAX_DSTEER * DT).

(** The records of a simulation after [k] ticks: the clock reads
    [k * DT], every list holds [k + 1] entries, the recorded times are
    the multiples of [DT], and every recorded speed after the initial
    one is within the speed range. *)
Definition recorded (k : nat) (s : sim) : Prop :=
  sim_time s = INR k * DT
  /\ length (h_t (sim_hist s)) = S k /\ length (h_x (sim_hist s)) = S k
  /\ length (h_y (sim_hist s)) = S k /\ length (h_yaw (sim_hist s)) = S k
  /\ length (h_v (sim_hist s)) = S k /\ length (h_d (sim_hist s)) = S k
  /\ length (h_a (sim_hist s)) = S k
  /\ (forall j, (j <= k)%nat -> nth j (h_t (sim_hist s)) 0 = INR j * DT)
  /\ Forall (fun v => MIN_SPEED <= v <= MAX_SPEED) (tl (h_v (sim_hist s))).

(** The most ticks the clock allows: [MAX_TIME / DT + 1]. *)
Definition MAX_TICKS : nat := 2501.

(** Entry [(i, j)] of a list-of-rows matrix, and the product of such a
    matrix with a vector. *)
Definition lget (A : lmatrix) (i j : nat) : R := nth j (nth i A []) 0.

Definition lmatvec (A : lmatrix) (c : list R) : list R :=
  map (fun r => dot r c) A.

(** [np.linalg.solve] is exact on the system [CubicSpline1D.init] builds
    from [xs] and [ys]: what it returns solves that system. *)
Definition solver_exact (solve : lmatrix -> list R -> result (list R))
  (xs ys : list R) : Prop :=
  forall A B c,
    CubicSpline1D.calc_A (length xs) (diff xs) = Ok A ->
    CubicSpline1D.calc_B (length xs) (diff xs) ys = Ok B ->
    solve A B = Ok c ->
    length c = length xs /\ lmatvec A c = B.

(** A stand-in for [np.linalg.solve] that returns a given vector,
    used with the solution of a system worked out by hand. *)
Definition fixed_solver (c : list R) (A : lmatrix) (B : list R) :
  result (list R) := Ok c.
(** * Properties *)

(** ** Boolean comparisons *)

Lemma Rleb_true a b : Rleb a b = true <-> a <= b.
Proof. unfold Rleb; destruct (Rle_dec a b); split; intros; auto; discriminate. Qed.

Lemma Rleb_false a b : Rleb a b = false <-> b < a.
Proof.
  unfold Rleb; destruct (Rle_dec a b); split; intros; auto; try discriminate; lra.
Qed.

Lemma Rltb_true a b : Rltb a b = true <-> a < b.
Proof. unfold Rltb; destruct (Rlt_dec a b); split; intros; auto; discriminate. Qed.

Lemma Rltb_false a b : Rltb a b = false <-> b <= a.
Proof.
  unfold Rltb; destruct (Rlt_dec a b); split; intros; auto; try discriminate; lra.
Qed.

Lemma Reqb_true a b : Reqb a b = true <-> a = b.
Proof. unfold Reqb; destruct (Req_dec_T a b); split; intros; auto; discriminate. Qed.

Lemma Reqb_false a b : Reqb a b = false <-> a <> b.
Proof.
  unfold Reqb; destruct (Req_dec_T a b); split; intros; auto; try discriminate.
  contradiction.
Qed.

(** ** Facts on the scalar functions *)

Lemma py_mod_range a b : 0 < b -> 0 <= py_mod a b < b.
Proof.
  intros Hb. unfold py_mod.
  destruct (Zfloor_bound (a / b)) as [Hlo Hhi].
  assert (Ha : a = b * (a / b)) by (field; lra).
  split.
  - apply (Rmult_le_compat_l b) in Hlo; lra.
  - apply (Rmult_lt_compat_l b) in Hhi; lra.
Qed.

Lemma py_mod_period a b : exists k : Z, py_mod a b = a + b * IZR k.
Proof.
  exists (- Zfloor (a / b))%Z. unfold py_mod. rewrite opp_IZR. ring.
Qed.

Lemma py_mod_small a b : 0 <= a < b -> py_mod a b = a.
Proof.
  intros [Ha Hb]. unfold py_mod.
  assert (Hz : Zfloor (a / b) = 0%Z).
  { apply Zfloor_eq. simpl. split.
    - apply Rmult_le_pos; [lra|]. left. apply Rinv_0_lt_compat. lra.
    - rewrite Rplus_0_l. apply (Rmult_lt_reg_r b); [lra|].
      unfold Rdiv. rewrite Rmult_assoc, Rinv_l; lra. }
  rewrite Hz. simpl. ring.
Qed.

(** Over the reals [pi_2_pi x] lies in the half-open interval
    [-PI, PI) and differs from [x] by an integer multiple of [2 * PI]:
    the range the docstring of [angle_mod] gives. *)
Lemma pi_2_pi_exact_range (x : R) :
  (- PI <= pi_2_pi x < PI) /\ exists k : Z, pi_2_pi x = x + IZR k * (2 * PI).
Proof.
  unfold pi_2_pi, angle_mod.
  assert (H2 : 0 < 2 * PI) by (pose proof PI_RGT_0; lra).
  destruct (py_mod_range (x + PI) (2 * PI) H2) as [Hlo Hhi].
  split; [lra|].
  destruct (py_mod_period (x + PI) (2 * PI)) as [k Hk].
  exists k. rewrite Hk. ring.
Qed.



(** ** Lists, indexing and loops *)

Lemma index_nth {A : Type} (l : list A) (i : nat) (dflt : A) :
  (i < length l)%nat -> index l i = Ok (nth i l dflt).
Proof.
  intros H. unfold index. rewrite (nth_error_nth' l dflt H). reflexivity.
Qed.

Lemma index_out {A : Type} (l : list A) (i : nat) :
  (length l <= i)%nat -> index l i = Err IndexError.
Proof.
  intros H. unfold index.
  destruct (nth_error l i) eqn:E; [|reflexivity].
  apply nth_error_None in H. congruence.
Qed.

Lemma index_ok_lt {A : Type} (l : list A) (i : nat) (a : A) :
  index l i = Ok a -> (i < length l)%nat.
Proof.
  unfold index. intros H. destruct (nth_error l i) eqn:E; [|discriminate].
  apply nth_error_Some. congruence.
Qed.

Lemma list_set_length {A : Type} (l : list A) (i : nat) (v : A) :
  length (list_set l i v) = length l.
Proof.
  revert i; induction l as [|h t IH]; intros [|i]; simpl; auto.
Qed.

Lemma list_set_nth_same {A : Type} (l : list A) (i : nat) (v dflt : A) :
  (i < length l)%nat -> nth i (list_set l i v) dflt = v.
Proof.
  revert i; induction l as [|h t IH]; intros [|i] H; simpl in *;
    try lia; auto.
  apply IH. lia.
Qed.

Lemma list_set_nth_other {A : Type} (l : list A) (i j : nat) (v dflt : A) :
  i <> j -> nth j (list_set l i v) dflt = nth j l dflt.
Proof.
  revert i j; induction l as [|h t IH]; intros [|i] [|j] H; simpl;
    auto; try congruence.
Qed.

Lemma setitem_ok {A : Type} (l : list A) (i : nat) (v : A) :
  (i < length l)%nat -> setitem l i v = Ok (list_set l i v).
Proof.
  intros H. unfold setitem.
  destruct (Nat.ltb_spec i (length l)); [reflexivity | lia].
Qed.

Lemma bind_ok {A B : Type} (m : result A) (k : A -> result B) (b : B) :
  bind m k = Ok b -> exists a, m = Ok a /\ k a = Ok b.
Proof. destruct m; simpl; intros H; [eauto | discriminate]. Qed.

(** ** Goal check *)

Lemma hypot_nonneg a b : 0 <= hypot a b.
Proof. unfold hypot. apply sqrt_pos. Qed.

Lemma hypot_le_iff a b r : 0 <= r -> hypot a b <= r <-> a * a + b * b <= r * r.
Proof.
  intros Hr. unfold hypot.
  assert (Hs : 0 <= a * a + b * b) by nra.
  split; intros H.
  - rewrite <- (sqrt_sqrt (a * a + b * b) Hs).
    pose proof (sqrt_pos (a * a + b * b)). nra.
  - rewrite <- (sqrt_square r Hr). apply sqrt_le_1_alt. exact H.
Qed.

Lemma check_goal_cases (state : State.t) (goal : R * R) (tind nind : Z) :
  check_goal state goal tind nind = true <->
  (hypot (State.x state - fst goal) (State.y state - snd goal) <= GOAL_DIS
   \/ State.x state - fst goal < 0
   \/ State.y state - snd goal < 0)
  /\ Rabs (State.v state) <= STOP_SPEED
  /\ (Z.abs (tind - nind) < 5)%Z.
Proof.
  unfold check_goal. cbn [existsb].
  set (dx := State.x state - fst goal).
  set (dy := State.y state - snd goal).
  rewrite orb_false_r.
  destruct (Z.leb_spec 5 (Z.abs (tind - nind))) as [Hfar | Hnear].
  - cbn. split; [discriminate | lia].
  - destruct (Rleb (Rabs (State.v state)) STOP_SPEED) eqn:Hstop.
    + apply Rleb_true in Hstop. rewrite andb_true_r.
      destruct (Rleb (hypot dx dy) GOAL_DIS) eqn:Hd;
        destruct (Rltb dx 0) eqn:Hx; destruct (Rltb dy 0) eqn:Hy; cbn;
        try apply Rleb_true in Hd; try apply Rleb_false in Hd;
        try apply Rltb_true in Hx; try apply Rltb_false in Hx;
        try apply Rltb_true in Hy; try apply Rltb_false in Hy;
        split; intros H; try discriminate; try reflexivity;
        try (repeat split; auto; lia).
      destruct H as [[H | [H | H]] _]; lra.
    + apply Rleb_false in Hstop. rewrite andb_false_r.
      split; [discriminate | lra].
Qed.

(** C1, as the code has it.  [check_goal] answers true exactly when the
    vehicle is within [GOAL_DIS] of the goal OR either coordinate delta to
    the goal is negative, AND the speed magnitude is at most [STOP_SPEED],
    AND the reference index is less than 5 away from [nind]. *)
Theorem check_goal_true_iff (state : State.t) (goal : R * R) (tind nind : Z) :
  check_goal state goal tind nind = true <->
  (hypot (State.x state - fst goal) (State.y state - snd goal) <= GOAL_DIS
   \/ State.x state - fst goal < 0
   \/ State.y state - snd goal < 0)
  /\ Rabs (State.v state) <= STOP_SPEED
  /\ (Z.abs (tind - nind) < 5)%Z.
Proof. exact (check_goal_cases state goal tind nind). Qed.

(** C1, counterexample.  Ten metres short of the goal along the x axis,
    at rest, with the reference index at the end: the distance is above
    [GOAL_DIS] and [check_goal] still answers true. *)
Lemma check_goal_far_behind_goal :
  check_goal (State.new (-10) 0 0 0) (0, 0) 30 30 = true
  /\ ~ (hypot (State.x (State.new (-10) 0 0 0) - 0)
              (State.y (State.new (-10) 0 0 0) - 0) <= GOAL_DIS)
  /\ Rabs (State.v (State.new (-10) 0 0 0)) <= STOP_SPEED
  /\ (Z.abs (30 - 30) < 5)%Z.
Proof.
  assert (Hv : Rabs 0 <= STOP_SPEED).
  { rewrite Rabs_R0. unfold STOP_SPEED. lra. }
  assert (Hd : ~ hypot (-10 - 0) (0 - 0) <= GOAL_DIS).
  { intros H. apply hypot_le_iff in H; unfold GOAL_DIS in *; lra. }
  split; [| split; [exact Hd | split; [exact Hv | cbn; lia]]].
  apply check_goal_cases. cbn [State.x State.y State.v State.new fst snd].
  split; [right; left; lra | split; [exact Hv | cbn; lia]].
Qed.

(** ** Vehicle model *)

Lemma MAX_STEER_pos : 0 < MAX_STEER.
Proof. unfold MAX_STEER, deg2rad. pose proof PI_RGT_0. lra. Qed.

Lemma clamp_steer_inside delta :
  Rabs delta <= MAX_STEER ->
  (if Rleb MAX_STEER delta then MAX_STEER
   else if Rleb delta (- MAX_STEER) then - MAX_STEER else delta) = delta.
Proof.
  intros H. assert (Hlo : - MAX_STEER <= delta) by (pose proof (Rle_abs (- delta)); rewrite Rabs_Ropp in *; lra). assert (Hhi : delta <= MAX_STEER) by (pose proof (Rle_abs delta); lra). pose proof MAX_STEER_pos as Hp.
  destruct (Rleb MAX_STEER delta) eqn:E1.
  - apply Rleb_true in E1. lra.
  - destruct (Rleb delta (- MAX_STEER)) eqn:E2; [|reflexivity].
    apply Rleb_true in E2. lra.
Qed.

(** C4. At an operating point [(v, phi, delta)] with [|delta| <= MAX_STEER],
    and for an acceleration that keeps [v + a * DT] inside
    [[MIN_SPEED, MAX_SPEED]], the affine model [A x + B u + C] of
    [get_linear_model_matrix] taken at the state [(x, y, v, phi)] and input
    [(a, delta)] is the state [update_state] produces. *)
Theorem linear_model_exact_at_operating_point (x y v phi a delta : R) :
  Rabs delta <= MAX_STEER ->
  MIN_SPEED <= v + a * DT <= MAX_SPEED ->
  let '(A, B, C) := get_linear_model_matrix v phi delta in
  vadd (vadd (matvec NX A [x; y; v; phi]) (matvec NX B [a; delta])) C
  = state_vector (update_state (State.new x y phi v) a delta).
Proof.
  intros Hdelta [Hlo Hhi].
  unfold get_linear_model_matrix, update_state.
  rewrite (clamp_steer_inside delta Hdelta).
  cbn [State.new State.x State.y State.yaw State.v State.predelta
       State.set_x State.set_y State.set_yaw State.set_v].
  replace (Rltb MAX_SPEED (v + a * DT)) with false
    by (symmetry; apply Rltb_false; lra).
  replace (Rltb (v + a * DT) MIN_SPEED) with false
    by (symmetry; apply Rltb_false; lra).
  unfold state_vector, matvec, vadd, dot, sum, mset, zeros, NX.
  cbn [State.new State.x State.y State.yaw State.v State.predelta
       State.set_x State.set_y State.set_yaw State.set_v
       map seq length map2 fold_left Nat.eqb andb repeat list_set].
  unfold Rdiv.
  f_equal; [ring | f_equal; [ring | f_equal; [ring | f_equal; ring]]].
Qed.

(** C4, at a point: ten degrees of steering at 3 m/s, accelerating. *)
Lemma linear_model_exact_at_operating_point_example :
  Rabs (deg2rad 10) <= MAX_STEER
  /\ MIN_SPEED <= 3 + 1 * DT <= MAX_SPEED
  /\ (let '(A, B, C) := get_linear_model_matrix 3 (PI / 6) (deg2rad 10) in
      vadd (vadd (matvec NX A [1; 2; 3; PI / 6])
                 (matvec NX B [1; deg2rad 10])) C
      = state_vector
          (update_state (State.new 1 2 (PI / 6) 3) 1 (deg2rad 10))).
Proof.
  assert (H1 : Rabs (deg2rad 10) <= MAX_STEER).
  { unfold MAX_STEER, deg2rad. pose proof PI_RGT_0.
    rewrite Rabs_pos_eq; lra. }
  assert (H2 : MIN_SPEED <= 3 + 1 * DT <= MAX_SPEED).
  { unfold MIN_SPEED, MAX_SPEED, DT. lra. }
  split; [exact H1 | split; [exact H2 |]].
  exact (linear_model_exact_at_operating_point 1 2 3 (PI / 6) 1 (deg2rad 10)
           H1 H2).
Defined.

(** ** Speed profile *)

Section SpeedProfile.

Variables cx cy cyaw : list R.
Variable target_speed : R.
Hypothesis Hcy : length cy = length cx.
Hypothesis Hcyaw : length cyaw = length cx.

Let speed_of (d : R) : R :=
  if negb (Reqb d 1) then - target_speed else target_speed.

Lemma speed_profile_step_ok (i : nat) (sp : list R) :
  (S i < length cx)%nat -> length sp = length cx ->
  speed_profile_step cx cy cyaw target_speed i
    (sp, direction_upto cx cy cyaw i)
  = Ok (list_set sp i (speed_of (direction_upto cx cy cyaw (S i))),
        direction_upto cx cy cyaw (S i)).
Proof.
  intros Hi Hsp. unfold speed_profile_step.
  replace (i + 1)%nat with (S i) by lia.
  rewrite (index_nth cx (S i) 0) by lia.
  rewrite (index_nth cx i 0) by lia.
  rewrite (index_nth cy (S i) 0) by lia.
  rewrite (index_nth cy i 0) by lia.
  cbn [bind]. fold (seg_dx cx i). fold (seg_dy cy i). fold (oblique cx cy i).
  cbn [direction_upto].
  destruct (oblique cx cy i).
  - rewrite (index_nth cyaw i 0) by lia. cbn [bind].
    fold (deviation cx cy cyaw i).
    destruct (Rleb (PI / 4) (deviation cx cy cyaw i)); cbn [bind].
    + unfold speed_of.
      destruct (negb (Reqb (-1) 1)); rewrite setitem_ok by lia; reflexivity.
    + unfold speed_of.
      destruct (negb (Reqb 1 1)); rewrite setitem_ok by lia; reflexivity.
  - cbn [bind]. unfold speed_of.
    destruct (negb (Reqb (direction_upto cx cy cyaw i) 1));
      rewrite setitem_ok by lia; reflexivity.
Qed.

Lemma speed_profile_loop (m k : nat) (sp : list R) :
  (k + m < length cx)%nat -> length sp = length cx ->
  exists sp',
    for_in (seq k m) (speed_profile_step cx cy cyaw target_speed)
           (sp, direction_upto cx cy cyaw k)
    = Ok (sp', direction_upto cx cy cyaw (k + m))
    /\ length sp' = length cx
    /\ (forall j, (k <= j < k + m)%nat ->
          nth j sp' 0 = speed_of (direction_upto cx cy cyaw (S j)))
    /\ (forall j, ~ (k <= j < k + m)%nat -> nth j sp' 0 = nth j sp 0).
Proof.
  revert k sp. induction m as [|m IH]; intros k sp Hk Hsp.
  - exists sp. rewrite Nat.add_0_r. cbn. repeat split; auto.
    intros j Hj. lia.
  - cbn [seq for_in]. rewrite speed_profile_step_ok by lia. cbn [bind].
    destruct (IH (S k) (list_set sp k
                 (speed_of (direction_upto cx cy cyaw (S k)))))
      as (sp' & Hrun & Hlen & Hin & Hout).
    + lia.
    + rewrite list_set_length. exact Hsp.
    + exists sp'. replace (k + S m)%nat with (S k + m)%nat by lia.
      repeat split; auto.
      * intros j Hj. destruct (Nat.eq_dec j k) as [-> | Hne].
        -- rewrite Hout by lia. apply list_set_nth_same. lia.
        -- apply Hin. lia.
      * intros j Hj. rewrite Hout by lia.
        apply list_set_nth_other. lia.
Qed.

(** What [calc_speed_profile] returns on a course of [n >= 1] samples:
    the flag-driven speed at every sample but the last, zero at the
    last. *)
Lemma calc_speed_profile_spec :
  (1 <= length cx)%nat ->
  exists sp,
    calc_speed_profile cx cy cyaw target_speed = Ok sp
    /\ length sp = length cx
    /\ (forall i, (S i < length cx)%nat ->
          nth i sp 0 = speed_of (direction_upto cx cy cyaw (S i)))
    /\ nth (length cx - 1) sp 0 = 0.
Proof.
  intros Hn. unfold calc_speed_profile.
  destruct (speed_profile_loop (length cx - 1) 0
              (repeat target_speed (length cx)))
    as (sp' & Hrun & Hlen & Hin & Hout).
  - lia.
  - apply repeat_length.
  - change (direction_upto cx cy cyaw 0) with 1 in Hrun.
    rewrite Hrun. cbn [bind].
    destruct sp' as [|e rest] eqn:Esp; [simpl in Hlen; lia|].
    rewrite <- Esp in *. clear Esp e rest.
    rewrite setitem_ok by lia. cbn [bind].
    exists (list_set sp' (length sp' - 1) 0).
    split; [reflexivity|]. split; [rewrite list_set_length; exact Hlen|].
    split.
    + intros i Hi. rewrite list_set_nth_other by lia. apply Hin. lia.
    + rewrite Hlen. apply list_set_nth_same. lia.
Qed.

End SpeedProfile.

Lemma pi_2_pi_0 : pi_2_pi 0 = 0.
Proof.
  unfold pi_2_pi, angle_mod. pose proof PI_RGT_0 as Hpi.
  rewrite py_mod_small by lra. ring.
Qed.

Lemma pi_2_pi_minus_PI : pi_2_pi (- PI) = - PI.
Proof.
  unfold pi_2_pi, angle_mod. pose proof PI_RGT_0 as Hpi.
  replace (- PI + PI) with 0 by ring.
  rewrite py_mod_small by lra. ring.
Qed.

Lemma atan2_pos_x (y x : R) : 0 < x -> atan2 y x = atan (y / x).
Proof.
  intros H. unfold atan2.
  replace (Rltb 0 x) with true by (symmetry; apply Rltb_true; exact H).
  reflexivity.
Qed.

Lemma Reqb_refl (a : R) : Reqb a a = true.
Proof. apply Reqb_true. reflexivity. Qed.

Lemma Reqb_opp1 : Reqb (-1) 1 = false.
Proof. apply Reqb_false. lra. Qed.

(** C7, as the code has it.  For a pair [i], [i + 1] whose position
    delta has both components non-zero, sample [i] gets [- target_speed]
    when the travel direction deviates from [cyaw[i]] by at least [PI / 4]
    and [+ target_speed] otherwise; for a pair with a zero component the
    test is skipped and sample [i] repeats the speed of sample [i - 1]
    ([+ target_speed] for the first sample). *)
Theorem calc_speed_profile_pairs (cx cy cyaw : list R) (target_speed : R) :
  length cy = length cx -> length cyaw = length cx ->
  (1 <= length cx)%nat ->
  exists sp,
    calc_speed_profile cx cy cyaw target_speed = Ok sp
    /\ forall i, (S i < length cx)%nat ->
         nth i sp 0 =
         if oblique cx cy i then
           if Rleb (PI / 4) (deviation cx cy cyaw i) then - target_speed
           else target_speed
         else match i with
              | O => target_speed
              | S j => nth j sp 0
              end.
Proof.
  intros Hcy Hcyaw Hn.
  destruct (calc_speed_profile_spec cx cy cyaw target_speed Hcy Hcyaw Hn)
    as (sp & Hrun & Hlen & Hin & Hlast).
  exists sp. split; [exact Hrun|].
  intros i Hi. rewrite (Hin i Hi). cbn [direction_upto].
  destruct (oblique cx cy i).
  - destruct (Rleb (PI / 4) (deviation cx cy cyaw i)).
    + rewrite Reqb_opp1. reflexivity.
    + rewrite Reqb_refl. reflexivity.
  - destruct i as [|j].
    + cbn [direction_upto]. rewrite Reqb_refl. reflexivity.
    + rewrite (Hin j) by lia. reflexivity.
Qed.

(** C7, at a point: a course that turns from a diagonal into an
    axis-aligned segment. *)
Lemma calc_speed_profile_pairs_example :
  length [0; 1; 1] = length [0; 1; 2]
  /\ length [PI / 4; 0; 0] = length [0; 1; 2]
  /\ (1 <= length [0; 1; 2])%nat
  /\ exists sp,
       calc_speed_profile [0; 1; 2] [0; 1; 1] [PI / 4; 0; 0] TARGET_SPEED
       = Ok sp
       /\ forall i, (S i < length [0; 1; 2])%nat ->
            nth i sp 0 =
            if oblique [0; 1; 2] [0; 1; 1] i then
              if Rleb (PI / 4)
                      (deviation [0; 1; 2] [0; 1; 1] [PI / 4; 0; 0] i)
              then - TARGET_SPEED else TARGET_SPEED
            else match i with
                 | O => TARGET_SPEED
                 | S j => nth j sp 0
                 end.
Proof.
  split; [reflexivity | split; [reflexivity | split; [simpl; lia |]]].
  apply (calc_speed_profile_pairs [0; 1; 2] [0; 1; 1] [PI / 4; 0; 0]
           TARGET_SPEED); [reflexivity | reflexivity | simpl; lia].
Defined.

(** C7, counterexample.  Two samples on the x axis with the heading
    pointing backwards: the travel direction deviates from the heading
    by [PI], which is at least [PI / 4], and the first sample still
    gets [+ TARGET_SPEED]. *)
Lemma calc_speed_profile_axis_aligned_reverse :
  calc_speed_profile [0; 1] [0; 0] [PI; PI] TARGET_SPEED
  = Ok [TARGET_SPEED; 0]
  /\ PI / 4 <= deviation [0; 1] [0; 0] [PI; PI] 0
  /\ TARGET_SPEED <> - TARGET_SPEED.
Proof.
  split; [| split].
  - unfold calc_speed_profile. cbn [length Nat.sub seq for_in repeat].
    unfold speed_profile_step. cbn [Nat.add index nth_error bind].
    replace (Reqb (1 - 0) 0) with false by (symmetry; apply Reqb_false; lra).
    replace (Reqb (0 - 0) 0) with true by (symmetry; apply Reqb_true; lra).
    cbn [negb andb bind]. rewrite Reqb_refl. cbn [negb].
    reflexivity.
  - unfold deviation, seg_dx, seg_dy. cbn [nth].
    rewrite atan2_pos_x by lra.
    replace ((0 - 0) / (1 - 0)) with 0 by (field; lra).
    rewrite atan_0. replace (0 - PI) with (- PI) by ring.
    rewrite pi_2_pi_minus_PI, Rabs_Ropp.
    pose proof PI_RGT_0. rewrite Rabs_pos_eq; lra.
  - unfold TARGET_SPEED. lra.
Qed.

Lemma direction_upto_straight (cx cy cyaw : list R) (k : nat) :
  (forall i, (i < k)%nat ->
     nth i cyaw 0 = atan2 (seg_dy cy i) (seg_dx cx i)) ->
  direction_upto cx cy cyaw k = 1.
Proof.
  induction k as [|k IH]; intros H; [reflexivity|].
  cbn [direction_upto]. destruct (oblique cx cy k).
  - unfold deviation. rewrite (H k) by lia.
    replace (atan2 (seg_dy cy k) (seg_dx cx k)
             - atan2 (seg_dy cy k) (seg_dx cx k)) with 0 by ring.
    rewrite pi_2_pi_0, Rabs_R0.
    replace (Rleb (PI / 4) 0) with false; [reflexivity|].
    symmetry. apply Rleb_false. pose proof PI_RGT_0. lra.
  - apply IH. intros i Hi. apply H. lia.
Qed.

(** C8. On a course of at least one sample where the heading of every
    sample but the last is the travel direction towards the next sample
    (as on a straight path; the samples need not even be collinear), the
    profile is [+ target_speed] at every sample except the last, which
    is 0. *)
Theorem calc_speed_profile_straight (cx cy cyaw : list R) (target_speed : R) :
  length cy = length cx -> length cyaw = length cx ->
  (1 <= length cx)%nat ->
  (forall i, (S i < length cx)%nat ->
     nth i cyaw 0 = atan2 (seg_dy cy i) (seg_dx cx i)) ->
  calc_speed_profile cx cy cyaw target_speed
  = Ok (repeat target_speed (length cx - 1) ++ [0]).
Proof.
  intros Hcy Hcyaw Hn Hyaw.
  destruct (calc_speed_profile_spec cx cy cyaw target_speed Hcy Hcyaw Hn)
    as (sp & Hrun & Hlen & Hin & Hlast).
  rewrite Hrun. f_equal.
  apply (nth_ext _ _ 0 0).
  - rewrite length_app, repeat_length. simpl. lia.
  - intros i Hi. destruct (Nat.eq_dec i (length cx - 1)) as [-> | Hne].
    + rewrite Hlast, app_nth2; rewrite repeat_length; [|lia].
      rewrite Nat.sub_diag. reflexivity.
    + rewrite app_nth1 by (rewrite repeat_length; lia).
      rewrite nth_repeat_lt by lia.
      rewrite Hin by lia.
      rewrite direction_upto_straight.
      * rewrite Reqb_refl. reflexivity.
      * intros j Hj. apply Hyaw. lia.
Qed.

(** C8, at a point: four samples on the diagonal, heading [PI / 4]. *)
Lemma calc_speed_profile_straight_example :
  length [0; 1; 2; 3] = length [0; 1; 2; 3]
  /\ (1 <= length [0; 1; 2; 3])%nat
  /\ (forall i, (S i < length [0; 1; 2; 3])%nat ->
        nth i [PI / 4; PI / 4; PI / 4; PI / 4] 0
        = atan2 (seg_dy [0; 1; 2; 3] i) (seg_dx [0; 1; 2; 3] i))
  /\ calc_speed_profile [0; 1; 2; 3] [0; 1; 2; 3]
                        [PI / 4; PI / 4; PI / 4; PI / 4] TARGET_SPEED
     = Ok [TARGET_SPEED; TARGET_SPEED; TARGET_SPEED; 0].
Proof.
  assert (Hat : atan2 1 1 = PI / 4).
  { rewrite atan2_pos_x by lra. replace (1 / 1) with 1 by field.
    apply atan_1. }
  assert (Hyaw : forall i, (S i < length [0; 1; 2; 3])%nat ->
            nth i [PI / 4; PI / 4; PI / 4; PI / 4] 0
            = atan2 (seg_dy [0; 1; 2; 3] i) (seg_dx [0; 1; 2; 3] i)).
  { intros i Hi. simpl in Hi.
    destruct i as [|[|[|i]]]; unfold seg_dx, seg_dy; cbn [nth]; try lia.
    - replace (1 - 0) with 1 by ring. symmetry. exact Hat.
    - replace (2 - 1) with 1 by ring. symmetry. exact Hat.
    - replace (3 - 2) with 1 by ring. symmetry. exact Hat. }
  split; [reflexivity | split; [simpl; lia | split; [exact Hyaw |]]].
  apply (calc_speed_profile_straight [0; 1; 2; 3] [0; 1; 2; 3]
           [PI / 4; PI / 4; PI / 4; PI / 4] TARGET_SPEED);
    [reflexivity | reflexivity | simpl; lia | exact Hyaw].
Defined.

(** ** Reference tracking *)

Lemma py_min_fold_in (t : list R) (a : R) :
  In (fold_left (fun m e => if Rltb e m then e else m) t a) (a :: t).
Proof.
  revert a; induction t as [|e t IH]; intros a; [left; reflexivity|].
  cbn [fold_left]. destruct (Rltb e a).
  - right. apply IH.
  - destruct (IH a) as [H | H]; [left; exact H | right; right; exact H].
Qed.

Lemma py_min_ok (l : list R) :
  l <> [] -> exists m, py_min l = Ok m /\ In m l.
Proof.
  destruct l as [|a t]; [congruence|]. intros _.
  eexists; split; [reflexivity | apply py_min_fold_in].
Qed.

Lemma list_index_ok (l : list R) (v : R) :
  In v l -> exists k, list_index l v = Ok k /\ (k < length l)%nat.
Proof.
  induction l as [|a t IH]; intros H; [destruct H|].
  cbn [list_index]. destruct (Reqb a v) eqn:E.
  - exists 0%nat. split; [reflexivity | simpl; lia].
  - destruct H as [H | H].
    + apply Reqb_false in E. contradiction.
    + destruct (IH H) as (k & Hk & Hlt). rewrite Hk. cbn [bind].
      exists (S k). split; [reflexivity | simpl; lia].
Qed.

Lemma map2_length {A B C : Type} (f : A -> B -> C) (l : list A) (m : list B) :
  length (map2 f l m) = Nat.min (length l) (length m).
Proof.
  revert m; induction l as [|a l IH]; intros [|b m]; simpl; auto.
Qed.

Lemma slice_length {A : Type} (l : list A) (lo hi : nat) :
  length (slice l lo hi) = Nat.min (hi - lo) (length l - lo).
Proof. unfold slice. rewrite length_firstn, length_skipn. reflexivity. Qed.

Lemma index_z_ok {A : Type} (l : list A) (j : Z) (dflt : A) :
  (0 <= j < Z.of_nat (length l))%Z ->
  index_z l j = Ok (nth (Z.to_nat j) l dflt).
Proof.
  intros H. unfold index_z.
  destruct (Z.leb_spec 0 j); [|lia]. apply index_nth. lia.
Qed.

Lemma py_round_nonneg (x : R) : 0 <= x -> (0 <= py_round x)%Z.
Proof.
  intros H. unfold py_round.
  assert (Hf : (0 <= Zfloor x)%Z) by (apply Zfloor_lub; exact H).
  destruct (Rltb (x - IZR (Zfloor x)) (1 / 2)); [exact Hf|].
  destruct (Rltb (1 / 2) (x - IZR (Zfloor x))); [lia|].
  destruct (Z.even (Zfloor x)); lia.
Qed.

Section Tracker.

Variable state : State.t.
Variables cx cy cyaw sp : list R.
Variable dl : R.
Hypothesis Hcy : length cy = length cx.
Hypothesis Hcyaw : length cyaw = length cx.
Hypothesis Hsp : length sp = length cx.

Lemma calc_nearest_index_ok (pind : nat) :
  (pind < length cx)%nat ->
  exists ind mind,
    calc_nearest_index state cx cy cyaw pind = Ok (ind, mind)
    /\ (pind <= ind < length cx)%nat.
Proof.
  intros Hp. unfold calc_nearest_index.
  set (d := map2 _ _ _).
  assert (Hd : length d = Nat.min N_IND_SEARCH (length cx - pind)).
  { unfold d. rewrite map2_length, !length_map, !slice_length, Hcy.
    replace (pind + N_IND_SEARCH - pind)%nat with N_IND_SEARCH by lia.
    apply Nat.min_id. }
  assert (Hne : d <> []).
  { intros E. rewrite E in Hd. cbn [length] in Hd.
    unfold N_IND_SEARCH in Hd. lia. }
  destruct (py_min_ok d Hne) as (m & Hm & Hin). rewrite Hm. cbn [bind].
  destruct (list_index_ok d m Hin) as (k & Hk & Hlt). rewrite Hk. cbn [bind].
  assert (Hind : (k + pind < length cx)%nat) by lia.
  rewrite (index_nth cx (k + pind) 0) by lia.
  rewrite (index_nth cy (k + pind) 0) by lia.
  rewrite (index_nth cyaw (k + pind) 0) by lia.
  cbn [bind]. eexists; eexists. split; [reflexivity | lia].
Qed.

Lemma set_ref_ok (xref dref : matrix) (i : nat) (j : Z) :
  (0 <= j < Z.of_nat (length cx))%Z ->
  exists xref' dref', set_ref cx cy sp cyaw xref dref i j = Ok (xref', dref').
Proof.
  intros Hj. unfold set_ref.
  rewrite (index_z_ok cx j 0) by lia.
  rewrite (index_z_ok cy j 0) by lia.
  rewrite (index_z_ok sp j 0) by lia.
  rewrite (index_z_ok cyaw j 0) by lia.
  cbn [bind]. eexists; eexists; reflexivity.
Qed.

Lemma ref_step_ok (ind i : nat) (travel : R) (xref dref : matrix) :
  0 < dl -> (ind < length cx)%nat -> 0 <= travel ->
  exists travel' xref' dref',
    ref_step state cx cy cyaw sp dl ind i (travel, xref, dref)
    = Ok (travel', xref', dref')
    /\ 0 <= travel'.
Proof.
  intros Hdl Hind Htr. unfold ref_step.
  replace (Reqb dl 0) with false by (symmetry; apply Reqb_false; lra).
  set (travel' := travel + Rabs (State.v state) * DT).
  assert (Htr' : 0 <= travel').
  { unfold travel', DT. pose proof (Rabs_pos (State.v state)). nra. }
  assert (Hdind : (0 <= py_round (travel' / dl))%Z).
  { apply py_round_nonneg. apply Rmult_le_pos; [exact Htr'|].
    left. apply Rinv_0_lt_compat. exact Hdl. }
  destruct (Z.ltb_spec (Z.of_nat ind + py_round (travel' / dl))
                       (Z.of_nat (length cx))) as [Hin | Hout].
  - destruct (set_ref_ok xref dref i (Z.of_nat ind + py_round (travel' / dl)))
      as (xr & dr & H); [lia|].
    rewrite H. cbn [bind]. exists travel', xr, dr. split; auto.
  - destruct (set_ref_ok xref dref i (Z.of_nat (length cx) - 1))
      as (xr & dr & H); [lia|].
    rewrite H. cbn [bind]. exists travel', xr, dr. split; auto.
Qed.

Lemma ref_loop_ok (ind : nat) (steps : list nat) (travel : R)
  (xref dref : matrix) :
  0 < dl -> (ind < length cx)%nat -> 0 <= travel ->
  exists st,
    for_in steps (ref_step state cx cy cyaw sp dl ind) (travel, xref, dref)
    = Ok st.
Proof.
  intros Hdl Hind. revert travel xref dref.
  induction steps as [|i steps IH]; intros travel xref dref Htr.
  - eexists; reflexivity.
  - cbn [for_in].
    destruct (ref_step_ok ind i travel xref dref Hdl Hind Htr)
      as (tr' & xr & dr & H & Htr').
    rewrite H. cbn [bind]. apply IH. exact Htr'.
Qed.

End Tracker.

(** Whatever the inputs, an index handed back by [calc_ref_trajectory]
    is not below [pind]. *)
Lemma calc_ref_trajectory_ind_ge (state : State.t) (cx cy cyaw ck sp : list R)
  (dl : R) (pind : nat) (xref : matrix) (ind : nat) (dref : matrix) :
  calc_ref_trajectory state cx cy cyaw ck sp dl pind = Ok (xref, ind, dref) ->
  (pind <= ind)%nat.
Proof.
  unfold calc_ref_trajectory. intros H.
  apply bind_ok in H. destruct H as ([ind0 m] & _ & H).
  apply bind_ok in H. destruct H as ([xr dr] & _ & H).
  apply bind_ok in H. destruct H as ([[tr xr'] dr'] & _ & H).
  injection H as _ Hind _. subst ind.
  destruct (Nat.leb_spec ind0 pind); lia.
Qed.

(** C9. On a well-formed course (the four lists of one length), with
    [pind] inside the course -- so that the forward search window is
    not empty -- and a positive sample spacing, [calc_ref_trajectory]
    returns, and the reference index it returns is at least [pind]. *)
Theorem calc_ref_trajectory_never_backward (state : State.t)
  (cx cy cyaw ck sp : list R) (dl : R) (pind : nat) :
  length cy = length cx -> length cyaw = length cx ->
  length sp = length cx ->
  (pind < length cx)%nat -> 0 < dl ->
  exists xref ind dref,
    calc_ref_trajectory state cx cy cyaw ck sp dl pind = Ok (xref, ind, dref)
    /\ (pind <= ind)%nat.
Proof.
  intros Hcy Hcyaw Hsp Hp Hdl.
  assert (Hex : exists r,
             calc_ref_trajectory state cx cy cyaw ck sp dl pind = Ok r).
  { unfold calc_ref_trajectory.
    destruct (calc_nearest_index_ok state cx cy cyaw sp Hcy Hcyaw Hsp pind Hp)
      as (ind0 & m & Hnear & Hrange).
    rewrite Hnear. cbn [bind].
    set (ind := if (ind0 <=? pind)%nat then pind else ind0).
    assert (Hind : (ind < length cx)%nat).
    { unfold ind. destruct (Nat.leb_spec ind0 pind); lia. }
    destruct (set_ref_ok cx cy cyaw sp Hcy Hcyaw Hsp zeros zeros 0
                (Z.of_nat ind)) as (xr & dr & Hset); [lia|].
    rewrite Hset. cbn [bind].
    destruct (ref_loop_ok state cx cy cyaw sp dl Hcy Hcyaw Hsp ind
                (seq 0 (T + 1)) 0 xr dr Hdl Hind (Rle_refl 0))
      as ([[tr xr'] dr'] & Hloop).
    rewrite Hloop. cbn [bind]. eexists; reflexivity. }
  destruct Hex as ([[xref ind] dref] & Hrun).
  exists xref, ind, dref. split; [exact Hrun|].
  eapply calc_ref_trajectory_ind_ge. exact Hrun.
Qed.

(** C9, at a point: three samples on the x axis, the vehicle at the
    origin moving at 1 m/s, the previous reference index 1. *)
Lemma calc_ref_trajectory_never_backward_example :
  length [0; 0; 0] = length [0; 1; 2]
  /\ length [TARGET_SPEED; TARGET_SPEED; 0] = length [0; 1; 2]
  /\ (1 < length [0; 1; 2])%nat
  /\ 0 < 1
  /\ exists xref ind dref,
       calc_ref_trajectory (State.new 0 0 0 1) [0; 1; 2] [0; 0; 0] [0; 0; 0]
         [0; 0; 0] [TARGET_SPEED; TARGET_SPEED; 0] 1 1
       = Ok (xref, ind, dref)
       /\ (1 <= ind)%nat.
Proof.
  split; [reflexivity | split; [reflexivity | split; [simpl; lia |]]].
  split; [lra |].
  apply (calc_ref_trajectory_never_backward (State.new 0 0 0 1) [0; 1; 2]
           [0; 0; 0] [0; 0; 0] [0; 0; 0] [TARGET_SPEED; TARGET_SPEED; 0] 1 1);
    [reflexivity | reflexivity | reflexivity | simpl; lia | lra].
Defined.

(** ** The optimisation problem *)

Lemma mpc_stage_constraints (xref xbar dref : matrix) (t : nat) (p : Problem) :
  exists dyn,
    constraints (mpc_stage xref xbar dref t p)
    = (constraints p ++ [dyn])
      ++ (if (t <? T - 1)%nat
          then [fun w => Rleb (Rabs (uval w 1%nat (t + 1)%nat - uval w 1%nat t))
                              (MAX_DSTEER * DT)]
          else []).
Proof.
  unfold mpc_stage.
  destruct (get_linear_model_matrix (xbar 2%nat t) (xbar 3%nat t)
              (dref 0%nat t)) as [[A B] C].
  eexists. destruct (t <? T - 1)%nat; cbn [constraints].
  - reflexivity.
  - rewrite app_nil_r. reflexivity.
Qed.

Lemma mpc_stages_keep (xref xbar dref : matrix) (ts : list nat) (p : Problem)
  (c : valuation -> bool) :
  In c (constraints p) -> In c (constraints (mpc_stages xref xbar dref ts p)).
Proof.
  revert p; induction ts as [|t ts IH]; intros p H; [exact H|].
  cbn [mpc_stages]. apply IH.
  destruct (mpc_stage_constraints xref xbar dref t p) as (dyn & ->).
  apply in_or_app. left. apply in_or_app. left. exact H.
Qed.

Lemma mpc_stages_rate (xref xbar dref : matrix) (ts : list nat) (p : Problem)
  (t : nat) :
  In t ts -> (t < T - 1)%nat ->
  In (fun w => Rleb (Rabs (uval w 1%nat (t + 1)%nat - uval w 1%nat t))
                    (MAX_DSTEER * DT))
     (constraints (mpc_stages xref xbar dref ts p)).
Proof.
  revert p; induction ts as [|t' ts IH]; intros p Hin Ht; [destruct Hin|].
  cbn [mpc_stages]. destruct Hin as [-> | Hin].
  - apply mpc_stages_keep.
    destruct (mpc_stage_constraints xref xbar dref t p) as (dyn & ->).
    apply in_or_app. right.
    destruct (Nat.ltb_spec t (T - 1)); [left; reflexivity | lia].
  - apply IH; assumption.
Qed.

(** The constraints of [mpc_problem] that bound the inputs, and the two
    that pin the initial state and cap the speed. *)
Lemma mpc_problem_constraints (xref xbar : matrix) (x0 : list R)
  (dref : matrix) (prob : Problem) :
  mpc_problem xref xbar x0 dref = Ok prob ->
  length x0 = NX
  /\ (forall t, (t < T - 1)%nat ->
        In (fun w => Rleb (Rabs (uval w 1%nat (t + 1)%nat - uval w 1%nat t))
                          (MAX_DSTEER * DT)) (constraints prob))
  /\ In (fun w => veqb (col NX (xval w) 0) x0) (constraints prob)
  /\ In (fun w => forallb (fun e => Rleb e MAX_SPEED) (row (T + 1) (xval w) 2))
        (constraints prob)
  /\ In (fun w => forallb (fun e => Rleb (Rabs e) MAX_ACCEL) (row T (uval w) 0))
        (constraints prob)
  /\ In (fun w => forallb (fun e => Rleb (Rabs e) MAX_STEER) (row T (uval w) 1))
        (constraints prob).
Proof.
  unfold mpc_problem. intros H.
  pose proof (fun t => mpc_stages_rate xref xbar dref (seq 0 T)
                         (mkprob (fun _ => 0) []) t) as Hstages.
  set (p0 := mpc_stages xref xbar dref (seq 0 T) (mkprob (fun _ => 0) []))
    in *.
  clearbody p0.
  destruct (Nat.eqb_spec (length x0) NX) as [Hlen | Hlen];
    cbn [negb] in H; [|discriminate].
  injection H as <-. cbn [constraints].
  split; [exact Hlen|].
  split.
  { intros t Ht. do 5 (apply in_or_app; left).
    apply Hstages; [|exact Ht].
    apply in_seq. unfold T in *. lia. }
  repeat split.
  - do 4 (apply in_or_app; left). apply in_or_app. right. left. reflexivity.
  - do 3 (apply in_or_app; left). apply in_or_app. right. left. reflexivity.
  - do 1 (apply in_or_app; left). apply in_or_app. right. left. reflexivity.
  - apply in_or_app. right. left. reflexivity.
Qed.

Lemma mpc_problem_ok (xref xbar : matrix) (x0 : list R) (dref : matrix) :
  length x0 = NX -> exists prob, mpc_problem xref xbar x0 dref = Ok prob.
Proof.
  intros H. unfold mpc_problem. rewrite H, Nat.eqb_refl. cbn [negb].
  eexists; reflexivity.
Qed.




Section SoundSolver.

Variable solve : Problem -> Status * valuation.
Hypothesis Hsound : solver_sound solve.




End SoundSolver.

Lemma zero_probe_solver_sound : solver_sound zero_probe_solver.
Proof.
  intros p. unfold zero_probe_solver.
  destruct (forallb (fun c => c zero_valuation) (constraints p)) eqn:E;
    cbn [fst snd status_eqb orb]; [intros _; exact E | discriminate].
Qed.

Lemma predict_loop_ok (steps : list (R * R * nat)) (st : State.t * matrix) :
  exists st', for_in steps predict_step st = Ok st'.
Proof.
  revert st; induction steps as [|[[ai di] i] steps IH]; intros [state xbar].
  - eexists; reflexivity.
  - cbn [for_in predict_step bind]. apply IH.
Qed.

Lemma predict_motion_ok (x0 oa od : list R) (xref : matrix) :
  length x0 = NX -> exists xbar, predict_motion x0 oa od xref = Ok xbar.
Proof.
  intros H. destruct x0 as [|p0 [|p1 [|p2 [|p3 [|p4 x0]]]]]; try discriminate.
  unfold predict_motion.
  cbn [length seq for_in copy_x0 Nat.ltb Nat.leb NX index nth_error bind].
  match goal with
  | |- context [for_in ?l predict_step ?st] =>
      destruct (predict_loop_ok l st) as ([state xbar] & Hloop)
  end.
  rewrite Hloop. cbn [bind]. eexists; reflexivity.
Qed.


Ltac decide_Reqb :=
  repeat match goal with
  | |- context [Reqb ?a ?b] =>
      replace (Reqb a b) with true
        by (symmetry; apply Reqb_true; unfold Rdiv; ring)
  end.

Lemma Rleb_is_true (a b : R) : a <= b -> Rleb a b = true.
Proof. apply Rleb_true. Qed.

Lemma mpc_stage_at_rest (xref xbar dref : matrix) (t : nat) (p : Problem) :
  xbar 2%nat t = 0 ->
  forallb (fun c => c zero_valuation) (constraints p) = true ->
  forallb (fun c => c zero_valuation)
          (constraints (mpc_stage xref xbar dref t p)) = true.
Proof.
  intros Hv H. unfold mpc_stage, get_linear_model_matrix.
  cbv beta iota zeta. rewrite Hv.
  destruct (t <? T - 1)%nat; cbn [constraints];
    rewrite !forallb_app, H; cbn [forallb andb];
    unfold NX, NU, matvec, vadd, vsub, dot, sum, col, zero_valuation, zeros,
      mset;
    cbn [seq xval uval map map2 length fold_left Nat.eqb andb repeat
         list_set veqb];
    decide_Reqb; try reflexivity.
  replace (0 - 0) with 0 by ring. rewrite Rabs_R0.
  rewrite Rleb_is_true; [reflexivity|].
  unfold MAX_DSTEER, deg2rad, DT. pose proof PI_RGT_0. nra.
Qed.

Lemma mpc_stages_at_rest (xref xbar dref : matrix) (ts : list nat)
  (p : Problem) :
  (forall t, xbar 2%nat t = 0) ->
  forallb (fun c => c zero_valuation) (constraints p) = true ->
  forallb (fun c => c zero_valuation)
          (constraints (mpc_stages xref xbar dref ts p)) = true.
Proof.
  intros Hv. revert p; induction ts as [|t ts IH]; intros p H; [exact H|].
  cbn [mpc_stages]. apply IH. apply mpc_stage_at_rest; [apply Hv | exact H].
Qed.

(** With the vehicle at rest at the origin and a nominal trajectory of
    zero speed, the all-zero trajectory is feasible, and
    [linear_mpc_control] returns it. *)
Lemma linear_mpc_control_zero_speed (xref xbar dref : matrix) :
  (forall t, xbar 2%nat t = 0) ->
  linear_mpc_control zero_probe_solver xref xbar [0; 0; 0; 0] dref
  = Ok (mkout (Some [0; 0; 0; 0; 0]) (Some [0; 0; 0; 0; 0])
              (Some [0; 0; 0; 0; 0; 0]) (Some [0; 0; 0; 0; 0; 0])
              (Some [0; 0; 0; 0; 0; 0]) (Some [0; 0; 0; 0; 0; 0])).
Proof.
  intros Hv. unfold linear_mpc_control, mpc_problem.
  cbn [length Nat.eqb NX negb bind].
  unfold zero_probe_solver. cbn [constraints].
  match goal with
  | |- context [forallb ?f ?l] =>
      assert (Hfeas : forallb f l = true)
  end.
  { rewrite !forallb_app, mpc_stages_at_rest by (auto; reflexivity).
    unfold T, NX, col, row, zero_valuation, zeros.
    cbn [seq forallb xval uval map Nat.add veqb andb].
    rewrite Rabs_R0, Reqb_refl.
    rewrite !Rleb_is_true; [reflexivity | | | |].
    - pose proof MAX_STEER_pos; lra.
    - unfold MAX_ACCEL; lra.
    - unfold MIN_SPEED; lra.
    - unfold MAX_SPEED; lra. }
  rewrite Hfeas. reflexivity.
Qed.


Lemma update_state_keeps_rest (s : State.t) (delta : R) :
  State.v s = 0 -> State.v (update_state s 0 delta) = 0.
Proof.
  intros Hv. unfold update_state.
  cbn [State.x State.y State.yaw State.v State.predelta
       State.set_x State.set_y State.set_yaw State.set_v].
  rewrite Hv.
  replace (Rltb MAX_SPEED (0 + 0 * DT)) with false
    by (symmetry; apply Rltb_false; unfold MAX_SPEED; lra).
  replace (Rltb (0 + 0 * DT) MIN_SPEED) with false
    by (symmetry; apply Rltb_false; unfold MIN_SPEED; lra).
  cbn [State.v State.set_v]. ring.
Qed.

(** The nominal trajectory predicted from rest under zero inputs has
    zero speed throughout. *)
Lemma predict_motion_at_rest (xref : matrix) :
  exists xbar,
    predict_motion [0; 0; 0; 0] (repeat 0 T) (repeat 0 T) xref = Ok xbar
    /\ forall t, xbar 2%nat t = 0.
Proof.
  unfold predict_motion, T.
  cbn [length seq for_in copy_x0 Nat.ltb Nat.leb NX index nth_error bind
       repeat combine predict_step].
  eexists. split; [reflexivity|].
  pose proof (update_state_keeps_rest (State.new 0 0 0 0) 0 eq_refl) as H1.
  pose proof (update_state_keeps_rest _ 0 H1) as H2.
  pose proof (update_state_keeps_rest _ 0 H2) as H3.
  pose proof (update_state_keeps_rest _ 0 H3) as H4.
  pose proof (update_state_keeps_rest _ 0 H4) as H5.
  intros t. unfold mset.
  destruct t as [|[|[|[|[|[|t]]]]]]; cbn [Nat.eqb andb];
    try assumption; ring.
Qed.

(** The whole refinement on that scenario: one round, the change of the
    control sequence is zero, and the all-zero sequence is returned. *)
Lemma iterative_linear_mpc_control_at_rest (xref dref : matrix) :
  iterative_linear_mpc_control zero_probe_solver xref [0; 0; 0; 0] dref
    None None
  = Ok (mkout (Some [0; 0; 0; 0; 0]) (Some [0; 0; 0; 0; 0])
              (Some [0; 0; 0; 0; 0; 0]) (Some [0; 0; 0; 0; 0; 0])
              (Some [0; 0; 0; 0; 0; 0]) (Some [0; 0; 0; 0; 0; 0])).
Proof.
  unfold iterative_linear_mpc_control, MAX_ITER.
  cbn [refine oa odelta as_seq bind].
  destruct (predict_motion_at_rest xref) as (xbar & -> & Hv).
  cbn [bind]. rewrite (linear_mpc_control_zero_speed xref xbar dref Hv).
  cbn [bind oa odelta np_sub]. unfold np_binop, T.
  cbn [repeat length Nat.eqb map2 bind map sum fold_left].
  replace (0 - 0) with 0 by ring. rewrite Rabs_R0.
  rewrite Rleb_is_true; [reflexivity|]. unfold DU_TH. lra.
Qed.

(** Whatever the solver, an answer of [iterative_linear_mpc_control]
    carries both control arrays: the all-[None] failure answer of
    [linear_mpc_control] is never passed on. *)
Lemma refine_has_arrays (solve : Problem -> Status * valuation) (n : nat)
  (xref : matrix) (x0 : list R) (dref : matrix) (cur out : mpc_out) :
  refine solve n xref x0 dref cur = Ok out ->
  oa cur <> None /\ odelta cur <> None ->
  oa out <> None /\ odelta out <> None.
Proof.
  revert cur. induction n as [|n IH]; intros cur H Hcur.
  - cbn [refine] in H. injection H as <-. exact Hcur.
  - cbn [refine] in H.
    apply bind_ok in H. destruct H as (a0 & _ & H).
    apply bind_ok in H. destruct H as (d0 & _ & H).
    apply bind_ok in H. destruct H as (xbar & _ & H).
    apply bind_ok in H. destruct H as (o & _ & H).
    apply bind_ok in H. destruct H as (da & Hda & H).
    apply bind_ok in H. destruct H as (dd & Hdd & H).
    assert (Ho : oa o <> None /\ odelta o <> None).
    { destruct (oa o); [|discriminate].
      destruct (odelta o); [|discriminate]. split; discriminate. }
    destruct (Rleb _ DU_TH).
    + injection H as <-. exact Ho.
    + eapply IH; eassumption.
Qed.

Lemma iterative_never_returns_none (solve : Problem -> Status * valuation)
  (xref : matrix) (x0 : list R) (dref : matrix) (oa0 od0 : option (list R))
  (out : mpc_out) :
  iterative_linear_mpc_control solve xref x0 dref oa0 od0 = Ok out ->
  oa out <> None /\ odelta out <> None.
Proof.
  unfold iterative_linear_mpc_control.
  set (start := match oa0, od0 with
                | Some a, Some d => (a, d)
                | _, _ => (repeat 0 T, repeat 0 T)
                end).
  destruct start as [a0 d0]. intros H.
  apply refine_has_arrays in H; [exact H|].
  cbn [oa odelta]. split; discriminate.
Qed.



(** A sound solver cannot report an optimum when the initial speed is
    above [MAX_SPEED]: the problem pins [x[2, 0]] to it and caps
    [x[2, :]] at [MAX_SPEED]. *)
Lemma linear_mpc_control_overspeed (solve : Problem -> Status * valuation)
  (xref xbar dref : matrix) (px py v yaw : R) :
  solver_sound solve -> MAX_SPEED < v ->
  linear_mpc_control solve xref xbar [px; py; v; yaw] dref
  = Ok (mkout None None None None None None).
Proof.
  intros Hsound Hv. unfold linear_mpc_control.
  destruct (mpc_problem_ok xref xbar [px; py; v; yaw] dref eq_refl)
    as (prob & Hprob).
  rewrite Hprob. cbn [bind].
  pose proof (Hsound prob) as Hs.
  destruct (solve prob) as [status w]. cbn [fst snd] in Hs.
  destruct (status_eqb status OPTIMAL || status_eqb status OPTIMAL_INACCURATE);
    [|reflexivity].
  exfalso. specialize (Hs eq_refl). rewrite forallb_forall in Hs.
  destruct (mpc_problem_constraints _ _ _ _ _ Hprob)
    as (_ & _ & Hinit & Hcap & _ & _).
  apply Hs in Hinit. apply Hs in Hcap.
  unfold col, NX in Hinit. cbn [seq map veqb] in Hinit.
  apply andb_true_iff in Hinit. destruct Hinit as [_ Hinit].
  apply andb_true_iff in Hinit. destruct Hinit as [_ Hinit].
  apply andb_true_iff in Hinit. destruct Hinit as [Hinit _].
  apply Reqb_true in Hinit.
  unfold row, T in Hcap. cbn [seq map forallb Nat.add] in Hcap.
  apply andb_true_iff in Hcap. destruct Hcap as [Hcap _].
  apply Rleb_true in Hcap. lra.
Qed.

(** C2, on the code.  When the solver reports no optimum on the first
    round -- as every sound solver must when the initial speed exceeds
    [MAX_SPEED] -- [iterative_linear_mpc_control] does not return the
    all-[None] answer of [linear_mpc_control]: the subtraction
    [oa - poa] on [None] raises [TypeError]. *)
Theorem iterative_mpc_raises_on_solver_failure
  (solve : Problem -> Status * valuation) (xref dref : matrix)
  (px py v yaw : R) (oa0 od0 : option (list R)) :
  solver_sound solve -> MAX_SPEED < v ->
  iterative_linear_mpc_control solve xref [px; py; v; yaw] dref oa0 od0
  = Err TypeError.
Proof.
  intros Hsound Hv. unfold iterative_linear_mpc_control.
  set (start := match oa0, od0 with
                | Some a, Some d => (a, d)
                | _, _ => (repeat 0 T, repeat 0 T)
                end).
  destruct start as [a0 d0]. unfold MAX_ITER.
  cbn [refine oa odelta as_seq bind].
  destruct (predict_motion_ok [px; py; v; yaw] a0 d0 xref eq_refl)
    as (xbar & Hxbar).
  rewrite Hxbar. cbn [bind].
  rewrite (linear_mpc_control_overspeed solve xref xbar dref px py v yaw
             Hsound Hv).
  reflexivity.
Qed.

(** C2, at a point: 20 m/s at the start of the tick, no warm start. *)
Lemma iterative_mpc_raises_on_solver_failure_example :
  solver_sound zero_probe_solver
  /\ MAX_SPEED < 20
  /\ iterative_linear_mpc_control zero_probe_solver zeros [0; 0; 20; 0] zeros
       None None
     = Err TypeError.
Proof.
  assert (Hv : MAX_SPEED < 20) by (unfold MAX_SPEED; lra).
  split; [exact zero_probe_solver_sound | split; [exact Hv |]].
  exact (iterative_mpc_raises_on_solver_failure zero_probe_solver zeros zeros
           0 0 20 0 None None zero_probe_solver_sound Hv).
Defined.

(** ** Cubic splines *)

Lemma index_err {A : Type} (l : list A) (i : nat) (e : exn) :
  index l i = Err e -> e = IndexError.
Proof.
  unfold index. destruct (nth_error l i); intros H; [discriminate|].
  injection H as <-. reflexivity.
Qed.

Lemma nth_last_elt (l : list R) (dflt : R) :
  nth (length l - 1) l dflt = last l dflt.
Proof.
  induction l as [|a [|b t] IH]; [reflexivity | reflexivity |].
  change (last (a :: b :: t) dflt) with (last (b :: t) dflt).
  rewrite <- IH. cbn [length Nat.sub nth]. rewrite Nat.sub_0_r. reflexivity.
Qed.

(** The fuel of [bisect_loop] does not matter once it covers the
    interval searched: [bisect] is the search run to its end. *)
Lemma bisect_loop_fuel (a : list R) (v : R) (f1 f2 lo hi : nat) :
  (hi - lo <= f1)%nat -> (hi - lo <= f2)%nat ->
  bisect_loop f1 a v lo hi = bisect_loop f2 a v lo hi.
Proof.
  revert f2 lo hi. induction f1 as [|f1 IH]; intros f2 lo hi H1 H2.
  - destruct f2 as [|f2]; cbn [bisect_loop]; [reflexivity|].
    destruct (Nat.ltb_spec lo hi); [lia | reflexivity].
  - cbn [bisect_loop]. destruct (Nat.ltb_spec lo hi) as [Hlt | Hge].
    + destruct f2 as [|f2]; [lia|]. cbn [bisect_loop].
      destruct (Nat.ltb_spec lo hi); [|lia].
      assert (Hmid : ((lo + hi) / 2 < hi)%nat)
        by (apply Nat.Div0.div_lt_upper_bound; lia).
      assert (Hmid' : (lo <= (lo + hi) / 2)%nat)
        by (apply Nat.div_le_lower_bound; lia).
      destruct (Rltb v (nth ((lo + hi) / 2) a 0)); apply IH; lia.
    + destruct f2 as [|f2]; cbn [bisect_loop]; [reflexivity|].
      destruct (Nat.ltb_spec lo hi); [lia | reflexivity].
Qed.

Lemma bisect_loop_all_le (fuel : nat) (a : list R) (v : R) (lo hi : nat) :
  Forall (fun e => e <= v) a ->
  hi = length a -> (lo <= hi)%nat -> (hi - lo <= fuel)%nat ->
  bisect_loop fuel a v lo hi = hi.
Proof.
  intros Hall Hhi. revert lo.
  induction fuel as [|fuel IH]; intros lo Hlo Hfuel; cbn [bisect_loop].
  - lia.
  - destruct (Nat.ltb_spec lo hi) as [Hlt | Hge]; [|lia].
    assert (Hmid : ((lo + hi) / 2 < hi)%nat).
    { apply Nat.Div0.div_lt_upper_bound. lia. }
    assert (Hmid' : (lo <= (lo + hi) / 2)%nat).
    { apply Nat.div_le_lower_bound; lia. }
    replace (Rltb v (nth ((lo + hi) / 2) a 0)) with false.
    + apply IH; lia.
    + symmetry. apply Rltb_false.
      rewrite Forall_forall in Hall. apply Hall. apply nth_In. lia.
Qed.

Lemma bisect_all_le (a : list R) (v : R) :
  Forall (fun e => e <= v) a -> bisect a v = length a.
Proof.
  intros H. unfold bisect. apply bisect_loop_all_le; auto; lia.
Qed.

Lemma existsb_neg_false (h : list R) :
  existsb (fun hi => Rltb hi 0) h = false -> Forall (fun hi => 0 <= hi) h.
Proof.
  induction h as [|a h IH]; intros H; [constructor|].
  cbn [existsb] in H. apply orb_false_iff in H. destruct H as [Ha Hh].
  constructor; [apply Rltb_false; exact Ha | apply IH; exact Hh].
Qed.

(** A list with non-negative consecutive differences climbs to its last
    element. *)
Lemma diff_nonneg_le_last (l : list R) (dflt : R) :
  Forall (fun hi => 0 <= hi) (diff l) -> Forall (fun e => e <= last l dflt) l.
Proof.
  induction l as [|a [|b t] IH]; intros H.
  - constructor.
  - constructor; [cbn; lra | constructor].
  - cbn [diff] in H. inversion H as [|? ? Hab Hrest]; subst.
    specialize (IH Hrest).
    change (last (a :: b :: t) dflt) with (last (b :: t) dflt).
    constructor; [|exact IH].
    inversion IH; subst. lra.
Qed.

Lemma coeff_loop_length (h a c : list R) (steps : list nat)
  (d0 b0 d b : list R) :
  for_in steps (CubicSpline1D.coeff_step h a c) (d0, b0) = Ok (d, b) ->
  length d = (length d0 + length steps)%nat
  /\ length b = (length b0 + length steps)%nat.
Proof.
  revert d0 b0. induction steps as [|i steps IH]; intros d0 b0 H.
  - cbn in H. injection H as <- <-. cbn. lia.
  - cbn [for_in] in H. apply bind_ok in H. destruct H as ([d1 b1] & Hstep & H).
    unfold CubicSpline1D.coeff_step in Hstep.
    apply bind_ok in Hstep. destruct Hstep as (? & _ & Hstep).
    apply bind_ok in Hstep. destruct Hstep as (? & _ & Hstep).
    apply bind_ok in Hstep. destruct Hstep as (? & _ & Hstep).
    apply bind_ok in Hstep. destruct Hstep as (? & _ & Hstep).
    apply bind_ok in Hstep. destruct Hstep as (? & _ & Hstep).
    injection Hstep as <- <-.
    apply IH in H. rewrite !length_app in H. cbn [length] in *. lia.
Qed.

(** What a successful [CubicSpline1D.init] fixes: the abscissas are
    stored as given, they do not decrease, and [b] has one entry per
    segment. *)
Lemma CubicSpline1D_init_shape
  (solve : lmatrix -> list R -> result (list R)) (xs ys : list R)
  (sp : CubicSpline1D.t) :
  CubicSpline1D.init solve xs ys = Ok sp ->
  CubicSpline1D.x sp = xs
  /\ CubicSpline1D.a sp = ys
  /\ Forall (fun hi => 0 <= hi) (diff xs)
  /\ length (CubicSpline1D.b sp) = (length xs - 1)%nat
  /\ length (CubicSpline1D.d sp) = (length xs - 1)%nat.
Proof.
  unfold CubicSpline1D.init. intros H.
  destruct (existsb (fun hi => Rltb hi 0) (diff xs)) eqn:Hneg; [discriminate|].
  apply bind_ok in H. destruct H as (A & _ & H).
  apply bind_ok in H. destruct H as (B & _ & H).
  apply bind_ok in H. destruct H as (c & _ & H).
  apply bind_ok in H. destruct H as ([d b] & Hloop & H).
  injection H as <-. cbn [CubicSpline1D.x CubicSpline1D.a CubicSpline1D.b
                          CubicSpline1D.d].
  apply coeff_loop_length in Hloop. rewrite length_seq in Hloop.
  cbn [length] in Hloop.
  repeat split; try lia. apply existsb_neg_false. exact Hneg.
Qed.

(** Evaluating a constructed spline at its last abscissa reads
    [b[nx - 1]], one past the end of [b]. *)
Lemma CubicSpline1D_last_knot
  (solve : lmatrix -> list R -> result (list R)) (xs ys : list R)
  (sp : CubicSpline1D.t) :
  CubicSpline1D.init solve xs ys = Ok sp ->
  CubicSpline1D.calc_position sp (last xs 0) = Err IndexError.
Proof.
  intros H.
  destruct (CubicSpline1D_init_shape solve xs ys sp H)
    as (Hx & Ha & Hsorted & Hb & _).
  unfold CubicSpline1D.calc_position, CubicSpline1D.search_index.
  rewrite Hx.
  destruct xs as [|x0 xs']; [reflexivity|].
  set (xs := x0 :: xs') in *.
  pose proof (diff_nonneg_le_last xs 0 Hsorted) as Hle.
  assert (Hn : (1 <= length xs)%nat) by (cbn; lia).
  change (index xs 0) with (Ok (A := R) x0). cbn [bind].
  replace (Rltb (last xs 0) x0) with false.
  2:{ symmetry. apply Rltb_false. inversion Hle; subst. assumption. }
  assert (Hlast : index_last xs = Ok (last xs 0)).
  { unfold index_last, xs. fold xs.
    rewrite (index_nth xs (length xs - 1) 0) by lia.
    rewrite nth_last_elt. reflexivity. }
  rewrite Hlast. cbn [bind].
  replace (Rltb (last xs 0) (last xs 0)) with false
    by (symmetry; apply Rltb_false; lra).
  rewrite (bisect_all_le xs (last xs 0) Hle).
  assert (Hi : (0 <= Z.of_nat (length xs) - 1)%Z) by lia.
  unfold index_z.
  destruct (Z.leb_spec 0 (Z.of_nat (length xs) - 1)); [|lia].
  replace (Z.to_nat (Z.of_nat (length xs) - 1)) with (length xs - 1)%nat
    by lia.
  rewrite (index_nth xs (length xs - 1) 0) by lia. cbn [bind].
  destruct (index (CubicSpline1D.a sp) (length xs - 1)) as [ai | e] eqn:Ea.
  - cbn [bind]. rewrite index_out by lia. reflexivity.
  - cbn [bind]. apply index_err in Ea. subst e. reflexivity.
Qed.

Lemma Forall_list_set {A : Type} (P : A -> Prop) (l : list A) (i : nat)
  (v : A) :
  Forall P l -> P v -> Forall P (list_set l i v).
Proof.
  intros Hl Hv. revert i.
  induction Hl as [|a l Ha Hl IH]; intros [|i]; cbn [list_set];
    constructor; auto.
Qed.

Lemma lzeros_shape (n m : nat) : is_shape n m (lzeros n m).
Proof.
  unfold is_shape, lzeros. split; [apply repeat_length|].
  apply Forall_forall. intros r Hr. apply repeat_spec in Hr. subst r.
  apply repeat_length.
Qed.

Lemma lmset_ok (n m : nat) (A : lmatrix) (i j : nat) (v : R) :
  is_shape n m A -> (i < n)%nat -> (j < m)%nat ->
  exists A', lmset A i j v = Ok A' /\ is_shape n m A'.
Proof.
  intros [Hn Hm] Hi Hj. unfold lmset.
  rewrite (index_nth A i []) by lia. cbn [bind].
  assert (Hrow : length (nth i A []) = m).
  { rewrite Forall_forall in Hm. apply Hm. apply nth_In. lia. }
  rewrite setitem_ok by lia. cbn [bind].
  rewrite setitem_ok by lia.
  eexists. split; [reflexivity|]. split.
  - rewrite list_set_length. exact Hn.
  - apply Forall_list_set; [exact Hm|]. rewrite list_set_length. exact Hrow.
Qed.

Lemma diff_length (l : list R) : length (diff l) = (length l - 1)%nat.
Proof.
  induction l as [|a [|b t] IH]; [reflexivity | reflexivity |].
  cbn [diff length] in *. lia.
Qed.

Section SplineSystem.

Variable nx : nat.
Variables h a : list R.
Hypothesis Hh : length h = (nx - 1)%nat.
Hypothesis Ha : length a = nx.

Lemma calc_A_step_ok (i : nat) (A : lmatrix) :
  is_shape nx nx A -> (i < nx - 1)%nat ->
  exists A', CubicSpline1D.calc_A_step nx h i A = Ok A' /\ is_shape nx nx A'.
Proof using All.
  intros HA Hi. unfold CubicSpline1D.calc_A_step.
  assert (Hmid : exists A1,
             (if negb (i =? nx - 2)%nat then
                hi <- index h i ;;
                hi1 <- index h (i + 1) ;;
                lmset A (i + 1) (i + 1) (2 * (hi + hi1))
              else Ok A) = Ok A1 /\ is_shape nx nx A1).
  { destruct (Nat.eqb_spec i (nx - 2)) as [E | E]; cbn [negb].
    - exists A. split; [reflexivity | exact HA].
    - rewrite (index_nth h i 0) by lia.
      rewrite (index_nth h (i + 1) 0) by lia. cbn [bind].
      apply lmset_ok; [exact HA | lia | lia]. }
  destruct Hmid as (A1 & -> & HA1). cbn [bind].
  rewrite (index_nth h i 0) by lia. cbn [bind].
  destruct (lmset_ok nx nx A1 (i + 1) i (nth i h 0) HA1) as (A2 & -> & HA2);
    [lia | lia |].
  cbn [bind]. apply lmset_ok; [exact HA2 | lia | lia].
Qed.

Lemma calc_A_loop_ok (steps : list nat) (A : lmatrix) :
  is_shape nx nx A -> Forall (fun i => (i < nx - 1)%nat) steps ->
  exists A',
    for_in steps (CubicSpline1D.calc_A_step nx h) A = Ok A'
    /\ is_shape nx nx A'.
Proof using All.
  revert A. induction steps as [|i steps IH]; intros A HA Hsteps.
  - exists A. split; [reflexivity | exact HA].
  - apply Forall_cons_iff in Hsteps. destruct Hsteps as [Hi Hrest].
    cbn [for_in].
    destruct (calc_A_step_ok i A HA Hi) as (A1 & -> & HA1). cbn [bind].
    apply IH; assumption.
Qed.

Lemma calc_A_ok :
  (2 <= nx)%nat -> exists A, CubicSpline1D.calc_A nx h = Ok A.
Proof using All.
  intros Hnx. unfold CubicSpline1D.calc_A.
  destruct (lmset_ok nx nx (lzeros nx nx) 0 0 1 (lzeros_shape nx nx))
    as (A0 & -> & HA0); [lia | lia |].
  cbn [bind].
  destruct (calc_A_loop_ok (seq 0 (nx - 1)) A0 HA0) as (A1 & -> & HA1).
  { apply Forall_forall. intros i Hi. apply in_seq in Hi. lia. }
  cbn [bind].
  destruct (lmset_ok nx nx A1 0 1 0 HA1) as (A2 & -> & HA2); [lia | lia |].
  cbn [bind].
  destruct (lmset_ok nx nx A2 (nx - 1) (nx - 2) 0 HA2) as (A3 & -> & HA3);
    [lia | lia |].
  cbn [bind].
  destruct (lmset_ok nx nx A3 (nx - 1) (nx - 1) 1 HA3) as (A4 & -> & HA4);
    [lia | lia |].
  exists A4. reflexivity.
Qed.

Lemma calc_B_loop_ok (steps : list nat) (B : list R) :
  length B = nx -> Forall (fun i => (i < nx - 2)%nat) steps ->
  exists B',
    for_in steps (CubicSpline1D.calc_B_step h a) B = Ok B'
    /\ length B' = nx.
Proof using All.
  revert B. induction steps as [|i steps IH]; intros B HB Hsteps.
  - exists B. split; [reflexivity | exact HB].
  - apply Forall_cons_iff in Hsteps. destruct Hsteps as [Hi Hrest].
    cbn [for_in].
    unfold CubicSpline1D.calc_B_step at 1.
    rewrite (index_nth a (i + 2) 0) by lia.
    rewrite (index_nth a (i + 1) 0) by lia.
    rewrite (index_nth h (i + 1) 0) by lia.
    rewrite (index_nth a i 0) by lia.
    rewrite (index_nth h i 0) by lia.
    cbn [bind]. rewrite setitem_ok by lia. cbn [bind].
    apply IH; [rewrite list_set_length; exact HB | exact Hrest].
Qed.

Lemma calc_B_ok :
  exists B, CubicSpline1D.calc_B nx h a = Ok B /\ length B = nx.
Proof using All.
  unfold CubicSpline1D.calc_B. apply calc_B_loop_ok.
  - apply repeat_length.
  - apply Forall_forall. intros i Hi. apply in_seq in Hi. lia.
Qed.

Lemma coeff_loop_ok (c : list R) (steps : list nat) (st : list R * list R) :
  length c = nx -> Forall (fun i => (i < nx - 1)%nat) steps ->
  exists st', for_in steps (CubicSpline1D.coeff_step h a c) st = Ok st'.
Proof using All.
  intros Hc. revert st.
  induction steps as [|i steps IH]; intros [d b] Hsteps.
  - eexists; reflexivity.
  - apply Forall_cons_iff in Hsteps. destruct Hsteps as [Hi Hrest].
    cbn [for_in].
    unfold CubicSpline1D.coeff_step at 1.
    rewrite (index_nth c (i + 1) 0) by lia.
    rewrite (index_nth c i 0) by lia.
    rewrite (index_nth h i 0) by lia.
    rewrite (index_nth a (i + 1) 0) by lia.
    rewrite (index_nth a i 0) by lia.
    cbn [bind]. apply IH. exact Hrest.
Qed.

End SplineSystem.

(** [CubicSpline1D.init] goes through on any non-decreasing abscissas
    with as many ordinates, two points or more, as soon as the linear
    solve answers. *)
Lemma CubicSpline1D_init_ok
  (solve : lmatrix -> list R -> result (list R)) (xs ys : list R) :
  (2 <= length xs)%nat -> length ys = length xs ->
  Forall (fun hi => 0 <= hi) (diff xs) ->
  solver_answers solve xs ys ->
  exists sp, CubicSpline1D.init solve xs ys = Ok sp.
Proof.
  intros Hn Hys Hsorted Hsolve. unfold CubicSpline1D.init.
  replace (existsb (fun hi => Rltb hi 0) (diff xs)) with false.
  2:{ symmetry. apply not_true_is_false. intros E.
      apply existsb_exists in E. destruct E as (hi & Hin & Hlt).
      apply Rltb_true in Hlt. rewrite Forall_forall in Hsorted.
      specialize (Hsorted hi Hin). lra. }
  pose proof (diff_length xs) as Hh.
  destruct (calc_A_ok (length xs) (diff xs) ys Hh Hys Hn) as (A & HA).
  destruct (calc_B_ok (length xs) (diff xs) ys Hh Hys) as (B & HB & _).
  destruct (Hsolve A B HA HB) as (c & Hc & Hlen).
  rewrite HA. cbn [bind]. rewrite HB. cbn [bind]. rewrite Hc. cbn [bind].
  destruct (coeff_loop_ok (length xs) (diff xs) ys Hh Hys c
              (seq 0 (length xs - 1)) ([], []) Hlen) as ([d b] & Hloop).
  { apply Forall_forall. intros i Hi. apply in_seq in Hi. lia. }
  rewrite Hloop. cbn [bind]. eexists; reflexivity.
Qed.

Lemma echo_solver_answers (xs ys : list R) :
  length ys = length xs -> solver_answers echo_solver xs ys.
Proof.
  intros Hys A B HA HB. exists B. split; [reflexivity|].
  destruct (calc_B_ok (length xs) (diff xs) ys (diff_length xs) Hys)
    as (B' & HB' & Hlen).
  congruence.
Qed.

Lemma cumsum_from_length (acc : R) (l : list R) :
  length (cumsum_from acc l) = length l.
Proof.
  revert acc; induction l as [|a l IH]; intros acc; cbn; auto.
Qed.

Lemma cumsum_from_climbs (acc : R) (l : list R) :
  Forall (fun e => 0 <= e) l ->
  Forall (fun hi => 0 <= hi) (diff (acc :: cumsum_from acc l)).
Proof.
  intros H. revert acc. induction H as [|a l Ha Hl IH]; intros acc.
  - constructor.
  - cbn [cumsum_from diff]. constructor; [lra|]. apply IH.
Qed.

Lemma map2_Forall {A B C : Type} (f : A -> B -> C) (P : C -> Prop)
  (l : list A) (m : list B) :
  (forall a b, P (f a b)) -> Forall P (map2 f l m).
Proof.
  intros H. revert m; induction l as [|a l IH]; intros [|b m]; cbn;
    constructor; auto.
Qed.

Lemma map2_nth {A B C : Type} (f : A -> B -> C) (l : list A) (m : list B)
  (i : nat) (da : A) (db : B) (dc : C) :
  (i < length l)%nat -> (i < length m)%nat ->
  nth i (map2 f l m) dc = f (nth i l da) (nth i m db).
Proof.
  revert m i; induction l as [|a l IH]; intros [|b m] [|i] Hl Hm;
    cbn in *; try lia; auto.
  apply IH; lia.
Qed.

Lemma diff_nth (l : list R) (i : nat) :
  (S i < length l)%nat -> nth i (diff l) 0 = nth (S i) l 0 - nth i l 0.
Proof.
  revert i; induction l as [|a [|b t] IH]; intros i Hi; cbn [length] in Hi;
    try lia.
  destruct i as [|i]; [reflexivity|].
  change (diff (a :: b :: t)) with ((b - a) :: diff (b :: t)).
  change (nth (S i) ((b - a) :: diff (b :: t)) 0)
    with (nth i (diff (b :: t)) 0).
  rewrite IH by (cbn [length]; lia). reflexivity.
Qed.

Lemma calc_s_ok (x y : list R) :
  length y = length x ->
  CubicSpline2D.calc_s x y
  = Ok (0 :: cumsum (map2 hypot (diff x) (diff y)),
        map2 hypot (diff x) (diff y)).
Proof.
  intros H. unfold CubicSpline2D.calc_s, np_binop.
  rewrite !diff_length, H, Nat.eqb_refl. reflexivity.
Qed.

(** [CubicSpline2D.init] goes through on any two coordinate lists of one
    length, two points or more, as soon as the two linear solves answer:
    the chord lengths are never negative, so the ordering test of
    [CubicSpline1D.init] cannot fire. *)
Lemma CubicSpline2D_init_ok
  (solve : lmatrix -> list R -> result (list R)) (x y : list R) :
  (2 <= length x)%nat -> length y = length x ->
  (forall s ds, CubicSpline2D.calc_s x y = Ok (s, ds) ->
     solver_answers solve s x /\ solver_answers solve s y) ->
  exists sp,
    CubicSpline2D.init solve x y = Ok sp
    /\ CubicSpline2D.ds sp = map2 hypot (diff x) (diff y).
Proof.
  intros Hn Hy Hsolve. unfold CubicSpline2D.init.
  pose proof (calc_s_ok x y Hy) as Hs.
  destruct (Hsolve _ _ Hs) as [Hsx Hsy].
  rewrite Hs. cbn [bind].
  set (ds := map2 hypot (diff x) (diff y)) in *.
  set (s := 0 :: cumsum ds) in *.
  assert (Hlen : length s = length x).
  { unfold s, cumsum. cbn [length]. rewrite cumsum_from_length.
    unfold ds. rewrite map2_length, !diff_length, Hy. lia. }
  assert (Hclimb : Forall (fun hi => 0 <= hi) (diff s)).
  { apply cumsum_from_climbs. apply map2_Forall. apply hypot_nonneg. }
  destruct (CubicSpline1D_init_ok solve s x) as (sx & Hx);
    [lia | lia | exact Hclimb | exact Hsx |].
  destruct (CubicSpline1D_init_ok solve s y) as (sy & Hy');
    [lia | lia | exact Hclimb | exact Hsy |].
  rewrite Hx. cbn [bind]. rewrite Hy'. cbn [bind].
  eexists. split; reflexivity.
Qed.

Lemma echo_solver_answers_2d (x y : list R) :
  (1 <= length x)%nat -> length y = length x ->
  forall s ds, CubicSpline2D.calc_s x y = Ok (s, ds) ->
    solver_answers echo_solver s x /\ solver_answers echo_solver s y.
Proof.
  intros Hn Hy s ds Hs. rewrite (calc_s_ok x y Hy) in Hs.
  injection Hs as <- <-.
  assert (Hlen : length (0 :: cumsum (map2 hypot (diff x) (diff y)))
                 = length x).
  { unfold cumsum. cbn [length]. rewrite cumsum_from_length.
    rewrite map2_length, !diff_length, Hy. lia. }
  split; apply echo_solver_answers; lia.
Qed.

(** *** Interior knots *)

Lemma diff_pos_increasing (l : list R) :
  Forall (fun hi => 0 < hi) (diff l) ->
  forall j k, (j < k < length l)%nat -> nth j l 0 < nth k l 0.
Proof.
  induction l as [|a [|b t] IH]; intros H j k Hjk; cbn [length] in Hjk;
    try lia.
  change (diff (a :: b :: t)) with ((b - a) :: diff (b :: t)) in H.
  apply Forall_cons_iff in H. destruct H as [Hab Hrest].
  specialize (IH Hrest).
  destruct k as [|k]; [lia|].
  destruct j as [|j].
  - change (nth 0 (a :: b :: t) 0) with a.
    change (nth (S k) (a :: b :: t) 0) with (nth k (b :: t) 0).
    destruct k as [|k].
    + change (nth 0 (b :: t) 0) with b. lra.
    + assert (Hb : nth 0 (b :: t) 0 < nth (S k) (b :: t) 0)
        by (apply IH; cbn [length]; lia).
      change (nth 0 (b :: t) 0) with b in Hb. lra.
  - change (nth (S j) (a :: b :: t) 0) with (nth j (b :: t) 0).
    change (nth (S k) (a :: b :: t) 0) with (nth k (b :: t) 0).
    apply IH. cbn [length]. lia.
Qed.

(** On strictly increasing abscissas, bisecting for the abscissa of
    knot [i] lands right after it, whatever the fuel left as long as it
    covers the interval searched. *)
Lemma bisect_loop_knot (fuel : nat) (a : list R) (i lo hi : nat) :
  (forall j k, (j < k < length a)%nat -> nth j a 0 < nth k a 0) ->
  (i < length a)%nat -> (lo <= i + 1 <= hi)%nat -> (hi <= length a)%nat ->
  (hi - lo <= fuel)%nat ->
  bisect_loop fuel a (nth i a 0) lo hi = (i + 1)%nat.
Proof.
  intros Hinc Hi. revert lo hi.
  induction fuel as [|fuel IH]; intros lo hi Hlo Hhi Hfuel; cbn [bisect_loop].
  - lia.
  - destruct (Nat.ltb_spec lo hi) as [Hlt | Hge]; [|lia].
    assert (Hmid : ((lo + hi) / 2 < hi)%nat)
      by (apply Nat.Div0.div_lt_upper_bound; lia).
    assert (Hmid' : (lo <= (lo + hi) / 2)%nat)
      by (apply Nat.div_le_lower_bound; lia).
    set (mid := ((lo + hi) / 2)%nat) in *.
    destruct (Nat.lt_ge_cases i mid) as [Him | Hmi].
    + replace (Rltb (nth i a 0) (nth mid a 0)) with true
        by (symmetry; apply Rltb_true; apply Hinc; lia).
      apply IH; lia.
    + replace (Rltb (nth i a 0) (nth mid a 0)) with false.
      * apply IH; lia.
      * symmetry. apply Rltb_false.
        destruct (Nat.eq_dec mid i) as [-> | Hne]; [lra|].
        left. apply Hinc. lia.
Qed.

Lemma bisect_knot (a : list R) (i : nat) :
  Forall (fun hi => 0 < hi) (diff a) -> (i < length a)%nat ->
  bisect a (nth i a 0) = (i + 1)%nat.
Proof.
  intros H Hi. unfold bisect.
  apply bisect_loop_knot; try lia. apply diff_pos_increasing. exact H.
Qed.

Lemma coeff_loop_reads (h a c : list R) (steps : list nat)
  (st st' : list R * list R) :
  for_in steps (CubicSpline1D.coeff_step h a c) st = Ok st' ->
  Forall (fun i => (i + 1 < length c)%nat /\ (i + 1 < length a)%nat) steps.
Proof.
  revert st. induction steps as [|i steps IH]; intros [d b] H;
    [constructor|].
  cbn [for_in] in H. apply bind_ok in H. destruct H as (st1 & Hstep & H).
  constructor; [|eapply IH; exact H].
  unfold CubicSpline1D.coeff_step in Hstep.
  apply bind_ok in Hstep. destruct Hstep as (? & Hc & Hstep).
  apply bind_ok in Hstep. destruct Hstep as (? & _ & Hstep).
  apply bind_ok in Hstep. destruct Hstep as (? & _ & Hstep).
  apply bind_ok in Hstep. destruct Hstep as (? & Ha & Hstep).
  apply index_ok_lt in Hc. apply index_ok_lt in Ha. lia.
Qed.

(** At every knot but the last, a spline built on strictly increasing
    abscissas returns the ordinate it was given. *)
Lemma CubicSpline1D_interior_knot
  (solve : lmatrix -> list R -> result (list R)) (xs ys : list R)
  (sp : CubicSpline1D.t) (i : nat) :
  CubicSpline1D.init solve xs ys = Ok sp ->
  Forall (fun hi => 0 < hi) (diff xs) ->
  (i + 1 < length xs)%nat ->
  CubicSpline1D.calc_position sp (nth i xs 0) = Ok (Some (nth i ys 0)).
Proof.
  intros Hinit Hstrict Hi.
  destruct (CubicSpline1D_init_shape solve xs ys sp Hinit)
    as (Hx & Ha & Hsorted & Hb & Hd).
  assert (Hreads : (i + 1 < length (CubicSpline1D.c sp))%nat
                   /\ (i + 1 < length ys)%nat).
  { unfold CubicSpline1D.init in Hinit.
    destruct (existsb (fun hi => Rltb hi 0) (diff xs)); [discriminate|].
    apply bind_ok in Hinit. destruct Hinit as (A & _ & Hinit).
    apply bind_ok in Hinit. destruct Hinit as (B & _ & Hinit).
    apply bind_ok in Hinit. destruct Hinit as (c & _ & Hinit).
    apply bind_ok in Hinit. destruct Hinit as ([d b] & Hloop & Hinit).
    injection Hinit as <-. cbn [CubicSpline1D.c].
    apply coeff_loop_reads in Hloop. rewrite Forall_forall in Hloop.
    apply (Hloop i). apply in_seq. lia. }
  destruct Hreads as [Hc Hys].
  pose proof (diff_pos_increasing xs Hstrict) as Hinc.
  pose proof (diff_nonneg_le_last xs 0 Hsorted) as Hle.
  unfold CubicSpline1D.calc_position, CubicSpline1D.search_index.
  rewrite Hx, Ha.
  rewrite (index_nth xs 0 0) by lia. cbn [bind].
  replace (Rltb (nth i xs 0) (nth 0 xs 0)) with false.
  2:{ symmetry. apply Rltb_false. destruct i as [|i]; [lra|].
      left. apply Hinc. lia. }
  assert (Hlast : index_last xs = Ok (last xs 0)).
  { unfold index_last. destruct xs as [|x0 xs']; [cbn in Hi; lia|].
    rewrite (index_nth (x0 :: xs') (length (x0 :: xs') - 1) 0)
      by (cbn [length]; lia).
    rewrite nth_last_elt. reflexivity. }
  rewrite Hlast. cbn [bind].
  replace (Rltb (last xs 0) (nth i xs 0)) with false.
  2:{ symmetry. apply Rltb_false. rewrite Forall_forall in Hle.
      apply Hle. apply nth_In. lia. }
  rewrite (bisect_knot xs i Hstrict) by lia.
  replace (Z.of_nat (i + 1) - 1)%Z with (Z.of_nat i) by lia.
  rewrite (index_z_ok xs (Z.of_nat i) 0) by lia.
  rewrite (index_z_ok ys (Z.of_nat i) 0) by lia.
  rewrite (index_z_ok (CubicSpline1D.b sp) (Z.of_nat i) 0) by lia.
  rewrite (index_z_ok (CubicSpline1D.c sp) (Z.of_nat i) 0) by lia.
  rewrite (index_z_ok (CubicSpline1D.d sp) (Z.of_nat i) 0) by lia.
  cbn [bind]. rewrite Nat2Z.id. do 2 f_equal. ring.
Qed.

(** The planar spline, built on waypoints with no zero-length segment,
    passes through every waypoint but the last. *)
Lemma CubicSpline2D_interior_waypoint
  (solve : lmatrix -> list R -> result (list R)) (x y : list R)
  (sp : CubicSpline2D.t) (i : nat) :
  CubicSpline2D.init solve x y = Ok sp ->
  Forall (fun hi => 0 < hi) (diff (CubicSpline2D.s sp)) ->
  (i + 1 < length (CubicSpline2D.s sp))%nat ->
  CubicSpline2D.calc_position sp (nth i (CubicSpline2D.s sp) 0)
  = Ok (Some (nth i x 0), Some (nth i y 0)).
Proof.
  unfold CubicSpline2D.init. intros H.
  apply bind_ok in H. destruct H as ([s ds] & _ & H).
  apply bind_ok in H. destruct H as (sx & Hsx & H).
  apply bind_ok in H. destruct H as (sy & Hsy & H).
  injection H as <-. cbn [CubicSpline2D.s]. intros Hstrict Hi.
  unfold CubicSpline2D.calc_position.
  cbn [CubicSpline2D.sx CubicSpline2D.sy].
  rewrite (CubicSpline1D_interior_knot solve s x sx i Hsx Hstrict Hi).
  rewrite (CubicSpline1D_interior_knot solve s y sy i Hsy Hstrict Hi).
  reflexivity.
Qed.

(** *** The last waypoint, and repeated waypoints *)

(** C5, on the code.  On every spline that [CubicSpline2D.init] builds,
    evaluating the position at the arc length of the last waypoint
    raises [IndexError] instead of returning that waypoint. *)
Theorem CubicSpline2D_last_waypoint_raises
  (solve : lmatrix -> list R -> result (list R)) (x y : list R)
  (sp : CubicSpline2D.t) :
  CubicSpline2D.init solve x y = Ok sp ->
  CubicSpline2D.calc_position sp (last (CubicSpline2D.s sp) 0)
  = Err IndexError.
Proof.
  unfold CubicSpline2D.init. intros H.
  apply bind_ok in H. destruct H as ([s ds] & _ & H).
  apply bind_ok in H. destruct H as (sx & Hsx & H).
  apply bind_ok in H. destruct H as (sy & _ & H).
  injection H as <-.
  unfold CubicSpline2D.calc_position.
  cbn [CubicSpline2D.s CubicSpline2D.sx].
  rewrite (CubicSpline1D_last_knot solve s x sx Hsx). reflexivity.
Qed.

(** C5, at a point: three waypoints along an L-shaped course. *)
Lemma CubicSpline2D_last_waypoint_raises_example :
  exists sp,
    CubicSpline2D.init echo_solver [0; 1; 1] [0; 0; 1] = Ok sp
    /\ CubicSpline2D.calc_position sp (last (CubicSpline2D.s sp) 0)
       = Err IndexError.
Proof.
  destruct (CubicSpline2D_init_ok echo_solver [0; 1; 1] [0; 0; 1])
    as (sp & Hsp & _).
  - simpl; lia.
  - reflexivity.
  - apply echo_solver_answers_2d; [simpl; lia | reflexivity].
  - exists sp. split; [exact Hsp |].
    exact (CubicSpline2D_last_waypoint_raises echo_solver [0; 1; 1] [0; 0; 1]
             sp Hsp).
Defined.

Lemma hypot_0_0 : hypot 0 0 = 0.
Proof.
  unfold hypot. replace (0 * 0 + 0 * 0) with 0 by ring. apply sqrt_0.
Qed.

(** C6, on the code.  A waypoint list in which point [i + 1] repeats
    point [i] is accepted: provided the two linear solves answer,
    [CubicSpline2D.init] returns a spline, and that spline carries the
    zero-length segment [ds[i] = 0]. *)
Theorem CubicSpline2D_accepts_duplicate_points
  (solve : lmatrix -> list R -> result (list R)) (x y : list R) (i : nat) :
  length y = length x -> (S i < length x)%nat ->
  nth (S i) x 0 = nth i x 0 -> nth (S i) y 0 = nth i y 0 ->
  (forall s ds, CubicSpline2D.calc_s x y = Ok (s, ds) ->
     solver_answers solve s x /\ solver_answers solve s y) ->
  exists sp,
    CubicSpline2D.init solve x y = Ok sp
    /\ nth i (CubicSpline2D.ds sp) 1 = 0.
Proof.
  intros Hy Hi Hdx Hdy Hsolve.
  destruct (CubicSpline2D_init_ok solve x y) as (sp & Hsp & Hds);
    [lia | exact Hy | exact Hsolve |].
  exists sp. split; [exact Hsp|].
  rewrite Hds.
  rewrite (map2_nth hypot (diff x) (diff y) i 0 0 1)
    by (rewrite diff_length; lia).
  rewrite !diff_nth by lia. rewrite Hdx, Hdy.
  replace (nth i x 0 - nth i x 0) with 0 by ring.
  replace (nth i y 0 - nth i y 0) with 0 by ring.
  apply hypot_0_0.
Qed.

(** C6, at a point: four waypoints on the x axis, the third repeating
    the second. *)
Lemma CubicSpline2D_accepts_duplicate_points_example :
  length [0; 0; 0; 0] = length [0; 1; 1; 2]
  /\ (2 < length [0; 1; 1; 2])%nat
  /\ nth 2 [0; 1; 1; 2] 0 = nth 1 [0; 1; 1; 2] 0
  /\ nth 2 [0; 0; 0; 0] 0 = nth 1 [0; 0; 0; 0] 0
  /\ exists sp,
       CubicSpline2D.init echo_solver [0; 1; 1; 2] [0; 0; 0; 0] = Ok sp
       /\ nth 1 (CubicSpline2D.ds sp) 1 = 0.
Proof.
  split; [reflexivity | split; [simpl; lia |]].
  split; [reflexivity | split; [reflexivity |]].
  apply (CubicSpline2D_accepts_duplicate_points echo_solver [0; 1; 1; 2]
           [0; 0; 0; 0] 1);
    [reflexivity | simpl; lia | reflexivity | reflexivity |].
  apply echo_solver_answers_2d; [simpl; lia | reflexivity].
Defined.

(** ** Vehicle state *)

Lemma speed_limits_ordered : MIN_SPEED < MAX_SPEED.
Proof. unfold MIN_SPEED, MAX_SPEED. lra. Qed.

Lemma clamp_speed_within (s : State.t) :
  MIN_SPEED
  <= State.v (if Rltb MAX_SPEED (State.v s) then State.set_v s MAX_SPEED
              else if Rltb (State.v s) MIN_SPEED then State.set_v s MIN_SPEED
              else s)
  <= MAX_SPEED.
Proof.
  pose proof speed_limits_ordered as Hord.
  destruct (Rltb MAX_SPEED (State.v s)) eqn:E1.
  - cbn [State.v State.set_v]. lra.
  - apply Rltb_false in E1.
    destruct (Rltb (State.v s) MIN_SPEED) eqn:E2.
    + cbn [State.v State.set_v]. lra.
    + apply Rltb_false in E2. lra.
Qed.

(** X5. Whatever the state and the inputs, the speed [update_state]
    leaves is within [[MIN_SPEED, MAX_SPEED]], and the position moves
    by the old speed along the old heading, untouched by the inputs. *)
Theorem update_state_speed_and_position (s : State.t) (a delta : R) :
  MIN_SPEED <= State.v (update_state s a delta) <= MAX_SPEED
  /\ State.x (update_state s a delta)
     = State.x s + State.v s * cos (State.yaw s) * DT
  /\ State.y (update_state s a delta)
     = State.y s + State.v s * sin (State.yaw s) * DT.
Proof.
  unfold update_state.
  match goal with
  | |- context [if Rltb MAX_SPEED (State.v ?st) then _ else _] =>
      set (s1 := st)
  end.
  split; [apply clamp_speed_within|].
  destruct (Rltb MAX_SPEED (State.v s1));
    [| destruct (Rltb (State.v s1) MIN_SPEED)];
    split; reflexivity.
Qed.

(** X6. Steering beyond the limit acts as steering at the limit:
    [update_state] gives the same state for any [delta >= MAX_STEER] as
    for [MAX_STEER], and for any [delta <= - MAX_STEER] as for
    [- MAX_STEER]. *)
Theorem update_state_steer_saturates (s : State.t) (a delta : R) :
  (MAX_STEER <= delta -> update_state s a delta = update_state s a MAX_STEER)
  /\ (delta <= - MAX_STEER ->
      update_state s a delta = update_state s a (- MAX_STEER)).
Proof.
  pose proof MAX_STEER_pos as Hpos.
  split; intros H; unfold update_state.
  - rewrite (Rleb_is_true MAX_STEER delta H).
    rewrite (Rleb_is_true MAX_STEER MAX_STEER) by lra. reflexivity.
  - replace (Rleb MAX_STEER delta) with false
      by (symmetry; apply Rleb_false; lra).
    rewrite (Rleb_is_true delta (- MAX_STEER) H).
    replace (Rleb MAX_STEER (- MAX_STEER)) with false
      by (symmetry; apply Rleb_false; lra).
    rewrite (Rleb_is_true (- MAX_STEER) (- MAX_STEER)) by lra.
    reflexivity.
Qed.

(** X7. [update_state_carla] stores the position as given, stores the
    heading clamped to [[- MAX_STEER, MAX_STEER]] -- the steering limit
    -- and the speed clamped to [[MIN_SPEED, MAX_SPEED]]; a heading or a
    speed inside its interval is stored as given. *)
Theorem update_state_carla_clamps (s : State.t)
  (easting northing yaw speed : R) :
  let s' := update_state_carla s easting northing yaw speed in
  State.x s' = easting /\ State.y s' = northing
  /\ - MAX_STEER <= State.yaw s' <= MAX_STEER
  /\ MIN_SPEED <= State.v s' <= MAX_SPEED
  /\ (- MAX_STEER <= yaw <= MAX_STEER -> State.yaw s' = yaw)
  /\ (MIN_SPEED <= speed <= MAX_SPEED -> State.v s' = speed).
Proof.
  pose proof MAX_STEER_pos as Hpos.
  cbv zeta. unfold update_state_carla.
  set (yaw' := if Rleb MAX_STEER yaw then MAX_STEER
               else if Rleb yaw (- MAX_STEER) then - MAX_STEER else yaw).
  assert (Hyaw : - MAX_STEER <= yaw' <= MAX_STEER
                 /\ (- MAX_STEER <= yaw <= MAX_STEER -> yaw' = yaw)).
  { unfold yaw'. destruct (Rleb MAX_STEER yaw) eqn:E1.
    - apply Rleb_true in E1. split; [lra | intros; lra].
    - apply Rleb_false in E1. destruct (Rleb yaw (- MAX_STEER)) eqn:E2.
      + apply Rleb_true in E2. split; [lra | intros; lra].
      + apply Rleb_false in E2. split; [lra | reflexivity]. }
  cbn [State.x State.y State.yaw State.v State.predelta
       State.set_x State.set_y State.set_yaw State.set_v].
  destruct (Rltb MAX_SPEED speed) eqn:E1;
    [| destruct (Rltb speed MIN_SPEED) eqn:E2];
    cbn [State.x State.y State.yaw State.v State.predelta
         State.set_x State.set_y State.set_yaw State.set_v];
    try apply Rltb_true in E1; try apply Rltb_false in E1;
    try apply Rltb_true in E2; try apply Rltb_false in E2;
    pose proof speed_limits_ordered;
    (split; [reflexivity | split; [reflexivity |]]);
    (split; [apply Hyaw |]);
    (split; [lra |]);
    (split; [apply Hyaw | intros; lra]).
Qed.

(** X8. [angle_norm] is the ratio of the angle to [MAX_STEER] and
    [accelerate_norm] the ratio of the acceleration to [MAX_ACCEL]; a
    command within its limit is sent into [[-1, 1]]. *)
Theorem command_norms (d a : R) :
  angle_norm d = d / MAX_STEER
  /\ accelerate_norm a = a / MAX_ACCEL
  /\ (Rabs d <= MAX_STEER -> -1 <= angle_norm d <= 1)
  /\ (Rabs a <= MAX_ACCEL -> -1 <= accelerate_norm a <= 1).
Proof.
  pose proof MAX_STEER_pos as Hpos.
  assert (Hacc : 0 < MAX_ACCEL) by (unfold MAX_ACCEL; lra).
  assert (Hratio : forall x m, 0 < m ->
            (if Rleb 0 x then Rabs x / m else - (Rabs x / m)) = x / m).
  { intros x m Hm. destruct (Rleb 0 x) eqn:E.
    - apply Rleb_true in E. rewrite Rabs_pos_eq by exact E. reflexivity.
    - apply Rleb_false in E. rewrite Rabs_left by exact E. field. lra. }
  assert (Hunit : forall x m, 0 < m -> Rabs x <= m -> -1 <= x / m <= 1).
  { intros x m Hm Hx.
    assert (Hx' : - m <= x <= m).
    { pose proof (Rle_abs x). pose proof (Rle_abs (- x)).
      rewrite Rabs_Ropp in *. lra. }
    assert (Hinv : 0 < / m) by (apply Rinv_0_lt_compat; exact Hm).
    assert (H1 : m * / m = 1) by (field; lra).
    unfold Rdiv. nra. }
  unfold angle_norm, accelerate_norm. cbv zeta.
  rewrite !Hratio by assumption.
  repeat split; try (apply Hunit; assumption).
Qed.

(** ** Horizon prediction *)

Lemma mset_column (M : matrix) (t : nat) (c0 c1 c2 c3 : R) :
  let M' := mset (mset (mset (mset M 0 t c0) 1 t c1) 2 t c2) 3 t c3 in
  col NX M' t = [c0; c1; c2; c3]
  /\ forall i t', t' <> t -> M' i t' = M i t'.
Proof.
  cbv zeta. split.
  - unfold col, NX, mset. cbn [seq map Nat.eqb andb].
    rewrite Nat.eqb_refl. reflexivity.
  - intros i t' Hne. unfold mset.
    apply Nat.eqb_neq in Hne. rewrite Hne, !andb_false_r. reflexivity.
Qed.

Lemma predict_loop_cols (m k : nat) (oa od : list R) (s : State.t)
  (xb : matrix) :
  exists s' xb',
    for_in (combine (combine oa od) (seq k m)) predict_step (s, xb)
    = Ok (s', xb')
    /\ (forall i t, (t < k)%nat -> xb' i t = xb i t)
    /\ (forall j, (j < m)%nat -> (j < length oa)%nat -> (j < length od)%nat ->
          col NX xb' (k + j) = state_vector (rollout s oa od (S j)))
    /\ (forall i t,
          (k + Nat.min m (Nat.min (length oa) (length od)) <= t)%nat ->
          xb' i t = xb i t).
Proof.
  revert k oa od s xb. induction m as [|m IH]; intros k oa od s xb.
  - cbn [seq]. rewrite combine_nil. exists s, xb.
    split; [reflexivity|]. repeat split; auto. intros j Hj. lia.
  - cbn [seq]. destruct oa as [|a oa]; [|destruct od as [|d od]].
    + exists s, xb. split; [reflexivity|]. repeat split; auto.
      intros j _ Hj. cbn in Hj. lia.
    + exists s, xb. split; [reflexivity|]. repeat split; auto.
      intros j _ _ Hj. cbn in Hj. lia.
    + cbn [combine for_in predict_step bind].
      set (s1 := update_state s a d).
      set (xb1 := mset (mset (mset (mset xb 0 k (State.x s1)) 1 k
                                   (State.y s1)) 2 k (State.v s1)) 3 k
                       (State.yaw s1)).
      destruct (mset_column xb k (State.x s1) (State.y s1) (State.v s1)
                  (State.yaw s1)) as [Hcol Hother].
      fold xb1 in Hcol, Hother.
      destruct (IH (S k) oa od s1 xb1) as (s' & xb' & Hrun & Hlow & Hcols & Hhigh).
      exists s', xb'. split; [exact Hrun|]. split; [| split].
      * intros i t Ht. rewrite Hlow by lia. apply Hother. lia.
      * intros j Hj Ha Hd. cbn [length] in Ha, Hd.
        destruct j as [|j].
        -- rewrite Nat.add_0_r.
           assert (Hk : col NX xb' k = col NX xb1 k).
           { unfold col. apply map_ext. intros i. apply Hlow. lia. }
           rewrite Hk, Hcol. reflexivity.
        -- replace (k + S j)%nat with (S k + j)%nat by lia.
           rewrite Hcols by lia. reflexivity.
      * intros i t Ht. cbn [length] in Ht.
        rewrite Hhigh by lia. apply Hother. lia.
Qed.

Lemma rollout_speed_within (s : State.t) (oa od : list R) (t : nat) :
  MIN_SPEED <= State.v s <= MAX_SPEED ->
  MIN_SPEED <= State.v (rollout s oa od t) <= MAX_SPEED.
Proof.
  revert s oa od. induction t as [|t IH]; intros s oa od H; [exact H|].
  destruct oa as [|a oa]; [exact H|]. destruct od as [|d od]; [exact H|].
  cbn [rollout]. apply IH. unfold update_state. apply clamp_speed_within.
Qed.

Lemma predict_motion_columns (px py v yaw : R) (oa od : list R)
  (xref : matrix) :
  exists xbar,
    predict_motion [px; py; v; yaw] oa od xref = Ok xbar
    /\ col NX xbar 0 = [px; py; v; yaw]
    /\ (forall t, (1 <= t <= T)%nat ->
          (t <= length oa)%nat -> (t <= length od)%nat ->
          col NX xbar t
          = state_vector (rollout (State.new px py yaw v) oa od t))
    /\ (forall t, (1 <= t)%nat -> MIN_SPEED <= xbar 2%nat t <= MAX_SPEED).
Proof.
  unfold predict_motion.
  cbn [length seq for_in copy_x0 Nat.ltb Nat.leb NX index nth_error bind].
  set (xb0 := mset (mset (mset (mset (fun i j => xref i j * 0) 0 0 px) 1 0 py)
                         2 0 v) 3 0 yaw).
  destruct (mset_column (fun i j => xref i j * 0) 0 px py v yaw)
    as [Hcol0 Hother0]. fold xb0 in Hcol0, Hother0.
  destruct (predict_loop_cols T 1 oa od (State.new px py yaw v) xb0)
    as (s' & xbar & Hrun & Hlow & Hcols & Hhigh).
  rewrite Hrun. cbn [bind]. exists xbar. split; [reflexivity|].
  split; [| split].
  - rewrite <- Hcol0. unfold col. apply map_ext. intros i. apply Hlow. lia.
  - intros t Ht Ha Hd.
    replace t with (1 + (t - 1))%nat at 1 by lia.
    rewrite Hcols by lia. replace (S (t - 1)) with t by lia. reflexivity.
  - intros t Ht.
    set (n := Nat.min T (Nat.min (length oa) (length od))).
    destruct (Nat.lt_ge_cases (t - 1) n) as [Hin | Hout].
    + assert (Hc : col NX xbar (1 + (t - 1))
                   = state_vector (rollout (State.new px py yaw v) oa od
                                           (S (t - 1))))
        by (apply Hcols; unfold n in Hin; lia).
      replace (1 + (t - 1))%nat with t in Hc by lia.
      unfold col, NX, state_vector in Hc. cbn [seq map] in Hc.
      injection Hc as _ _ Hv _. rewrite Hv.
      destruct oa as [|a oa]; [unfold n in Hin; cbn [length] in Hin; lia|].
      destruct od as [|d od]; [unfold n in Hin; cbn [length] in Hin; lia|].
      cbn [rollout]. apply rollout_speed_within.
      unfold update_state. apply clamp_speed_within.
    + rewrite Hhigh by (fold n; lia). rewrite Hother0 by lia.
      unfold MIN_SPEED, MAX_SPEED. lra.
Qed.

(** X9. [predict_motion] started from [x0 = [x, y, v, yaw]] returns a
    trajectory whose column 0 is [x0] and whose column [t], for every
    step [t] of the horizon covered by both input lists, is the state
    reached by [t] successive [update_state] calls. *)
Theorem predict_motion_is_rollout (px py v yaw : R) (oa od : list R)
  (xref : matrix) :
  exists xbar,
    predict_motion [px; py; v; yaw] oa od xref = Ok xbar
    /\ col NX xbar 0 = [px; py; v; yaw]
    /\ forall t, (1 <= t <= T)%nat ->
         (t <= length oa)%nat -> (t <= length od)%nat ->
         col NX xbar t
         = state_vector (rollout (State.new px py yaw v) oa od t).
Proof.
  destruct (predict_motion_columns px py v yaw oa od xref)
    as (xbar & Hrun & H0 & Hcols & _).
  exists xbar. auto.
Qed.

(** X10. Every speed [predict_motion] predicts past the initial column
    is within [[MIN_SPEED, MAX_SPEED]], whatever the initial speed and
    the inputs: the linearisation points handed to the optimiser never
    leave the speed range. *)
Theorem predict_motion_speeds_within (px py v yaw : R) (oa od : list R)
  (xref : matrix) :
  exists xbar,
    predict_motion [px; py; v; yaw] oa od xref = Ok xbar
    /\ forall t, (1 <= t)%nat -> MIN_SPEED <= xbar 2%nat t <= MAX_SPEED.
Proof.
  destruct (predict_motion_columns px py v yaw oa od xref)
    as (xbar & Hrun & _ & _ & Hv).
  exists xbar. auto.
Qed.

(** X11. [predict_motion] needs exactly four initial values: a shorter
    or a longer [x0] raises [IndexError]. *)
Theorem predict_motion_wrong_size (x0 oa od : list R) (xref : matrix) :
  length x0 <> NX -> predict_motion x0 oa od xref = Err IndexError.
Proof.
  intros H. unfold predict_motion, NX in *.
  destruct x0 as [|p0 [|p1 [|p2 [|p3 [|p4 x0]]]]];
    cbn [length] in H; try lia;
    cbn [length seq for_in copy_x0 Nat.ltb Nat.leb NX index nth_error bind];
    reflexivity.
Qed.

Lemma predict_motion_wrong_size_example :
  length [1; 2; 3] <> NX
  /\ predict_motion [1; 2; 3] [0] [0] zeros = Err IndexError.
Proof.
  assert (H : length [1; 2; 3] <> NX) by (unfold NX; simpl; lia).
  split; [exact H | exact (predict_motion_wrong_size [1; 2; 3] [0] [0] zeros H)].
Defined.

(** ** Nearest index and reference window *)

Lemma py_min_fold_le (t : list R) (a : R) :
  let m := fold_left (fun m e => if Rltb e m then e else m) t a in
  m <= a /\ Forall (fun e => m <= e) t.
Proof.
  cbv zeta. revert a. induction t as [|e t IH]; intros a.
  - cbn. split; [lra | constructor].
  - cbn [fold_left]. destruct (Rltb e a) eqn:E.
    + apply Rltb_true in E. destruct (IH e) as [H1 H2].
      split; [lra | constructor; assumption].
    + apply Rltb_false in E. destruct (IH a) as [H1 H2].
      split; [lra | constructor; [lra | assumption]].
Qed.

Lemma py_min_least (l : list R) (m : R) :
  py_min l = Ok m -> In m l /\ Forall (fun e => m <= e) l.
Proof.
  destruct l as [|a t]; [discriminate|]. cbn [py_min]. intros H.
  injection H as <-. split; [apply py_min_fold_in|].
  destruct (py_min_fold_le t a) as [H1 H2]. constructor; assumption.
Qed.

Lemma list_index_first (l : list R) (v : R) (k : nat) :
  list_index l v = Ok k ->
  (k < length l)%nat /\ nth k l 0 = v
  /\ forall j, (j < k)%nat -> nth j l 0 <> v.
Proof.
  revert k. induction l as [|a t IH]; intros k H; [discriminate|].
  cbn [list_index] in H. destruct (Reqb a v) eqn:E.
  - injection H as <-. apply Reqb_true in E.
    split; [cbn; lia | split; [exact E | intros j Hj; lia]].
  - apply Reqb_false in E. apply bind_ok in H.
    destruct H as (i & Hi & H). injection H as <-.
    destruct (IH i Hi) as (Hlt & Hnth & Hfirst).
    split; [cbn; lia | split; [exact Hnth |]].
    intros [|j] Hj; [exact E | apply Hfirst; lia].
Qed.

Lemma slice_nth {A : Type} (l : list A) (lo hi j : nat) (dflt : A) :
  (j < length (slice l lo hi))%nat ->
  nth j (slice l lo hi) dflt = nth (lo + j) l dflt.
Proof.
  intros Hj. rewrite slice_length in Hj. unfold slice.
  rewrite nth_firstn.
  destruct (Nat.ltb_spec j (hi - lo)); [|lia].
  apply nth_skipn.
Qed.

Section Nearest.

Variable state : State.t.
Variables cx cy cyaw : list R.

Let window (pind : nat) : list R :=
  map2 (fun idx idy => idx ^ 2 + idy ^ 2)
       (map (fun icx => State.x state - icx)
            (slice cx pind (pind + N_IND_SEARCH)))
       (map (fun icy => State.y state - icy)
            (slice cy pind (pind + N_IND_SEARCH))).

Lemma window_nth (pind j : nat) :
  (j < length (window pind))%nat ->
  nth j (window pind) 0 = sqdist state cx cy (pind + j).
Proof.
  intros Hj. unfold window in *.
  rewrite map2_length, !length_map in Hj.
  rewrite (map2_nth _ _ _ j 0 0 0) by (rewrite length_map; lia).
  rewrite (nth_indep _ 0 (State.x state - 0)) by (rewrite length_map; lia).
  rewrite (map_nth (fun icx => State.x state - icx)).
  rewrite (nth_indep (map _ (slice cy _ _)) 0 (State.y state - 0))
    by (rewrite length_map; lia).
  rewrite (map_nth (fun icy => State.y state - icy)).
  rewrite !slice_nth by lia. reflexivity.
Qed.

Lemma calc_nearest_index_inv (pind ind : nat) (mind : R) :
  calc_nearest_index state cx cy cyaw pind = Ok (ind, mind) ->
  exists k,
    ind = (k + pind)%nat /\ (k < length (window pind))%nat
    /\ (forall j, (j < length (window pind))%nat ->
          sqdist state cx cy ind <= sqdist state cx cy (pind + j))
    /\ (forall j, (j < k)%nat ->
          sqdist state cx cy ind < sqdist state cx cy (pind + j))
    /\ Rabs mind = sqrt (sqdist state cx cy ind).
Proof.
  unfold calc_nearest_index. fold (window pind). intros H.
  apply bind_ok in H. destruct H as (m & Hm & H).
  apply bind_ok in H. destruct H as (k & Hk & H).
  apply bind_ok in H. destruct H as (cxi & _ & H).
  apply bind_ok in H. destruct H as (cyi & _ & H).
  apply bind_ok in H. destruct H as (cyawi & _ & H).
  injection H as <- <-.
  apply py_min_least in Hm. destruct Hm as [_ Hleast].
  apply list_index_first in Hk. destruct Hk as (Hlt & Hnth & Hfirst).
  rewrite window_nth in Hnth by exact Hlt.
  replace (k + pind)%nat with (pind + k)%nat by lia.
  exists k. split; [lia | split; [exact Hlt |]].
  rewrite Forall_forall in Hleast.
  assert (Hle : forall j, (j < length (window pind))%nat ->
            m <= sqdist state cx cy (pind + j)).
  { intros j Hj. rewrite <- window_nth by exact Hj.
    apply Hleast. apply nth_In. exact Hj. }
  rewrite Hnth. split; [exact Hle | split].
  - intros j Hj. specialize (Hfirst j Hj).
    rewrite window_nth in Hfirst by lia.
    specialize (Hle j ltac:(lia)). lra.
  - destruct (Rltb _ 0).
    + replace (sqrt m * -1) with (- sqrt m) by ring.
      rewrite Rabs_Ropp. apply Rabs_pos_eq. apply sqrt_pos.
    + apply Rabs_pos_eq. apply sqrt_pos.
Qed.

End Nearest.

(** X12. On a course whose three lists have one length and with [pind]
    inside it, [calc_nearest_index] returns an index of the search
    window [[pind, pind + N_IND_SEARCH)] whose squared distance to the
    state is the least of the window -- strictly less than at every
    earlier index of the window -- with the distance itself, up to sign,
    as second value. *)
Theorem calc_nearest_index_minimises (state : State.t) (cx cy cyaw : list R)
  (pind : nat) :
  length cy = length cx -> length cyaw = length cx ->
  (pind < length cx)%nat ->
  exists ind mind,
    calc_nearest_index state cx cy cyaw pind = Ok (ind, mind)
    /\ (pind <= ind < pind + N_IND_SEARCH)%nat /\ (ind < length cx)%nat
    /\ (forall j, (pind <= j < pind + N_IND_SEARCH)%nat ->
          (j < length cx)%nat ->
          sqdist state cx cy ind <= sqdist state cx cy j)
    /\ (forall j, (pind <= j < ind)%nat ->
          sqdist state cx cy ind < sqdist state cx cy j)
    /\ Rabs mind = sqrt (sqdist state cx cy ind).
Proof.
  intros Hcy Hcyaw Hp.
  destruct (calc_nearest_index_ok state cx cy cyaw cyaw Hcy Hcyaw Hcyaw
              pind Hp) as (ind & mind & Hrun & Hrange).
  exists ind, mind. split; [exact Hrun|].
  destruct (calc_nearest_index_inv state cx cy cyaw pind ind mind Hrun)
    as (k & Hind & Hk & Hleast & Hfirst & Hmind).
  assert (Hlen : length (map2 (fun idx idy => idx ^ 2 + idy ^ 2)
                    (map (fun icx => State.x state - icx)
                         (slice cx pind (pind + N_IND_SEARCH)))
                    (map (fun icy => State.y state - icy)
                         (slice cy pind (pind + N_IND_SEARCH))))
                 = Nat.min N_IND_SEARCH (length cx - pind)).
  { rewrite map2_length, !length_map, !slice_length, Hcy.
    replace (pind + N_IND_SEARCH - pind)%nat with N_IND_SEARCH by lia.
    apply Nat.min_id. }
  rewrite Hlen in Hk, Hleast.
  split; [lia | split; [lia | split; [| split; [| exact Hmind]]]].
  - intros j Hj Hjn. replace j with (pind + (j - pind))%nat by lia.
    apply Hleast. lia.
  - intros j Hj. replace j with (pind + (j - pind))%nat by lia.
    apply Hfirst. lia.
Qed.

Lemma calc_nearest_index_minimises_example :
  length [0; 0; 0] = length [0; 1; 2]
  /\ (0 < length [0; 1; 2])%nat
  /\ exists ind mind,
       calc_nearest_index (State.new 1 0 0 0) [0; 1; 2] [0; 0; 0] [0; 0; 0] 0
       = Ok (ind, mind)
       /\ (0 <= ind < 0 + N_IND_SEARCH)%nat /\ (ind < length [0; 1; 2])%nat
       /\ (forall j, (0 <= j < 0 + N_IND_SEARCH)%nat ->
             (j < length [0; 1; 2])%nat ->
             sqdist (State.new 1 0 0 0) [0; 1; 2] [0; 0; 0] ind
             <= sqdist (State.new 1 0 0 0) [0; 1; 2] [0; 0; 0] j)
       /\ (forall j, (0 <= j < ind)%nat ->
             sqdist (State.new 1 0 0 0) [0; 1; 2] [0; 0; 0] ind
             < sqdist (State.new 1 0 0 0) [0; 1; 2] [0; 0; 0] j)
       /\ Rabs mind
          = sqrt (sqdist (State.new 1 0 0 0) [0; 1; 2] [0; 0; 0] ind).
Proof.
  split; [reflexivity | split; [simpl; lia |]].
  apply (calc_nearest_index_minimises (State.new 1 0 0 0) [0; 1; 2] [0; 0; 0]
           [0; 0; 0] 0); [reflexivity | reflexivity | simpl; lia].
Defined.

(** X13. Started at or past the end of the course, the search window
    is empty and [calc_nearest_index] raises [ValueError] (the [min] of
    an empty list). *)
Theorem calc_nearest_index_past_end (state : State.t) (cx cy cyaw : list R)
  (pind : nat) :
  (length cx <= pind)%nat ->
  calc_nearest_index state cx cy cyaw pind = Err ValueError.
Proof.
  intros H. unfold calc_nearest_index, slice.
  rewrite (skipn_all2 cx) by exact H. rewrite firstn_nil. reflexivity.
Qed.

Lemma calc_nearest_index_past_end_example :
  (length [0; 1; 2] <= 3)%nat
  /\ calc_nearest_index (State.new 0 0 0 0) [0; 1; 2] [0; 0; 0] [0; 0; 0] 3
     = Err ValueError.
Proof.
  assert (H : (length [0; 1; 2] <= 3)%nat) by (simpl; lia).
  split; [exact H |].
  exact (calc_nearest_index_past_end (State.new 0 0 0 0) [0; 1; 2] [0; 0; 0]
           [0; 0; 0] 3 H).
Defined.

Section Window.

Variable state : State.t.
Variables cx cy cyaw sp : list R.
Variable dl : R.
Hypothesis Hcy : length cy = length cx.
Hypothesis Hcyaw : length cyaw = length cx.
Hypothesis Hsp : length sp = length cx.

Lemma set_ref_eq (xref dref : matrix) (i : nat) (j : Z) :
  (0 <= j < Z.of_nat (length cx))%Z ->
  set_ref cx cy sp cyaw xref dref i j
  = Ok (mset (mset (mset (mset xref 0 i (nth (Z.to_nat j) cx 0)) 1 i
                         (nth (Z.to_nat j) cy 0)) 2 i
                   (nth (Z.to_nat j) sp 0)) 3 i (nth (Z.to_nat j) cyaw 0),
        mset dref 0 i 0).
Proof using Hcy Hcyaw Hsp.
  intros Hj. unfold set_ref.
  rewrite (index_z_ok cx j 0) by lia.
  rewrite (index_z_ok cy j 0) by lia.
  rewrite (index_z_ok sp j 0) by lia.
  rewrite (index_z_ok cyaw j 0) by lia.
  reflexivity.
Qed.

Lemma ref_step_row (ind k : nat) (travel : R) (xref dref : matrix) :
  0 < dl -> (ind < length cx)%nat ->
  travel = INR k * (Rabs (State.v state) * DT) ->
  (forall i t, dref i t = 0) ->
  exists xref' dref',
    ref_step state cx cy cyaw sp dl ind k (travel, xref, dref)
    = Ok (INR (S k) * (Rabs (State.v state) * DT), xref', dref')
    /\ (let j := ref_index (length cx) ind (State.v state) dl k in
        col NX xref' k = [nth j cx 0; nth j cy 0; nth j sp 0; nth j cyaw 0])
    /\ (forall r t, t <> k -> xref' r t = xref r t)
    /\ (forall i t, dref' i t = 0).
Proof using Hcy Hcyaw Hsp.
  intros Hdl Hind Htr Hdref. unfold ref_step.
  replace (Reqb dl 0) with false by (symmetry; apply Reqb_false; lra).
  replace (travel + Rabs (State.v state) * DT)
    with (INR (S k) * (Rabs (State.v state) * DT))
    by (rewrite S_INR, Htr; ring).
  set (travel' := INR (S k) * (Rabs (State.v state) * DT)).
  assert (Htr' : 0 <= travel').
  { unfold travel', DT. pose proof (Rabs_pos (State.v state)).
    pose proof (pos_INR (S k)). nra. }
  assert (Hdind : (0 <= py_round (travel' / dl))%Z).
  { apply py_round_nonneg. apply Rmult_le_pos; [exact Htr'|].
    left. apply Rinv_0_lt_compat. exact Hdl. }
  assert (Hzero : forall i t, mset dref 0 k 0 i t = 0).
  { intros i t. unfold mset. destruct ((i =? 0) && (t =? k))%nat; auto. }
  cbv zeta. unfold ref_index. fold travel'.
  destruct (Z.ltb_spec (Z.of_nat ind + py_round (travel' / dl))
                       (Z.of_nat (length cx))) as [Hin | Hout].
  - rewrite set_ref_eq by lia. cbn [bind].
    rewrite Z.min_l by lia.
    set (j := Z.to_nat (Z.of_nat ind + py_round (travel' / dl))).
    destruct (mset_column xref k (nth j cx 0) (nth j cy 0) (nth j sp 0)
                (nth j cyaw 0)) as [Hcol Hother].
    eexists; eexists. split; [reflexivity|].
    split; [exact Hcol | split; [exact Hother | exact Hzero]].
  - rewrite set_ref_eq by lia. cbn [bind].
    rewrite Z.min_r by lia.
    set (j := Z.to_nat (Z.of_nat (length cx) - 1)).
    destruct (mset_column xref k (nth j cx 0) (nth j cy 0) (nth j sp 0)
                (nth j cyaw 0)) as [Hcol Hother].
    eexists; eexists. split; [reflexivity|].
    split; [exact Hcol | split; [exact Hother | exact Hzero]].
Qed.

Lemma ref_loop_rows (ind m k : nat) (travel : R) (xref dref : matrix) :
  0 < dl -> (ind < length cx)%nat ->
  travel = INR k * (Rabs (State.v state) * DT) ->
  (forall i t, dref i t = 0) ->
  exists travel' xref' dref',
    for_in (seq k m) (ref_step state cx cy cyaw sp dl ind)
           (travel, xref, dref)
    = Ok (travel', xref', dref')
    /\ (forall i, (k <= i < k + m)%nat ->
          let j := ref_index (length cx) ind (State.v state) dl i in
          col NX xref' i = [nth j cx 0; nth j cy 0; nth j sp 0; nth j cyaw 0])
    /\ (forall r t, (t < k)%nat -> xref' r t = xref r t)
    /\ (forall i t, dref' i t = 0).
Proof using Hcy Hcyaw Hsp.
  intros Hdl Hind. revert k travel xref dref.
  induction m as [|m IH]; intros k travel xref dref Htr Hdref.
  - exists travel, xref, dref. split; [reflexivity|].
    split; [intros i Hi; lia | split; auto].
  - cbn [seq for_in].
    destruct (ref_step_row ind k travel xref dref Hdl Hind Htr Hdref)
      as (xr1 & dr1 & Hstep & Hrow & Hother & Hd1).
    rewrite Hstep. cbn [bind].
    destruct (IH (S k) _ xr1 dr1 eq_refl Hd1)
      as (tr2 & xr2 & dr2 & Hrun & Hrows & Hlow & Hd2).
    exists tr2, xr2, dr2. split; [exact Hrun|].
    split; [| split; [| exact Hd2]].
    + intros i Hi. destruct (Nat.eq_dec i k) as [-> | Hne].
      * cbv zeta in *. rewrite <- Hrow. unfold col. apply map_ext.
        intros r. apply Hlow. lia.
      * apply Hrows. lia.
    + intros r t Ht. rewrite Hlow by lia. apply Hother. lia.
Qed.

End Window.

Lemma py_round_monotone (x y : R) :
  x <= y -> (py_round x <= py_round y)%Z.
Proof.
  intros Hxy. pose proof (Zfloor_le x y Hxy) as Hfl.
  pose proof (Zfloor_bound x) as Hx. pose proof (Zfloor_bound y) as Hy.
  assert (Hlo : forall z, (Zfloor z <= py_round z <= Zfloor z + 1)%Z).
  { intros z. unfold py_round.
    destruct (Rltb (z - IZR (Zfloor z)) (1 / 2)); [lia|].
    destruct (Rltb (1 / 2) (z - IZR (Zfloor z))); [lia|].
    destruct (Z.even (Zfloor z)); lia. }
  destruct (Z.eq_dec (Zfloor x) (Zfloor y)) as [E | E].
  - unfold py_round. rewrite <- E.
    destruct (Rltb (x - IZR (Zfloor x)) (1 / 2)) eqn:Ex1.
    + destruct (Rltb (y - IZR (Zfloor x)) (1 / 2)); [lia|].
      destruct (Rltb (1 / 2) (y - IZR (Zfloor x))); [lia|].
      destruct (Z.even (Zfloor x)); lia.
    + apply Rltb_false in Ex1.
      replace (Rltb (y - IZR (Zfloor x)) (1 / 2)) with false
        by (symmetry; apply Rltb_false; lra).
      destruct (Rltb (1 / 2) (x - IZR (Zfloor x))) eqn:Ex2.
      * apply Rltb_true in Ex2.
        replace (Rltb (1 / 2) (y - IZR (Zfloor x))) with true
          by (symmetry; apply Rltb_true; lra).
        lia.
      * destruct (Rltb (1 / 2) (y - IZR (Zfloor x)));
          destruct (Z.even (Zfloor x)); lia.
  - pose proof (Hlo x). pose proof (Hlo y). lia.
Qed.

(** The index behind a row of the window is at or after [ind], inside
    the course, and does not go back from one row to the next. *)
Lemma ref_index_ordered (n ind : nat) (v dl : R) :
  0 < dl -> (ind < n)%nat ->
  (forall i, (ind <= ref_index n ind v dl i < n)%nat)
  /\ (forall i i', (i <= i')%nat ->
        (ref_index n ind v dl i <= ref_index n ind v dl i')%nat).
Proof.
  intros Hdl Hind.
  assert (Hstep : 0 <= Rabs v * DT / dl).
  { pose proof (Rabs_pos v). unfold DT.
    apply Rmult_le_pos; [nra|]. left. apply Rinv_0_lt_compat. exact Hdl. }
  assert (Hnn : forall i, (0 <= py_round (INR (S i) * (Rabs v * DT) / dl))%Z).
  { intros i. apply py_round_nonneg.
    replace (INR (S i) * (Rabs v * DT) / dl)
      with (INR (S i) * (Rabs v * DT / dl)) by (unfold Rdiv; ring).
    apply Rmult_le_pos; [apply pos_INR | exact Hstep]. }
  split.
  - intros i. unfold ref_index. specialize (Hnn i). lia.
  - intros i i' Hle. unfold ref_index.
    assert (Hmono : (py_round (INR (S i) * (Rabs v * DT) / dl)
                     <= py_round (INR (S i') * (Rabs v * DT) / dl))%Z).
    { apply py_round_monotone.
      replace (INR (S i) * (Rabs v * DT) / dl)
        with (INR (S i) * (Rabs v * DT / dl)) by (unfold Rdiv; ring).
      replace (INR (S i') * (Rabs v * DT) / dl)
        with (INR (S i') * (Rabs v * DT / dl)) by (unfold Rdiv; ring).
      apply Rmult_le_compat_r; [exact Hstep|].
      apply le_INR. lia. }
    pose proof (Hnn i). pose proof (Hnn i'). lia.
Qed.

(** X14. On a well-formed course with a positive sample spacing,
    [calc_ref_trajectory] fills every column of the reference window,
    [0 .. T], with a sample of the course (position, speed, heading at
    one index): the index is at or after the index [ind] it returns,
    inside the course, and never goes back from one column to the
    next; the steering reference is zero throughout. *)
Theorem calc_ref_trajectory_window_ordered (state : State.t)
  (cx cy cyaw ck sp : list R) (dl : R) (pind : nat) :
  length cy = length cx -> length cyaw = length cx ->
  length sp = length cx ->
  (pind < length cx)%nat -> 0 < dl ->
  exists xref ind dref (j : nat -> nat),
    calc_ref_trajectory state cx cy cyaw ck sp dl pind = Ok (xref, ind, dref)
    /\ (forall i, (i <= T)%nat ->
          (ind <= j i < length cx)%nat
          /\ col NX xref i
             = [nth (j i) cx 0; nth (j i) cy 0; nth (j i) sp 0;
                nth (j i) cyaw 0])
    /\ (forall i i', (i <= i')%nat -> (i' <= T)%nat -> (j i <= j i')%nat)
    /\ (forall i t, dref i t = 0).
Proof.
  intros Hcy Hcyaw Hsp Hp Hdl. unfold calc_ref_trajectory.
  destruct (calc_nearest_index_ok state cx cy cyaw sp Hcy Hcyaw Hsp pind Hp)
    as (ind0 & m & Hnear & Hrange).
  rewrite Hnear. cbn [bind].
  set (ind := if (ind0 <=? pind)%nat then pind else ind0).
  assert (Hind : (ind < length cx)%nat).
  { unfold ind. destruct (Nat.leb_spec ind0 pind); lia. }
  rewrite (set_ref_eq cx cy cyaw sp Hcy Hcyaw Hsp) by lia. cbn [bind].
  match goal with
  | |- context [for_in _ _ (0, ?xr, ?dr)] =>
      destruct (ref_loop_rows state cx cy cyaw sp dl Hcy Hcyaw Hsp ind
                  (T + 1) 0 0 xr dr Hdl Hind)
        as (tr & xref & dref & Hrun & Hrows & _ & Hdref)
  end.
  - simpl. ring.
  - intros i t. unfold mset, zeros. destruct ((i =? 0) && (t =? 0))%nat; auto.
  - rewrite Hrun. cbn [bind].
    destruct (ref_index_ordered (length cx) ind (State.v state) dl Hdl Hind)
      as [Hin Hmono].
    exists xref, ind, dref, (ref_index (length cx) ind (State.v state) dl).
    split; [reflexivity|].
    split; [| split; [| exact Hdref]].
    + intros i Hi. split; [apply Hin | apply Hrows; lia].
    + intros i i' Hle _. apply Hmono. exact Hle.
Qed.

Lemma calc_ref_trajectory_window_ordered_example :
  length [0; 0; 0] = length [0; 1; 2]
  /\ length [TARGET_SPEED; TARGET_SPEED; 0] = length [0; 1; 2]
  /\ (1 < length [0; 1; 2])%nat
  /\ 0 < 1
  /\ exists xref ind dref (j : nat -> nat),
       calc_ref_trajectory (State.new 0 0 0 1) [0; 1; 2] [0; 0; 0] [0; 0; 0]
         [0; 0; 0] [TARGET_SPEED; TARGET_SPEED; 0] 1 1
       = Ok (xref, ind, dref)
       /\ (forall i, (i <= T)%nat ->
             (ind <= j i < length [0; 1; 2])%nat
             /\ col NX xref i
                = [nth (j i) [0; 1; 2] 0; nth (j i) [0; 0; 0] 0;
                   nth (j i) [TARGET_SPEED; TARGET_SPEED; 0] 0;
                   nth (j i) [0; 0; 0] 0])
       /\ (forall i i', (i <= i')%nat -> (i' <= T)%nat -> (j i <= j i')%nat)
       /\ (forall i t, dref i t = 0).
Proof.
  split; [reflexivity | split; [reflexivity | split; [simpl; lia |]]].
  split; [lra |].
  apply (calc_ref_trajectory_window_ordered (State.new 0 0 0 1) [0; 1; 2]
           [0; 0; 0] [0; 0; 0] [0; 0; 0] [TARGET_SPEED; TARGET_SPEED; 0] 1 1);
    [reflexivity | reflexivity | reflexivity | simpl; lia | lra].
Defined.

(** X15. With a zero sample spacing [calc_ref_trajectory] raises
    [ZeroDivisionError] at the first row of the window, on any
    well-formed course. *)
Theorem calc_ref_trajectory_zero_spacing (state : State.t)
  (cx cy cyaw ck sp : list R) (pind : nat) :
  length cy = length cx -> length cyaw = length cx ->
  length sp = length cx ->
  (pind < length cx)%nat ->
  calc_ref_trajectory state cx cy cyaw ck sp 0 pind = Err ZeroDivisionError.
Proof.
  intros Hcy Hcyaw Hsp Hp. unfold calc_ref_trajectory.
  destruct (calc_nearest_index_ok state cx cy cyaw sp Hcy Hcyaw Hsp pind Hp)
    as (ind0 & m & Hnear & Hrange).
  rewrite Hnear. cbn [bind].
  rewrite (set_ref_eq cx cy cyaw sp Hcy Hcyaw Hsp)
    by (destruct (Nat.leb_spec ind0 pind); lia).
  cbn [bind]. unfold T. cbn [Nat.add seq for_in]. unfold ref_step at 1.
  rewrite Reqb_refl. reflexivity.
Qed.

Lemma calc_ref_trajectory_zero_spacing_example :
  length [0; 0; 0] = length [0; 1; 2]
  /\ (1 < length [0; 1; 2])%nat
  /\ calc_ref_trajectory (State.new 0 0 0 1) [0; 1; 2] [0; 0; 0] [0; 0; 0]
       [0; 0; 0] [TARGET_SPEED; TARGET_SPEED; 0] 0 1
     = Err ZeroDivisionError.
Proof.
  split; [reflexivity | split; [simpl; lia |]].
  apply (calc_ref_trajectory_zero_spacing (State.new 0 0 0 1) [0; 1; 2]
           [0; 0; 0] [0; 0; 0] [0; 0; 0] [TARGET_SPEED; TARGET_SPEED; 0] 1);
    [reflexivity | reflexivity | reflexivity | simpl; lia].
Defined.

(** ** [smooth_yaw] *)

Lemma Zceil_ge (x : R) : x <= IZR (Zceil x).
Proof.
  unfold Zceil. rewrite opp_IZR.
  destruct (Zfloor_bound (- x)) as [H _]. lra.
Qed.

Lemma unwind_fuel_covers (d : R) :
  exists f, unwind_fuel d = S f /\ Rabs d <= 2 * PI * INR f.
Proof.
  unfold unwind_fuel. eexists. split; [reflexivity|].
  pose proof PI_RGT_0 as Hpi.
  set (q := Rabs d / (2 * PI)).
  assert (Hq : 0 <= q).
  { unfold q. apply Rmult_le_pos; [apply Rabs_pos|].
    left. apply Rinv_0_lt_compat. lra. }
  pose proof (Zceil_ge q) as Hc.
  assert (Hz : (0 <= Zceil q)%Z) by (apply le_IZR; simpl; lra).
  rewrite INR_IZR_INZ, Z2Nat.id by exact Hz.
  assert (Hd : Rabs d = 2 * PI * q) by (unfold q; field; lra).
  rewrite Hd. apply Rmult_le_compat_l; lra.
Qed.

Lemma unwind_down_spec (f : nat) (prev y : R) :
  y - prev - 2 * PI * INR f < PI / 2 ->
  exists y',
    unwind_down (S f) prev y = Some y'
    /\ same_direction y y'
    /\ y' - prev < PI / 2
    /\ (y - prev < PI / 2 -> y' = y).
Proof.
  revert y. induction f as [|f IH]; intros y Hf.
  - cbn [unwind_down]. simpl in Hf.
    replace (Rleb (PI / 2) (y - prev)) with false
      by (symmetry; apply Rleb_false; lra).
    exists y. split; [reflexivity|].
    split; [exists 0%Z; simpl; ring | split; [lra | auto]].
  - change (unwind_down (S (S f)) prev y)
      with (if Rleb (PI / 2) (y - prev)
            then unwind_down (S f) prev (y - PI * 2) else Some y).
    destruct (Rleb (PI / 2) (y - prev)) eqn:E.
    + apply Rleb_true in E. rewrite S_INR in Hf.
      destruct (IH (y - PI * 2)) as (y' & Hrun & [k Hk] & Hlt & _);
        [lra|].
      exists y'. split; [exact Hrun|].
      split; [exists (k - 1)%Z; rewrite minus_IZR, Hk; ring|].
      split; [exact Hlt | intros; lra].
    + apply Rleb_false in E.
      exists y. split; [reflexivity|].
      split; [exists 0%Z; simpl; ring | split; [lra | auto]].
Qed.

Lemma unwind_up_spec (f : nat) (prev y : R) :
  - PI / 2 < y - prev + 2 * PI * INR f ->
  exists y',
    unwind_up (S f) prev y = Some y'
    /\ same_direction y y'
    /\ - PI / 2 < y' - prev
    /\ (y' = y \/ y' - prev <= 3 * PI / 2)
    /\ (- PI / 2 < y - prev -> y' = y).
Proof.
  revert y. induction f as [|f IH]; intros y Hf.
  - cbn [unwind_up]. simpl in Hf.
    replace (Rleb (y - prev) (- PI / 2)) with false
      by (symmetry; apply Rleb_false; lra).
    exists y. split; [reflexivity|].
    split; [exists 0%Z; simpl; ring | split; [lra | auto]].
  - change (unwind_up (S (S f)) prev y)
      with (if Rleb (y - prev) (- PI / 2)
            then unwind_up (S f) prev (y + PI * 2) else Some y).
    destruct (Rleb (y - prev) (- PI / 2)) eqn:E.
    + apply Rleb_true in E. rewrite S_INR in Hf.
      destruct (IH (y + PI * 2)) as (y' & Hrun & [k Hk] & Hgt & Hhi & _);
        [lra|].
      exists y'. split; [exact Hrun|].
      split; [exists (k + 1)%Z; rewrite plus_IZR, Hk; ring|].
      split; [exact Hgt|].
      split; [right; destruct Hhi as [-> | Hhi]; lra | intros; lra].
    + apply Rleb_false in E.
      exists y. split; [reflexivity|].
      split; [exists 0%Z; simpl; ring | split; [lra | auto]].
Qed.

Lemma same_direction_trans (a b c : R) :
  same_direction a b -> same_direction b c -> same_direction a c.
Proof.
  intros [k Hk] [l Hl]. exists (k + l)%Z. rewrite plus_IZR, Hl, Hk. ring.
Qed.

Lemma smooth_step_spec (prev y : R) :
  exists y',
    smooth_step prev y = Some y'
    /\ same_direction y y'
    /\ - PI / 2 < y' - prev <= 3 * PI / 2
    /\ (- PI / 2 < y - prev < PI / 2 -> y' = y).
Proof.
  pose proof PI_RGT_0 as Hpi. unfold smooth_step.
  destruct (unwind_fuel_covers (y - prev)) as (f1 & -> & Hf1).
  destruct (unwind_down_spec f1 prev y) as (y1 & -> & Hdir1 & Hlt & Hsame1).
  { pose proof (Rle_abs (y - prev)). lra. }
  destruct (unwind_fuel_covers (y1 - prev)) as (f2 & -> & Hf2).
  destruct (unwind_up_spec f2 prev y1) as (y2 & -> & Hdir2 & Hgt & Hhi & Hsame2).
  { pose proof (Rle_abs (- (y1 - prev))). rewrite Rabs_Ropp in *. lra. }
  exists y2. split; [reflexivity|].
  split; [eapply same_direction_trans; eassumption|].
  split.
  - split; [exact Hgt|]. destruct Hhi as [-> | Hhi]; lra.
  - intros [H1 H2]. rewrite Hsame1 in * by exact H2.
    apply Hsame2. exact H1.
Qed.

(** A jump between a quarter turn and three quarters of a turn is taken
    down by the first loop and put back by the second. *)
Lemma smooth_step_keeps_jump (prev y : R) :
  PI / 2 <= y - prev <= 3 * PI / 2 -> smooth_step prev y = Some y.
Proof.
  intros [Hlo Hhi]. pose proof PI_RGT_0 as Hpi. unfold smooth_step.
  destruct (unwind_fuel_covers (y - prev)) as (f1 & -> & Hf1).
  destruct f1 as [|f1].
  { simpl in Hf1. pose proof (Rle_abs (y - prev)). lra. }
  change (unwind_down (S (S f1)) prev y)
    with (if Rleb (PI / 2) (y - prev)
          then unwind_down (S f1) prev (y - PI * 2) else Some y).
  rewrite (Rleb_is_true _ _ Hlo).
  change (unwind_down (S f1) prev (y - PI * 2))
    with (if Rleb (PI / 2) (y - PI * 2 - prev)
          then unwind_down f1 prev (y - PI * 2 - PI * 2)
          else Some (y - PI * 2)).
  replace (Rleb (PI / 2) (y - PI * 2 - prev)) with false
    by (symmetry; apply Rleb_false; lra).
  destruct (unwind_fuel_covers (y - PI * 2 - prev)) as (f2 & -> & Hf2).
  destruct f2 as [|f2].
  { simpl in Hf2. pose proof (Rle_abs (- (y - PI * 2 - prev))).
    rewrite Rabs_Ropp in *. lra. }
  change (unwind_up (S (S f2)) prev (y - PI * 2))
    with (if Rleb (y - PI * 2 - prev) (- PI / 2)
          then unwind_up (S f2) prev (y - PI * 2 + PI * 2)
          else Some (y - PI * 2)).
  rewrite Rleb_is_true by lra.
  change (unwind_up (S f2) prev (y - PI * 2 + PI * 2))
    with (if Rleb (y - PI * 2 + PI * 2 - prev) (- PI / 2)
          then unwind_up f2 prev (y - PI * 2 + PI * 2 + PI * 2)
          else Some (y - PI * 2 + PI * 2)).
  replace (Rleb (y - PI * 2 + PI * 2 - prev) (- PI / 2)) with false
    by (symmetry; apply Rleb_false; lra).
  f_equal. ring.
Qed.

Lemma smooth_from_fixes (prev : R) (rest : list R) :
  steps_within (- PI / 2) (3 * PI / 2) prev rest ->
  smooth_from prev rest = Some rest.
Proof.
  revert prev. induction rest as [|y rest IH]; intros prev H;
    [reflexivity|].
  destruct H as [[Hlo Hhi] Hrest]. cbn [smooth_from].
  assert (Hstep : smooth_step prev y = Some y).
  { destruct (Rlt_le_dec (y - prev) (PI / 2)) as [Hsmall | Hbig].
    - destruct (smooth_step_spec prev y) as (y' & Hrun & _ & _ & Hsame).
      rewrite Hrun, (Hsame (conj Hlo Hsmall)). reflexivity.
    - apply smooth_step_keeps_jump. lra. }
  rewrite Hstep, (IH y Hrest). reflexivity.
Qed.

(** X17. A list of headings whose steps already lie in
    [(- PI / 2, 3 * PI / 2]] is returned as it is: in particular a jump
    of half a turn between two consecutive headings is not removed. *)
Theorem smooth_yaw_fixes (yaw : list R) :
  steps_within (- PI / 2) (3 * PI / 2) (nth 0 yaw 0) (tl yaw) ->
  smooth_yaw yaw = Some yaw.
Proof.
  destruct yaw as [|y0 rest]; [reflexivity|].
  cbn [nth tl smooth_yaw]. intros H.
  rewrite (smooth_from_fixes y0 rest H). reflexivity.
Qed.

Lemma smooth_yaw_fixes_example :
  steps_within (- PI / 2) (3 * PI / 2) (nth 0 [0; PI; PI / 4 + PI] 0)
               (tl [0; PI; PI / 4 + PI])
  /\ smooth_yaw [0; PI; PI / 4 + PI] = Some [0; PI; PI / 4 + PI].
Proof.
  assert (H : steps_within (- PI / 2) (3 * PI / 2)
                (nth 0 [0; PI; PI / 4 + PI] 0) (tl [0; PI; PI / 4 + PI])).
  { pose proof PI_RGT_0. cbn [nth tl steps_within].
    repeat split; lra. }
  split; [exact H | exact (smooth_yaw_fixes [0; PI; PI / 4 + PI] H)].
Defined.

(** ** More on the splines *)

Lemma CubicSpline2D_init_parts
  (solve : lmatrix -> list R -> result (list R)) (x y : list R)
  (sp : CubicSpline2D.t) :
  CubicSpline2D.init solve x y = Ok sp ->
  exists ds,
    CubicSpline2D.calc_s x y = Ok (CubicSpline2D.s sp, ds)
    /\ CubicSpline1D.init solve (CubicSpline2D.s sp) x
       = Ok (CubicSpline2D.sx sp)
    /\ CubicSpline1D.init solve (CubicSpline2D.s sp) y
       = Ok (CubicSpline2D.sy sp).
Proof.
  unfold CubicSpline2D.init. intros H.
  apply bind_ok in H. destruct H as ([s ds] & Hs & H).
  apply bind_ok in H. destruct H as (sx & Hsx & H).
  apply bind_ok in H. destruct H as (sy & Hsy & H).
  injection H as <-. exists ds. auto.
Qed.

Lemma calc_s_starts_at_zero (x y s ds : list R) :
  CubicSpline2D.calc_s x y = Ok (s, ds) -> exists t, s = 0 :: t.
Proof.
  unfold CubicSpline2D.calc_s. intros H.
  apply bind_ok in H. destruct H as (ds' & _ & H).
  injection H as <- <-. eexists; reflexivity.
Qed.

Section OutOfDomain.

Variable sp : CubicSpline1D.t.
Variable x0 : R.
Variable rest : list R.
Hypothesis Hx : CubicSpline1D.x sp = x0 :: rest.
Variable xq : R.
Hypothesis Hout : xq < x0 \/ last (x0 :: rest) 0 < xq.

Lemma index_last_cons : index_last (x0 :: rest) = Ok (last (x0 :: rest) 0).
Proof using Type.
  unfold index_last.
  rewrite (index_nth (x0 :: rest) (length (x0 :: rest) - 1) 0)
    by (cbn [length]; lia).
  rewrite nth_last_elt. reflexivity.
Qed.

Lemma calc_position_outside : CubicSpline1D.calc_position sp xq = Ok None.
Proof using Hx Hout.
  unfold CubicSpline1D.calc_position. rewrite Hx.
  change (index (x0 :: rest) 0) with (Ok (A := R) x0). cbn [bind].
  destruct (Rltb xq x0) eqn:E; [reflexivity|].
  apply Rltb_false in E. rewrite index_last_cons. cbn [bind].
  destruct Hout as [H | H]; [lra|].
  replace (Rltb (last (x0 :: rest) 0) xq) with true
    by (symmetry; apply Rltb_true; exact H).
  reflexivity.
Qed.

Lemma calc_first_derivative_outside :
  CubicSpline1D.calc_first_derivative sp xq = Ok None.
Proof using Hx Hout.
  unfold CubicSpline1D.calc_first_derivative. rewrite Hx.
  change (index (x0 :: rest) 0) with (Ok (A := R) x0). cbn [bind].
  destruct (Rltb xq x0) eqn:E; [reflexivity|].
  apply Rltb_false in E. rewrite index_last_cons. cbn [bind].
  destruct Hout as [H | H]; [lra|].
  replace (Rltb (last (x0 :: rest) 0) xq) with true
    by (symmetry; apply Rltb_true; exact H).
  reflexivity.
Qed.

Lemma calc_second_derivative_outside :
  CubicSpline1D.calc_second_derivative sp xq = Ok None.
Proof using Hx Hout.
  unfold CubicSpline1D.calc_second_derivative. rewrite Hx.
  change (index (x0 :: rest) 0) with (Ok (A := R) x0). cbn [bind].
  destruct (Rltb xq x0) eqn:E; [reflexivity|].
  apply Rltb_false in E. rewrite index_last_cons. cbn [bind].
  destruct Hout as [H | H]; [lra|].
  replace (Rltb (last (x0 :: rest) 0) xq) with true
    by (symmetry; apply Rltb_true; exact H).
  reflexivity.
Qed.

End OutOfDomain.

(** X18. Outside the arc-length range [[0, s[-1]]] of a constructed
    spline, [CubicSpline2D.calc_position] returns [(None, None)], while
    [calc_yaw] and [calc_curvature] raise [TypeError] on the [None]
    derivatives instead of returning [None]. *)
Theorem CubicSpline2D_outside_range
  (solve : lmatrix -> list R -> result (list R)) (x y : list R)
  (sp : CubicSpline2D.t) (sq : R) :
  CubicSpline2D.init solve x y = Ok sp ->
  sq < 0 \/ last (CubicSpline2D.s sp) 0 < sq ->
  CubicSpline2D.calc_position sp sq = Ok (None, None)
  /\ CubicSpline2D.calc_yaw sp sq = Err TypeError
  /\ CubicSpline2D.calc_curvature sp sq = Err TypeError.
Proof.
  intros Hinit Hout.
  destruct (CubicSpline2D_init_parts solve x y sp Hinit)
    as (ds & Hs & Hsx & Hsy).
  destruct (calc_s_starts_at_zero x y _ ds Hs) as (t & Ht).
  destruct (CubicSpline1D_init_shape solve _ x _ Hsx) as (Hxx & _).
  destruct (CubicSpline1D_init_shape solve _ y _ Hsy) as (Hxy & _).
  rewrite Ht in Hxx, Hxy, Hout.
  unfold CubicSpline2D.calc_position, CubicSpline2D.calc_yaw,
    CubicSpline2D.calc_curvature.
  rewrite (calc_position_outside _ 0 t Hxx sq Hout).
  rewrite (calc_position_outside _ 0 t Hxy sq Hout).
  rewrite (calc_first_derivative_outside _ 0 t Hxx sq Hout).
  rewrite (calc_first_derivative_outside _ 0 t Hxy sq Hout).
  rewrite (calc_second_derivative_outside _ 0 t Hxx sq Hout).
  rewrite (calc_second_derivative_outside _ 0 t Hxy sq Hout).
  repeat split.
Qed.

Lemma CubicSpline2D_outside_range_example :
  exists sp,
    CubicSpline2D.init echo_solver [0; 1; 1] [0; 0; 1] = Ok sp
    /\ (-1 < 0 \/ last (CubicSpline2D.s sp) 0 < -1)
    /\ CubicSpline2D.calc_position sp (-1) = Ok (None, None)
    /\ CubicSpline2D.calc_yaw sp (-1) = Err TypeError
    /\ CubicSpline2D.calc_curvature sp (-1) = Err TypeError.
Proof.
  destruct (CubicSpline2D_init_ok echo_solver [0; 1; 1] [0; 0; 1])
    as (sp & Hsp & _).
  - simpl; lia.
  - reflexivity.
  - apply echo_solver_answers_2d; [simpl; lia | reflexivity].
  - assert (Hout : -1 < 0 \/ last (CubicSpline2D.s sp) 0 < -1)
      by (left; lra).
    exists sp. split; [exact Hsp | split; [exact Hout |]].
    exact (CubicSpline2D_outside_range echo_solver [0; 1; 1] [0; 0; 1] sp
             (-1) Hsp Hout).
Defined.

Lemma hypot_pos (a b : R) : a <> 0 \/ b <> 0 -> 0 < hypot a b.
Proof.
  intros H. unfold hypot. apply sqrt_lt_R0.
  destruct H as [H | H].
  - assert (0 < a * a) by (destruct (Rtotal_order a 0) as [?|[?|?]]; nra).
    nra.
  - assert (0 < b * b) by (destruct (Rtotal_order b 0) as [?|[?|?]]; nra).
    nra.
Qed.

Lemma cumsum_from_strict (acc : R) (l : list R) :
  Forall (fun e => 0 < e) l ->
  Forall (fun hi => 0 < hi) (diff (acc :: cumsum_from acc l)).
Proof.
  intros H. revert acc. induction H as [|a l Ha Hl IH]; intros acc.
  - constructor.
  - cbn [cumsum_from diff]. constructor; [lra|]. apply IH.
Qed.

Lemma Forall_nth_iff (P : R -> Prop) (l : list R) :
  (forall i, (i < length l)%nat -> P (nth i l 0)) -> Forall P l.
Proof.
  intros H. apply Forall_forall. intros e He.
  destruct (In_nth l e 0 He) as (i & Hi & <-). apply H. exact Hi.
Qed.

(** X19. A spline built on waypoints of which no two consecutive ones
    coincide passes through every waypoint but the last: evaluated at
    the arc length [s[i]] of waypoint [i], it returns [(x[i], y[i])]. *)
Theorem CubicSpline2D_passes_through_waypoints
  (solve : lmatrix -> list R -> result (list R)) (x y : list R)
  (sp : CubicSpline2D.t) (i : nat) :
  CubicSpline2D.init solve x y = Ok sp ->
  length y = length x ->
  (forall j, (S j < length x)%nat ->
     nth (S j) x 0 <> nth j x 0 \/ nth (S j) y 0 <> nth j y 0) ->
  (i + 1 < length x)%nat ->
  CubicSpline2D.calc_position sp (nth i (CubicSpline2D.s sp) 0)
  = Ok (Some (nth i x 0), Some (nth i y 0)).
Proof.
  intros Hinit Hy Hdistinct Hi.
  destruct (CubicSpline2D_init_parts solve x y sp Hinit)
    as (ds & Hs & _ & _).
  rewrite (calc_s_ok x y Hy) in Hs. injection Hs as Hs _.
  assert (Hlen : length (map2 hypot (diff x) (diff y)) = (length x - 1)%nat).
  { rewrite map2_length, !diff_length, Hy. lia. }
  apply (CubicSpline2D_interior_waypoint solve x y sp i Hinit).
  - rewrite <- Hs. apply cumsum_from_strict. apply Forall_nth_iff.
    intros j Hj. rewrite Hlen in Hj.
    rewrite (map2_nth hypot (diff x) (diff y) j 0 0 0)
      by (rewrite diff_length; lia).
    rewrite !diff_nth by lia. apply hypot_pos.
    destruct (Hdistinct j ltac:(lia)) as [H | H]; [left | right]; lra.
  - rewrite <- Hs. unfold cumsum. cbn [length].
    rewrite cumsum_from_length, Hlen. lia.
Qed.

Lemma CubicSpline2D_passes_through_waypoints_example :
  exists sp,
    CubicSpline2D.init echo_solver [0; 1; 1] [0; 0; 1] = Ok sp
    /\ CubicSpline2D.calc_position sp (nth 1 (CubicSpline2D.s sp) 0)
       = Ok (Some (nth 1 [0; 1; 1] 0), Some (nth 1 [0; 0; 1] 0)).
Proof.
  destruct (CubicSpline2D_init_ok echo_solver [0; 1; 1] [0; 0; 1])
    as (sp & Hsp & _).
  - simpl; lia.
  - reflexivity.
  - apply echo_solver_answers_2d; [simpl; lia | reflexivity].
  - exists sp. split; [exact Hsp |].
    apply (CubicSpline2D_passes_through_waypoints echo_solver [0; 1; 1]
             [0; 0; 1] sp 1 Hsp); [reflexivity | | simpl; lia].
    intros j Hj. simpl in Hj.
    destruct j as [|[|j]]; cbn [nth]; [left; lra | right; lra | lia].
Defined.

(** X20. With fewer than two waypoints the construction stops with
    [IndexError] (the write to [A[0, 1]] of the system matrix), whatever
    the linear solver. *)
Theorem CubicSpline2D_too_few_points
  (solve : lmatrix -> list R -> result (list R)) (x y : list R) :
  length y = length x -> (length x < 2)%nat ->
  CubicSpline2D.init solve x y = Err IndexError.
Proof.
  intros Hy Hx. unfold CubicSpline2D.init.
  rewrite (calc_s_ok x y Hy). cbn [bind].
  destruct x as [|x0 [|x1 x]]; cbn [length] in Hx; try lia;
    destruct y as [|y0 [|y1 y]]; try discriminate; reflexivity.
Qed.

Lemma CubicSpline2D_too_few_points_example :
  length [7] = length [3] /\ (length [3] < 2)%nat
  /\ CubicSpline2D.init echo_solver [3] [7] = Err IndexError.
Proof.
  split; [reflexivity | split; [simpl; lia |]].
  apply (CubicSpline2D_too_few_points echo_solver [3] [7]);
    [reflexivity | simpl; lia].
Defined.

(** X21. [CubicSpline1D.init] refuses abscissas that decrease
    somewhere: it raises [ValueError] before anything is computed. *)
Theorem CubicSpline1D_rejects_decreasing
  (solve : lmatrix -> list R -> result (list R)) (xs ys : list R) (i : nat) :
  (S i < length xs)%nat -> nth (S i) xs 0 < nth i xs 0 ->
  CubicSpline1D.init solve xs ys = Err ValueError.
Proof.
  intros Hi Hdec. unfold CubicSpline1D.init.
  replace (existsb (fun hi => Rltb hi 0) (diff xs)) with true; [reflexivity|].
  symmetry. apply existsb_exists. exists (nth i (diff xs) 0). split.
  - apply nth_In. rewrite diff_length. lia.
  - apply Rltb_true. rewrite diff_nth by exact Hi. lra.
Qed.

Lemma CubicSpline1D_rejects_decreasing_example :
  (2 < length [0; 2; 1])%nat /\ nth 2 [0; 2; 1] 0 < nth 1 [0; 2; 1] 0
  /\ CubicSpline1D.init echo_solver [0; 2; 1] [5; 6; 7] = Err ValueError.
Proof.
  assert (H1 : (2 < length [0; 2; 1])%nat) by (simpl; lia).
  assert (H2 : nth 2 [0; 2; 1] 0 < nth 1 [0; 2; 1] 0) by (simpl; lra).
  split; [exact H1 | split; [exact H2 |]].
  exact (CubicSpline1D_rejects_decreasing echo_solver [0; 2; 1] [5; 6; 7] 1
           H1 H2).
Defined.

Lemma index_ok_nth {A : Type} (l : list A) (i : nat) (v dflt : A) :
  index l i = Ok v -> v = nth i l dflt.
Proof.
  intros H. pose proof (index_ok_lt l i v H) as Hlt.
  rewrite (index_nth l i dflt Hlt) in H. injection H as <-. reflexivity.
Qed.

Lemma coeff_loop_values (h a c : list R) (steps : list nat)
  (d0 b0 d b : list R) :
  for_in steps (CubicSpline1D.coeff_step h a c) (d0, b0) = Ok (d, b) ->
  d = d0 ++ map (fun i => (nth (i + 1) c 0 - nth i c 0) / (3 * nth i h 0))
                steps
  /\ b = b0 ++ map (fun i => 1 / nth i h 0 * (nth (i + 1) a 0 - nth i a 0)
                             - nth i h 0 / 3
                               * (2 * nth i c 0 + nth (i + 1) c 0)) steps.
Proof.
  revert d0 b0. induction steps as [|i steps IH]; intros d0 b0 H.
  - cbn in H. injection H as <- <-. cbn [map]. rewrite !app_nil_r. auto.
  - cbn [for_in] in H. apply bind_ok in H. destruct H as ([d1 b1] & Hstep & H).
    unfold CubicSpline1D.coeff_step in Hstep.
    apply bind_ok in Hstep. destruct Hstep as (ci1 & Hci1 & Hstep).
    apply bind_ok in Hstep. destruct Hstep as (ci & Hci & Hstep).
    apply bind_ok in Hstep. destruct Hstep as (hi & Hhi & Hstep).
    apply bind_ok in Hstep. destruct Hstep as (ai1 & Hai1 & Hstep).
    apply bind_ok in Hstep. destruct Hstep as (ai & Hai & Hstep).
    injection Hstep as <- <-.
    apply (index_ok_nth _ _ _ 0) in Hci1, Hci, Hhi, Hai1, Hai. subst.
    apply IH in H. destruct H as [-> ->].
    cbn [map]. rewrite <- !app_assoc. auto.
Qed.

Lemma map_seq_nth (f : nat -> R) (m i : nat) :
  (i < m)%nat -> nth i (map f (seq 0 m)) 0 = f i.
Proof.
  intros H. rewrite (nth_indep _ 0 (f 0%nat))
    by (rewrite length_map, length_seq; exact H).
  rewrite map_nth, seq_nth by exact H. reflexivity.
Qed.

(** X22. On strictly increasing abscissas -- no segment of length
    zero, so no division by zero anywhere in the constructor -- the
    cubic pieces of a constructed [CubicSpline1D] join up: with
    [h = x[i + 1] - x[i]], the polynomial of segment [i] taken to the
    end of the segment gives the ordinate [y[i + 1]] of the next knot,
    and its second derivative there is [2 c[i + 1]], the second
    derivative the next segment starts with. *)
Theorem CubicSpline1D_pieces_join
  (solve : lmatrix -> list R -> result (list R)) (xs ys : list R)
  (sp : CubicSpline1D.t) (i : nat) :
  CubicSpline1D.init solve xs ys = Ok sp ->
  Forall (fun hi => 0 < hi) (diff xs) ->
  (i + 1 < length xs)%nat ->
  let h := nth (i + 1) xs 0 - nth i xs 0 in
  let a := nth i (CubicSpline1D.a sp) 0 in
  let b := nth i (CubicSpline1D.b sp) 0 in
  let c := nth i (CubicSpline1D.c sp) 0 in
  let d := nth i (CubicSpline1D.d sp) 0 in
  a + b * h + c * h ^ 2 + d * h ^ 3 = nth (i + 1) ys 0
  /\ 2 * c + 6 * d * h = 2 * nth (i + 1) (CubicSpline1D.c sp) 0.
Proof.
  intros Hinit Hstrict Hi. cbv zeta.
  assert (Hpos : 0 < nth (i + 1) xs 0 - nth i xs 0).
  { replace (i + 1)%nat with (S i) by lia.
    rewrite <- diff_nth by lia.
    rewrite Forall_forall in Hstrict. apply Hstrict. apply nth_In.
    pose proof (diff_length xs). lia. }
  unfold CubicSpline1D.init in Hinit.
  destruct (existsb (fun hi => Rltb hi 0) (diff xs)); [discriminate|].
  apply bind_ok in Hinit. destruct Hinit as (A & _ & Hinit).
  apply bind_ok in Hinit. destruct Hinit as (B & _ & Hinit).
  apply bind_ok in Hinit. destruct Hinit as (c & _ & Hinit).
  apply bind_ok in Hinit. destruct Hinit as ([d b] & Hloop & Hinit).
  injection Hinit as <-.
  cbn [CubicSpline1D.a CubicSpline1D.b CubicSpline1D.c CubicSpline1D.d].
  apply coeff_loop_values in Hloop. destruct Hloop as [-> ->].
  cbn [app].
  rewrite !map_seq_nth by lia.
  rewrite diff_nth by lia.
  replace (S i) with (i + 1)%nat by lia.
  set (h := nth (i + 1) xs 0 - nth i xs 0) in *.
  assert (Hh : h <> 0) by lra.
  split; field; exact Hh.
Qed.

Lemma CubicSpline1D_pieces_join_example :
  exists sp,
    CubicSpline1D.init echo_solver [0; 1; 3] [5; 6; 4] = Ok sp
    /\ Forall (fun hi => 0 < hi) (diff [0; 1; 3])
    /\ (0 + 1 < length [0; 1; 3])%nat
    /\ (let h := nth (0 + 1) [0; 1; 3] 0 - nth 0 [0; 1; 3] 0 in
        let a := nth 0 (CubicSpline1D.a sp) 0 in
        let b := nth 0 (CubicSpline1D.b sp) 0 in
        let c := nth 0 (CubicSpline1D.c sp) 0 in
        let d := nth 0 (CubicSpline1D.d sp) 0 in
        a + b * h + c * h ^ 2 + d * h ^ 3 = nth (0 + 1) [5; 6; 4] 0
        /\ 2 * c + 6 * d * h = 2 * nth (0 + 1) (CubicSpline1D.c sp) 0).
Proof.
  destruct (CubicSpline1D_init_ok echo_solver [0; 1; 3] [5; 6; 4])
    as (sp & Hsp).
  - simpl; lia.
  - reflexivity.
  - cbn [diff]. repeat constructor; lra.
  - apply echo_solver_answers. reflexivity.
  - assert (H1 : Forall (fun hi => 0 < hi) (diff [0; 1; 3]))
      by (cbn [diff]; repeat constructor; lra).
    assert (H2 : (0 + 1 < length [0; 1; 3])%nat) by (simpl; lia).
    exists sp. split; [exact Hsp | split; [exact H1 | split; [exact H2 |]]].
    exact (CubicSpline1D_pieces_join echo_solver [0; 1; 3] [5; 6; 4] sp 0
             Hsp H1 H2).
Defined.

(** ** The problem handed to the solver *)

Lemma veqb_eq (u v : list R) : veqb u v = true -> u = v.
Proof.
  revert v. induction u as [|a u IH]; intros [|b v] H; cbn [veqb] in H;
    try discriminate; [reflexivity|].
  apply andb_true_iff in H. destruct H as [Hab Huv].
  apply Reqb_true in Hab. f_equal; [exact Hab | apply IH; exact Huv].
Qed.

Lemma veqb_refl (u : list R) : veqb u u = true.
Proof.
  induction u as [|a u IH]; [reflexivity|].
  cbn [veqb]. rewrite Reqb_refl, IH. reflexivity.
Qed.

(** What one round of the loop over the horizon adds. *)
Lemma mpc_stage_adds (xref xbar dref : matrix) (t : nat) (p : Problem) :
  constraints (mpc_stage xref xbar dref t p)
  = constraints p ++ dyn_constraint xbar dref t
                     :: (if (t <? T - 1)%nat then [rate_constraint t]
                         else []).
Proof.
  unfold mpc_stage, dyn_constraint, rate_constraint, affine.
  destruct (get_linear_model_matrix (xbar 2%nat t) (xbar 3%nat t)
              (dref 0%nat t)) as [[A B] C].
  destruct (t <? T - 1)%nat; cbn [constraints].
  - rewrite <- app_assoc. reflexivity.
  - reflexivity.
Qed.

Lemma mpc_stages_adds (xref xbar dref : matrix) (ts : list nat) (p : Problem)
  (c : valuation -> bool) :
  In c (constraints (mpc_stages xref xbar dref ts p)) <->
  In c (constraints p)
  \/ exists t, In t ts
       /\ (c = dyn_constraint xbar dref t
           \/ ((t < T - 1)%nat /\ c = rate_constraint t)).
Proof.
  revert p. induction ts as [|t ts IH]; intros p; cbn [mpc_stages].
  - split; [auto | intros [H | (t & [] & _)]; exact H].
  - rewrite IH, mpc_stage_adds. split.
    + intros [H | (t' & Hin & H)].
      * apply in_app_or in H. destruct H as [H | [H | H]].
        -- left. exact H.
        -- right. exists t. split; [left; reflexivity | left; auto].
        -- destruct (Nat.ltb_spec t (T - 1)) as [Ht | Ht];
             [|destruct H].
           destruct H as [H | []].
           right. exists t. split; [left; reflexivity | right; auto].
      * right. exists t'. split; [right; exact Hin | exact H].
    + intros [H | (t' & [-> | Hin] & H)].
      * left. apply in_or_app. left. exact H.
      * left. apply in_or_app. right. destruct H as [-> | [Ht ->]].
        -- left. reflexivity.
        -- right. destruct (Nat.ltb_spec t' (T - 1)) as [_ | Hge];
             [left; reflexivity | lia].
      * right. exists t'. split; assumption.
Qed.

(** The constraint list of [mpc_problem], member by member. *)
Lemma mpc_problem_members (xref xbar : matrix) (x0 : list R) (dref : matrix)
  (prob : Problem) (c : valuation -> bool) :
  mpc_problem xref xbar x0 dref = Ok prob ->
  In c (constraints prob) <->
  (exists t, (t < T)%nat /\ c = dyn_constraint xbar dref t)
  \/ (exists t, (t < T - 1)%nat /\ c = rate_constraint t)
  \/ c = (fun w => veqb (col NX (xval w) 0) x0)
  \/ c = (fun w => forallb (fun e => Rleb e MAX_SPEED)
                          (row (T + 1) (xval w) 2))
  \/ c = (fun w => forallb (fun e => Rleb MIN_SPEED e)
                          (row (T + 1) (xval w) 2))
  \/ c = (fun w => forallb (fun e => Rleb (Rabs e) MAX_ACCEL)
                          (row T (uval w) 0))
  \/ c = (fun w => forallb (fun e => Rleb (Rabs e) MAX_STEER)
                          (row T (uval w) 1)).
Proof.
  unfold mpc_problem. intros H.
  pose proof (mpc_stages_adds xref xbar dref (seq 0 T)
                (mkprob (fun _ => 0) []) c) as Hstages.
  set (p0 := mpc_stages xref xbar dref (seq 0 T) (mkprob (fun _ => 0) []))
    in *.
  clearbody p0.
  destruct (Nat.eqb_spec (length x0) NX) as [Hlen | Hlen];
    cbn [negb] in H; [|discriminate].
  injection H as <-. cbn [constraints] in *.
  rewrite !in_app_iff, Hstages. cbn [In]. split.
  - intros [[[[[[[] | (t & Hin & [Hd | [Ht Hr]])] | [<- | []]] | [<- | []]]
               | [<- | []]] | [<- | []]] | [<- | []]]; auto 10.
    + left. exists t. apply in_seq in Hin. split; [lia | exact Hd].
    + right. left. exists t. split; assumption.
  - intros [(t & Ht & ->) | [(t & Ht & ->) | [-> | [-> | [-> | [-> | ->]]]]]];
      auto 10.
    + do 5 left. right. exists t. split; [apply in_seq; lia | left; auto].
    + do 5 left. right. exists t.
      split; [apply in_seq; unfold T in *; lia | right; auto].
Qed.

Lemma forallb_row (P : R -> bool) (n : nat) (M : matrix) (i : nat) :
  forallb P (row n M i) = true <-> forall t, (t < n)%nat -> P (M i t) = true.
Proof.
  unfold row. rewrite forallb_forall. split.
  - intros H t Ht. apply H. apply in_map_iff. exists t.
    split; [reflexivity | apply in_seq; lia].
  - intros H e He. apply in_map_iff in He. destruct He as (t & <- & Hin).
    apply H. apply in_seq in Hin. lia.
Qed.

(** X24. The problem [linear_mpc_control] hands to the solver has as
    its feasible points exactly the trajectories of the linearised
    vehicle from [x0] within the limits: a valuation of [x] and [u]
    meets every constraint of the list if and only if it starts at
    [x0], follows the affine model [get_linear_model_matrix] gives at
    the nominal trajectory [xbar] from each step to the next, keeps
    every speed within [[MIN_SPEED, MAX_SPEED]], every acceleration
    within [MAX_ACCEL], every steering angle within [MAX_STEER], and
    consecutive steering angles within [MAX_DSTEER * DT]. *)
Theorem mpc_problem_feasible_set (xref xbar : matrix) (x0 : list R)
  (dref : matrix) (prob : Problem) (w : valuation) :
  mpc_problem xref xbar x0 dref = Ok prob ->
  forallb (fun c => c w) (constraints prob) = true
  <-> linear_trajectory xbar dref x0 w.
Proof.
  intros Hprob. rewrite forallb_forall. unfold linear_trajectory. split.
  - intros Hall.
    assert (Hc : forall c, In c (constraints prob) -> c w = true)
      by exact Hall.
    split; [| split; [| split; [| split]]].
    + apply veqb_eq.
      apply (Hc (fun w => veqb (col NX (xval w) 0) x0)).
      apply (mpc_problem_members _ _ _ _ _ _ Hprob). auto 10.
    + intros t Ht. apply veqb_eq.
      apply (Hc (dyn_constraint xbar dref t)).
      apply (mpc_problem_members _ _ _ _ _ _ Hprob). left. exists t. auto.
    + intros t Ht.
      assert (Hcap : forallb (fun e => Rleb e MAX_SPEED)
                             (row (T + 1) (xval w) 2) = true).
      { apply (Hc (fun w => forallb (fun e => Rleb e MAX_SPEED)
                                    (row (T + 1) (xval w) 2))).
        apply (mpc_problem_members _ _ _ _ _ _ Hprob). auto 10. }
      assert (Hfloor : forallb (fun e => Rleb MIN_SPEED e)
                               (row (T + 1) (xval w) 2) = true).
      { apply (Hc (fun w => forallb (fun e => Rleb MIN_SPEED e)
                                    (row (T + 1) (xval w) 2))).
        apply (mpc_problem_members _ _ _ _ _ _ Hprob). auto 10. }
      rewrite forallb_row in Hcap, Hfloor.
      split; apply Rleb_true; [apply Hfloor | apply Hcap]; lia.
    + intros t Ht.
      assert (Hacc : forallb (fun e => Rleb (Rabs e) MAX_ACCEL)
                             (row T (uval w) 0) = true).
      { apply (Hc (fun w => forallb (fun e => Rleb (Rabs e) MAX_ACCEL)
                                    (row T (uval w) 0))).
        apply (mpc_problem_members _ _ _ _ _ _ Hprob). auto 10. }
      assert (Hsteer : forallb (fun e => Rleb (Rabs e) MAX_STEER)
                               (row T (uval w) 1) = true).
      { apply (Hc (fun w => forallb (fun e => Rleb (Rabs e) MAX_STEER)
                                    (row T (uval w) 1))).
        apply (mpc_problem_members _ _ _ _ _ _ Hprob). auto 10. }
      rewrite forallb_row in Hacc, Hsteer.
      split; apply Rleb_true; [apply Hacc | apply Hsteer]; exact Ht.
    + intros t Ht. apply Rleb_true.
      apply (Hc (rate_constraint t)).
      apply (mpc_problem_members _ _ _ _ _ _ Hprob).
      right. left. exists t. split; [lia | reflexivity].
  - intros (Hinit & Hdyn & Hspeed & Hlim & Hrate) c Hin.
    apply (mpc_problem_members _ _ _ _ _ _ Hprob) in Hin.
    destruct Hin as [(t & Ht & ->) | [(t & Ht & ->)
                    | [-> | [-> | [-> | [-> | ->]]]]]].
    + unfold dyn_constraint. rewrite <- (Hdyn t Ht). apply veqb_refl.
    + unfold rate_constraint. apply Rleb_is_true. apply Hrate. lia.
    + rewrite Hinit. apply veqb_refl.
    + apply forallb_row. intros t Ht. apply Rleb_is_true.
      apply Hspeed. lia.
    + apply forallb_row. intros t Ht. apply Rleb_is_true.
      apply Hspeed. lia.
    + apply forallb_row. intros t Ht. apply Rleb_is_true.
      apply Hlim. exact Ht.
    + apply forallb_row. intros t Ht. apply Rleb_is_true.
      apply Hlim. exact Ht.
Qed.

(** X24 at a point: from rest, with a nominal trajectory of zero
    speed, the problem is built and the all-zero valuation is one of
    its feasible points. *)
Lemma mpc_problem_feasible_set_example :
  exists prob,
    mpc_problem zeros zeros [0; 0; 0; 0] zeros = Ok prob
    /\ (forallb (fun c => c zero_valuation) (constraints prob) = true
        <-> linear_trajectory zeros zeros [0; 0; 0; 0] zero_valuation).
Proof.
  destruct (mpc_problem_ok zeros zeros [0; 0; 0; 0] zeros eq_refl)
    as (prob & Hprob).
  exists prob. split; [exact Hprob |].
  exact (mpc_problem_feasible_set zeros zeros [0; 0; 0; 0] zeros prob
           zero_valuation Hprob).
Defined.

(** ** The simulation loop *)

Lemma calc_ref_trajectory_returns (state : State.t)
  (cx cy cyaw ck sp : list R) (dl : R) (pind : nat) :
  length cy = length cx -> length cyaw = length cx ->
  length sp = length cx ->
  (pind < length cx)%nat -> 0 < dl ->
  exists r, calc_ref_trajectory state cx cy cyaw ck sp dl pind = Ok r.
Proof.
  intros Hcy Hcyaw Hsp Hp Hdl. unfold calc_ref_trajectory.
  destruct (calc_nearest_index_ok state cx cy cyaw sp Hcy Hcyaw Hsp pind Hp)
    as (ind0 & m & Hnear & Hrange).
  rewrite Hnear. cbn [bind].
  set (ind := if (ind0 <=? pind)%nat then pind else ind0).
  assert (Hind : (ind < length cx)%nat).
  { unfold ind. destruct (Nat.leb_spec ind0 pind); lia. }
  destruct (set_ref_ok cx cy cyaw sp Hcy Hcyaw Hsp zeros zeros 0
              (Z.of_nat ind)) as (xr & dr & Hset); [lia|].
  rewrite Hset. cbn [bind].
  destruct (ref_loop_ok state cx cy cyaw sp dl Hcy Hcyaw Hsp ind
              (seq 0 (T + 1)) 0 xr dr Hdl Hind (Rle_refl 0))
    as ([[tr xr'] dr'] & Hloop).
  rewrite Hloop. cbn [bind]. eexists; reflexivity.
Qed.

Section Ticks.

Variable solve : Problem -> Status * valuation.
Variables cx cy cyaw ck sp : list R.
Variable dl : R.
Variable goal : R * R.

(** What one tick does, whatever the solver. *)
Lemma simulation_tick_inv (s s' : sim) (stop : bool) :
  simulation_tick solve cx cy cyaw ck sp dl goal s = Ok (s', stop) ->
  exists out d a,
    odelta out = Some d /\ oa out = Some a
    /\ sim_odelta s' = Some d /\ sim_oa s' = Some a
    /\ (exists xref dref,
          iterative_linear_mpc_control solve xref
            (state_vector (sim_state s)) dref (sim_oa s) (sim_odelta s)
          = Ok out)
    /\ (0 < length d)%nat /\ (0 < length a)%nat
    /\ (sim_target_ind s <= sim_target_ind s')%nat
    /\ sim_state s' = update_state (sim_state s) (nth 0 a 0) (nth 0 d 0)
    /\ sim_time s' = sim_time s + DT
    /\ sim_hist s'
       = mkhist (h_t (sim_hist s) ++ [sim_time s + DT])
                (h_x (sim_hist s) ++ [State.x (sim_state s')])
                (h_y (sim_hist s) ++ [State.y (sim_state s')])
                (h_yaw (sim_hist s) ++ [State.yaw (sim_state s')])
                (h_v (sim_hist s) ++ [State.v (sim_state s')])
                (h_d (sim_hist s) ++ [nth 0 d 0])
                (h_a (sim_hist s) ++ [nth 0 a 0])
    /\ stop = check_goal (sim_state s') goal (Z.of_nat (sim_target_ind s'))
                         (Z.of_nat (length cx)).
Proof using Type.
  unfold simulation_tick. intros H.
  apply bind_ok in H. destruct H as ([[xref ti] dref] & Href & H).
  apply bind_ok in H. destruct H as (out & Hout & H).
  destruct (iterative_never_returns_none solve _ _ _ _ _ out Hout)
    as [Hoa Hod].
  destruct (odelta out) as [d|] eqn:Ed; [|congruence].
  destruct (oa out) as [a|] eqn:Ea; [|congruence].
  apply bind_ok in H. destruct H as ([[di ai] st] & Hcmd & H).
  apply bind_ok in Hcmd. destruct Hcmd as (di' & Hdi & Hcmd).
  cbn [as_seq bind] in Hcmd.
  apply bind_ok in Hcmd. destruct Hcmd as (ai' & Hai & Hcmd).
  injection Hcmd as <- <- <-.
  pose proof (index_ok_lt _ _ _ Hdi) as Hdlen.
  pose proof (index_ok_lt _ _ _ Hai) as Halen.
  apply (index_ok_nth _ _ _ 0) in Hdi, Hai. subst di' ai'.
  injection H as <- <-.
  cbn [sim_state sim_time sim_target_ind sim_hist sim_oa sim_odelta].
  exists out, d, a. split; [exact Ed | split; [exact Ea |]].
  split; [reflexivity | split; [reflexivity |]].
  split; [exists xref, dref; exact Hout|].
  split; [exact Hdlen | split; [exact Halen |]].
  split; [eapply calc_ref_trajectory_ind_ge; exact Href|].
  repeat split.
Qed.

Lemma simulation_tick_recorded (k : nat) (s s' : sim) (stop : bool) :
  simulation_tick solve cx cy cyaw ck sp dl goal s = Ok (s', stop) ->
  recorded k s -> recorded (S k) s'.
Proof using Type.
  intros Htick Hrec.
  destruct (simulation_tick_inv s s' stop Htick)
    as (out & d & a & _ & _ & _ & _ & _ & _ & _ & _ & Hstate & Htime & Hhist
        & _).
  destruct Hrec as (Ht & L1 & L2 & L3 & L4 & L5 & L6 & L7 & Hts & Hvs).
  unfold recorded. rewrite Hhist, Htime.
  cbn [h_t h_x h_y h_yaw h_v h_d h_a]. rewrite !length_app. cbn [length].
  assert (Hnext : sim_time s + DT = INR (S k) * DT)
    by (rewrite S_INR, Ht; ring).
  split; [exact Hnext|]. repeat (split; [lia|]). split.
  - intros j Hj. destruct (Nat.eq_dec j (S k)) as [-> | Hne].
    + rewrite app_nth2 by lia. rewrite L1, Nat.sub_diag. exact Hnext.
    + rewrite app_nth1 by lia. apply Hts. lia.
  - destruct (h_v (sim_hist s)) as [|v0 vs] eqn:Ev; [cbn in L5; lia|].
    cbn [app tl] in *. apply Forall_app. split; [exact Hvs|].
    constructor; [|constructor].
    rewrite Hstate. unfold update_state. apply clamp_speed_within.
Qed.

Lemma too_late (k : nat) (s : sim) :
  recorded k s -> Rleb (sim_time s) MAX_TIME = true -> (S k <= MAX_TICKS)%nat.
Proof using Type.
  intros (Ht & _) Hle. apply Rleb_true in Hle. rewrite Ht in Hle.
  unfold MAX_TIME, DT, MAX_TICKS in *.
  assert (Hk : INR k <= 2500) by lra.
  assert (E : INR 2500 = 2500) by (rewrite INR_IZR_INZ; reflexivity).
  rewrite <- E in Hk. apply INR_le in Hk. lia.
Qed.

Lemma simulation_loop_ends (fuel k : nat) (s : sim) :
  recorded k s -> (k <= MAX_TICKS)%nat -> (MAX_TICKS < k + fuel)%nat ->
  exists r,
    simulation_loop solve fuel cx cy cyaw ck sp dl goal s = Some r
    /\ forall s', r = Ok s' ->
         exists k', (k' <= MAX_TICKS)%nat /\ recorded k' s'.
Proof using Type.
  revert k s. induction fuel as [|fuel IH]; intros k s Hrec Hk Hfuel; [lia|].
  cbn [simulation_loop].
  destruct (Rleb (sim_time s) MAX_TIME) eqn:Etime.
  - pose proof (too_late k s Hrec Etime) as Hk'.
    destruct (simulation_tick solve cx cy cyaw ck sp dl goal s)
      as [[s1 stop] | e] eqn:Etick.
    + pose proof (simulation_tick_recorded k s s1 stop Etick Hrec) as Hrec1.
      destruct stop.
      * eexists. split; [reflexivity|]. intros s' Hs'.
        injection Hs' as <-. exists (S k). split; [lia | exact Hrec1].
      * apply (IH (S k) s1 Hrec1); lia.
    + eexists. split; [reflexivity|]. intros s' Hs'. discriminate.
  - eexists. split; [reflexivity|]. intros s' Hs'. injection Hs' as <-.
    exists k. split; [exact Hk | exact Hrec].
Qed.

End Ticks.

(** The loop from the records [do_simulation] starts with: it ends
    within [MAX_TICKS] passes. *)
Lemma simulation_loop_from_start (solve : Problem -> Status * valuation)
  (fuel : nat) (cx cy cyaw ck sp : list R) (dl : R) (goal : R * R)
  (state : State.t) (target_ind : nat) (oa0 od0 : option (list R)) :
  (MAX_TICKS < fuel)%nat ->
  exists r,
    simulation_loop solve fuel cx cy cyaw ck sp dl goal
      (mksim state 0 target_ind oa0 od0
         (mkhist [0] [State.x state] [State.y state] [State.yaw state]
                 [State.v state] [0] [0]))
    = Some r
    /\ forall s', r = Ok s' ->
         exists k', (k' <= MAX_TICKS)%nat /\ recorded k' s'.
Proof.
  intros Hfuel.
  apply (simulation_loop_ends solve cx cy cyaw ck sp dl goal fuel 0).
  - unfold recorded. cbn [sim_time sim_hist h_t h_x h_y h_yaw h_v h_d h_a
                          length tl INR].
    split; [ring|]. repeat (split; [reflexivity|]). split.
    + intros j Hj. replace j with 0%nat by lia. cbn [nth INR]. ring.
    + constructor.
  - unfold MAX_TICKS. lia.
  - lia.
Qed.

Lemma clamp_speed_keeps_yaw (s : State.t) :
  State.yaw (if Rltb MAX_SPEED (State.v s) then State.set_v s MAX_SPEED
             else if Rltb (State.v s) MIN_SPEED then State.set_v s MIN_SPEED
             else s)
  = State.yaw s.
Proof.
  destruct (Rltb MAX_SPEED (State.v s)); [reflexivity|].
  destruct (Rltb (State.v s) MIN_SPEED); reflexivity.
Qed.

(** The heading [update_state] leaves is within [|v| / WB * DT] of the
    old one, whatever the steering input: the input is clamped to
    [MAX_STEER], a quarter of [PI], where the tangent is 1. *)
Lemma update_state_turn_bounded (s : State.t) (a delta : R) :
  Rabs (State.yaw (update_state s a delta) - State.yaw s)
  <= Rabs (State.v s) / WB * DT.
Proof.
  unfold update_state. cbv zeta.
  set (dc := if Rleb MAX_STEER delta then MAX_STEER
             else if Rleb delta (- MAX_STEER) then - MAX_STEER else delta).
  assert (Hsteer : MAX_STEER = PI / 4) by (unfold MAX_STEER, deg2rad; field).
  assert (Hdc : - (PI / 4) <= dc <= PI / 4).
  { pose proof MAX_STEER_pos as Hp. unfold dc. rewrite <- Hsteer.
    destruct (Rleb MAX_STEER delta) eqn:E1; [lra|].
    apply Rleb_false in E1.
    destruct (Rleb delta (- MAX_STEER)) eqn:E2; [lra|].
    apply Rleb_false in E2. lra. }
  assert (Htan : Rabs (tan dc) <= 1).
  { pose proof PI_RGT_0 as Hpi.
    assert (Hhi : tan dc <= 1).
    { rewrite <- tan_PI4. apply tan_incr_1; lra. }
    assert (Hlo : -1 <= tan dc).
    { replace (-1) with (tan (- (PI / 4)))
        by (rewrite tan_neg, tan_PI4; lra).
      apply tan_incr_1; lra. }
    apply Rabs_le. lra. }
  rewrite clamp_speed_keeps_yaw.
  cbn [State.x State.y State.yaw State.v State.predelta
       State.set_x State.set_y State.set_yaw State.set_v].
  replace (State.yaw s + State.v s / WB * tan dc * DT - State.yaw s)
    with (State.v s / WB * DT * tan dc) by ring.
  rewrite Rabs_mult.
  assert (Hfac : Rabs (State.v s / WB * DT) = Rabs (State.v s) / WB * DT).
  { unfold Rdiv. rewrite !Rabs_mult.
    rewrite (Rabs_right (/ WB)) by (unfold WB; lra).
    rewrite (Rabs_right DT) by (unfold DT; lra). reflexivity. }
  rewrite Hfac.
  assert (Hnn : 0 <= Rabs (State.v s) / WB * DT).
  { rewrite <- Hfac. apply Rabs_pos. }
  nra.
Qed.

(** X25. One pass of the [while] loop of [do_simulation] that goes
    through, whatever the solver answered: the optimiser handed back
    both control sequences (a failed solve raises, the zero fallback
    command is never applied), the command recorded is their first
    pair, the state is moved by [update_state] under it, so that its
    speed is within [[MIN_SPEED, MAX_SPEED]] and its heading within
    [|v| / WB * DT] of the old one, the clock advances by [DT], and the
    target index does not go back. *)
Theorem simulation_tick_step (solve : Problem -> Status * valuation)
  (cx cy cyaw ck sp : list R) (dl : R) (goal : R * R) (s s' : sim)
  (stop : bool) :
  simulation_tick solve cx cy cyaw ck sp dl goal s = Ok (s', stop) ->
  exists a d,
    sim_oa s' = Some a /\ sim_odelta s' = Some d
    /\ (0 < length a)%nat /\ (0 < length d)%nat
    /\ sim_state s' = update_state (sim_state s) (nth 0 a 0) (nth 0 d 0)
    /\ h_d (sim_hist s') = h_d (sim_hist s) ++ [nth 0 d 0]
    /\ h_a (sim_hist s') = h_a (sim_hist s) ++ [nth 0 a 0]
    /\ MIN_SPEED <= State.v (sim_state s') <= MAX_SPEED
    /\ Rabs (State.yaw (sim_state s') - State.yaw (sim_state s))
       <= Rabs (State.v (sim_state s)) / WB * DT
    /\ sim_time s' = sim_time s + DT
    /\ (sim_target_ind s <= sim_target_ind s')%nat.
Proof.
  intros Htick.
  destruct (simulation_tick_inv solve cx cy cyaw ck sp dl goal s s' stop
              Htick)
    as (out & d & a & _ & _ & Hd & Ha & _ & Hdl & Hal & Hti
        & Hstate & Htime & Hhist & _).
  exists a, d.
  split; [exact Ha | split; [exact Hd |]].
  split; [exact Hal | split; [exact Hdl |]].
  split; [exact Hstate|]. rewrite Hhist. cbn [h_d h_a].
  split; [reflexivity | split; [reflexivity |]].
  split; [rewrite Hstate; unfold update_state; apply clamp_speed_within|].
  split; [rewrite Hstate; apply update_state_turn_bounded|].
  split; [exact Htime | exact Hti].
Qed.
Lemma simulation_tick_at_rest :
  exists s' stop,
    simulation_tick zero_probe_solver [0; 1; 2] [0; 0; 0] [0; 0; 0]
      [0; 0; 0] [TARGET_SPEED; TARGET_SPEED; 0] 1 (2, 0)
      (mksim (State.new 0 0 0 0) 0 0 None None
             (mkhist [0] [0] [0] [0] [0] [0] [0]))
    = Ok (s', stop).
Proof.
  unfold simulation_tick. cbn [sim_state sim_target_ind sim_oa sim_odelta].
  destruct (calc_ref_trajectory_returns (State.new 0 0 0 0) [0; 1; 2]
              [0; 0; 0] [0; 0; 0] [0; 0; 0] [TARGET_SPEED; TARGET_SPEED; 0]
              1 0) as ([[xref ti] dref] & Href);
    [reflexivity | reflexivity | reflexivity | simpl; lia | lra |].
  rewrite Href. cbn [bind State.new State.x State.y State.v State.yaw].
  rewrite iterative_linear_mpc_control_at_rest.
  cbn [bind odelta oa as_seq index nth_error].
  do 2 eexists. reflexivity.
Qed.

Lemma simulation_tick_step_example :
  exists s' stop,
    simulation_tick zero_probe_solver [0; 1; 2] [0; 0; 0] [0; 0; 0]
      [0; 0; 0] [TARGET_SPEED; TARGET_SPEED; 0] 1 (2, 0)
      (mksim (State.new 0 0 0 0) 0 0 None None
             (mkhist [0] [0] [0] [0] [0] [0] [0]))
    = Ok (s', stop)
    /\ exists a d,
         sim_oa s' = Some a /\ sim_odelta s' = Some d
         /\ (0 < length a)%nat /\ (0 < length d)%nat
         /\ sim_state s'
            = update_state (State.new 0 0 0 0) (nth 0 a 0) (nth 0 d 0)
         /\ h_d (sim_hist s') = [0] ++ [nth 0 d 0]
         /\ h_a (sim_hist s') = [0] ++ [nth 0 a 0]
         /\ MIN_SPEED <= State.v (sim_state s') <= MAX_SPEED
         /\ Rabs (State.yaw (sim_state s') - State.yaw (State.new 0 0 0 0))
            <= Rabs (State.v (State.new 0 0 0 0)) / WB * DT
         /\ sim_time s' = 0 + DT
         /\ (0 <= sim_target_ind s')%nat.
Proof.
  destruct simulation_tick_at_rest as (s' & stop & Htick).
  exists s', stop. split; [exact Htick |].
  exact (simulation_tick_step zero_probe_solver [0; 1; 2] [0; 0; 0]
           [0; 0; 0] [0; 0; 0] [TARGET_SPEED; TARGET_SPEED; 0] 1 (2, 0)
           _ s' stop Htick).
Defined.

(** X26. The [while] loop of [do_simulation], entered with the clock
    at 0 and the seven lists holding their initial entry, ends:
    whatever the solver, the course and the state, [MAX_TICKS + 1]
    rounds of fuel (or more) are never used up.  When it ends without
    an exception it has made [n <= MAX_TICKS] passes: each of the seven
    lists holds [n + 1] entries, the recorded times are
    [0, DT, 2 DT, ...], and every recorded speed after the initial one
    is within [[MIN_SPEED, MAX_SPEED]]. *)
Theorem simulation_loop_bounded (solve : Problem -> Status * valuation)
  (fuel : nat) (state : State.t) (target_ind : nat)
  (cx cy cyaw ck sp : list R) (dl : R) (goal : R * R) :
  (MAX_TICKS < fuel)%nat ->
  exists r,
    simulation_loop solve fuel cx cy cyaw ck sp dl goal
      (mksim state 0 target_ind None None
         (mkhist [0] [State.x state] [State.y state] [State.yaw state]
                 [State.v state] [0] [0]))
    = Some r
    /\ forall s', r = Ok s' ->
         let h := sim_hist s' in
         exists n,
           (n <= MAX_TICKS)%nat
           /\ length (h_t h) = S n /\ length (h_x h) = S n
           /\ length (h_y h) = S n /\ length (h_yaw h) = S n
           /\ length (h_v h) = S n /\ length (h_d h) = S n
           /\ length (h_a h) = S n
           /\ (forall j, (j <= n)%nat -> nth j (h_t h) 0 = INR j * DT)
           /\ Forall (fun v => MIN_SPEED <= v <= MAX_SPEED) (tl (h_v h)).
Proof.
  intros Hfuel.
  destruct (simulation_loop_from_start solve fuel cx cy cyaw ck sp dl goal
              state target_ind None None Hfuel) as (r & Hrun & Hr).
  exists r. split; [exact Hrun|]. intros s' Hs' h.
  destruct (Hr s' Hs') as (n & Hn & Hrec).
  exists n. split; [exact Hn|].
  destruct Hrec as (_ & L1 & L2 & L3 & L4 & L5 & L6 & L7 & Hts & Hvs).
  repeat (split; [assumption|]). assumption.
Qed.

Lemma simulation_loop_bounded_example :
  (MAX_TICKS < S MAX_TICKS)%nat
  /\ exists r,
       simulation_loop zero_probe_solver (S MAX_TICKS)
         [0; 1; 2] [0; 0; 0] [0; 0; 0] [0; 0; 0]
         [TARGET_SPEED; TARGET_SPEED; 0] 1 (2, 0)
         (mksim (State.new 0 0 0 0) 0 0 None None
            (mkhist [0] [State.x (State.new 0 0 0 0)]
                    [State.y (State.new 0 0 0 0)]
                    [State.yaw (State.new 0 0 0 0)]
                    [State.v (State.new 0 0 0 0)] [0] [0]))
       = Some r
       /\ forall s', r = Ok s' ->
            let h := sim_hist s' in
            exists n,
              (n <= MAX_TICKS)%nat
              /\ length (h_t h) = S n /\ length (h_x h) = S n
              /\ length (h_y h) = S n /\ length (h_yaw h) = S n
              /\ length (h_v h) = S n /\ length (h_d h) = S n
              /\ length (h_a h) = S n
              /\ (forall j, (j <= n)%nat -> nth j (h_t h) 0 = INR j * DT)
              /\ Forall (fun v => MIN_SPEED <= v <= MAX_SPEED) (tl (h_v h)).
Proof.
  assert (H : (MAX_TICKS < S MAX_TICKS)%nat) by lia.
  split; [exact H |].
  exact (simulation_loop_bounded zero_probe_solver (S MAX_TICKS)
           (State.new 0 0 0 0) 0 [0; 1; 2] [0; 0; 0] [0; 0; 0] [0; 0; 0]
           [TARGET_SPEED; TARGET_SPEED; 0] 1 (2, 0) H).
Defined.

(** ** Shape of the speed profile *)

(** X27. On a course of [n >= 1] samples, [calc_speed_profile] returns
    [n] speeds: the last one is 0 and every other one is
    [+ target_speed] or [- target_speed]. *)
Theorem calc_speed_profile_shape (cx cy cyaw : list R) (target_speed : R) :
  length cy = length cx -> length cyaw = length cx ->
  (1 <= length cx)%nat ->
  exists sp,
    calc_speed_profile cx cy cyaw target_speed = Ok sp
    /\ length sp = length cx
    /\ nth (length cx - 1) sp 0 = 0
    /\ forall i, (S i < length cx)%nat ->
         nth i sp 0 = target_speed \/ nth i sp 0 = - target_speed.
Proof.
  intros Hcy Hcyaw Hn.
  destruct (calc_speed_profile_spec cx cy cyaw target_speed Hcy Hcyaw Hn)
    as (sp & Hrun & Hlen & Hin & Hlast).
  exists sp. split; [exact Hrun | split; [exact Hlen | split; [exact Hlast |]]].
  intros i Hi. rewrite (Hin i Hi).
  destruct (negb (Reqb (direction_upto cx cy cyaw (S i)) 1)); auto.
Qed.

Lemma calc_speed_profile_shape_example :
  length [0; 1; 1] = length [0; 1; 2]
  /\ length [PI / 4; 0; 0] = length [0; 1; 2]
  /\ (1 <= length [0; 1; 2])%nat
  /\ exists sp,
       calc_speed_profile [0; 1; 2] [0; 1; 1] [PI / 4; 0; 0] TARGET_SPEED
       = Ok sp
       /\ length sp = length [0; 1; 2]
       /\ nth (length [0; 1; 2] - 1) sp 0 = 0
       /\ forall i, (S i < length [0; 1; 2])%nat ->
            nth i sp 0 = TARGET_SPEED \/ nth i sp 0 = - TARGET_SPEED.
Proof.
  split; [reflexivity | split; [reflexivity | split; [simpl; lia |]]].
  apply (calc_speed_profile_shape [0; 1; 2] [0; 1; 1] [PI / 4; 0; 0]
           TARGET_SPEED); [reflexivity | reflexivity | simpl; lia].
Defined.

(** ** The natural boundary condition *)

Lemma fold_left_Rplus_shift (l : list R) (a : R) :
  fold_left Rplus l a = a + fold_left Rplus l 0.
Proof.
  revert a. induction l as [|e l IH]; intros a; cbn [fold_left]; [ring|].
  rewrite (IH (a + e)), (IH (0 + e)). ring.
Qed.

Lemma dot_cons (a b : R) (u v : list R) :
  dot (a :: u) (b :: v) = a * b + dot u v.
Proof.
  unfold dot, sum. cbn [map2 fold_left].
  rewrite fold_left_Rplus_shift. ring.
Qed.

Lemma dot_zero_row (u v : list R) :
  (forall j, nth j u 0 = 0) -> dot u v = 0.
Proof.
  revert v. induction u as [|a u IH]; intros v H; [reflexivity|].
  destruct v as [|b v]; [reflexivity|].
  rewrite dot_cons, IH.
  - specialize (H 0%nat). cbn in H. rewrite H. ring.
  - intros j. exact (H (S j)).
Qed.

(** The product of the [k]-th unit row with a vector is the [k]-th
    entry of the vector. *)
Lemma dot_unit_row (u v : list R) (k : nat) :
  (k < length u)%nat -> (k < length v)%nat ->
  nth k u 0 = 1 -> (forall j, j <> k -> nth j u 0 = 0) ->
  dot u v = nth k v 0.
Proof.
  revert v k. induction u as [|a u IH]; intros v k Hu Hv Hone Hzero;
    [cbn in Hu; lia|].
  destruct v as [|b v]; [cbn in Hv; lia|].
  rewrite dot_cons. destruct k as [|k].
  - cbn in Hone. subst a. rewrite dot_zero_row.
    + cbn [nth]. ring.
    + intros j. exact (Hzero (S j) ltac:(lia)).
  - rewrite (IH v k); cbn [length] in *; try lia.
    + pose proof (Hzero 0%nat ltac:(lia)) as H0. cbn in H0. subst a.
      cbn [nth]. ring.
    + exact Hone.
    + intros j Hj. exact (Hzero (S j) ltac:(lia)).
Qed.

Lemma nth_list_set {A : Type} (l : list A) (i j : nat) (v dflt : A) :
  nth j (list_set l i v) dflt
  = if ((j =? i) && (i <? length l))%nat then v else nth j l dflt.
Proof.
  destruct (Nat.eqb_spec j i) as [-> | Hne]; cbn [andb].
  - destruct (Nat.ltb_spec i (length l)) as [Hlt | Hge].
    + apply list_set_nth_same. exact Hlt.
    + revert i Hge. induction l as [|a l IH]; intros [|i] Hge;
        cbn [list_set nth length] in *; try lia; auto.
      apply IH. lia.
  - apply list_set_nth_other. auto.
Qed.

Lemma lmset_lget (n m : nat) (A A' : lmatrix) (i j : nat) (v : R) :
  is_shape n m A -> lmset A i j v = Ok A' ->
  is_shape n m A'
  /\ (i < n)%nat /\ (j < m)%nat
  /\ forall i' j',
       lget A' i' j' = if ((i' =? i) && (j' =? j))%nat then v
                       else lget A i' j'.
Proof.
  intros [Hn Hm] H. unfold lmset in H.
  apply bind_ok in H. destruct H as (r & Hr & H).
  apply bind_ok in H. destruct H as (r' & Hr' & H).
  pose proof (index_ok_lt _ _ _ Hr) as Hi.
  apply (index_ok_nth _ _ _ []) in Hr. subst r.
  unfold setitem in Hr', H.
  destruct (Nat.ltb_spec j (length (nth i A []))) as [Hj | Hj];
    [|discriminate].
  injection Hr' as <-.
  destruct (Nat.ltb_spec i (length A)) as [_ | ?]; [|lia].
  injection H as <-.
  assert (Hrow : length (nth i A []) = m).
  { rewrite Forall_forall in Hm. apply Hm. apply nth_In. exact Hi. }
  split; [| split; [lia | split; [lia |]]].
  - split; [rewrite list_set_length; exact Hn|].
    apply Forall_list_set; [exact Hm|]. rewrite list_set_length. exact Hrow.
  - intros i' j'. unfold lget. rewrite nth_list_set.
    destruct (Nat.eqb_spec i' i) as [-> | Hne]; cbn [andb].
    + destruct (Nat.ltb_spec i (length A)); [|lia].
      rewrite nth_list_set.
      destruct (Nat.eqb_spec j' j) as [-> | Hnj]; cbn [andb]; [|reflexivity].
      destruct (Nat.ltb_spec j (length (nth i A []))); [reflexivity | lia].
    + reflexivity.
Qed.

Section SystemRows.

Variable nx : nat.
Variable h : list R.

(** A round of the loop of [__calc_A] writes at [(i + 1, i + 1)],
    [(i + 1, i)] and [(i, i + 1)] only. *)
Lemma calc_A_step_frame (i : nat) (A A' : lmatrix) :
  is_shape nx nx A -> CubicSpline1D.calc_A_step nx h i A = Ok A' ->
  is_shape nx nx A'
  /\ forall i' j',
       ~ (i' = i + 1 /\ j' = i + 1 /\ i <> nx - 2)%nat ->
       ~ (i' = i + 1 /\ j' = i)%nat -> ~ (i' = i /\ j' = i + 1)%nat ->
       lget A' i' j' = lget A i' j'.
Proof using Type.
  intros HA H. unfold CubicSpline1D.calc_A_step in H.
  apply bind_ok in H. destruct H as (A1 & H1 & H).
  apply bind_ok in H. destruct H as (hi & _ & H).
  apply bind_ok in H. destruct H as (A2 & H2 & H).
  apply bind_ok in H. destruct H as (hi' & _ & H3).
  assert (HA1 : is_shape nx nx A1
                /\ forall i' j',
                     ~ (i' = i + 1 /\ j' = i + 1 /\ i <> nx - 2)%nat ->
                     lget A1 i' j' = lget A i' j').
  { destruct (Nat.eqb_spec i (nx - 2)) as [E | E]; cbn [negb] in H1.
    - injection H1 as <-. split; [exact HA | reflexivity].
    - apply bind_ok in H1. destruct H1 as (a & _ & H1).
      apply bind_ok in H1. destruct H1 as (b & _ & H1).
      destruct (lmset_lget nx nx A A1 _ _ _ HA H1) as (HS & _ & _ & Hget).
      split; [exact HS|]. intros i' j' Hn. rewrite Hget.
      destruct (Nat.eqb_spec i' (i + 1)); destruct (Nat.eqb_spec j' (i + 1));
        cbn [andb]; try reflexivity.
      exfalso. apply Hn. auto. }
  destruct HA1 as [HS1 Hg1].
  destruct (lmset_lget nx nx A1 A2 _ _ _ HS1 H2) as (HS2 & _ & _ & Hg2).
  destruct (lmset_lget nx nx A2 A' _ _ _ HS2 H3) as (HS3 & _ & _ & Hg3).
  split; [exact HS3|]. intros i' j' Hn1 Hn2 Hn3.
  rewrite Hg3, Hg2, Hg1 by exact Hn1.
  destruct (Nat.eqb_spec i' i); destruct (Nat.eqb_spec j' (i + 1));
    cbn [andb]; try (exfalso; apply Hn3; auto; fail);
    destruct (Nat.eqb_spec i' (i + 1)); destruct (Nat.eqb_spec j' i);
    cbn [andb]; try reflexivity; exfalso; apply Hn2; auto.
Qed.

Lemma calc_A_loop_frame (steps : list nat) (A A' : lmatrix) :
  is_shape nx nx A ->
  for_in steps (CubicSpline1D.calc_A_step nx h) A = Ok A' ->
  Forall (fun i => (i < nx - 1)%nat) steps ->
  is_shape nx nx A'
  /\ (forall j, j <> 1%nat -> lget A' 0 j = lget A 0 j)
  /\ (forall j, j <> (nx - 2)%nat ->
        lget A' (nx - 1) j = lget A (nx - 1) j).
Proof using Type.
  revert A. induction steps as [|i steps IH]; intros A HA H Hsteps.
  - cbn in H. injection H as <-. auto.
  - cbn [for_in] in H. apply bind_ok in H. destruct H as (A1 & Hstep & H).
    apply Forall_cons_iff in Hsteps. destruct Hsteps as [Hi Hrest].
    destruct (calc_A_step_frame i A A1 HA Hstep) as [HS1 Hframe].
    destruct (IH A1 HS1 H Hrest) as (HS' & Hrow0 & HrowL).
    split; [exact HS' | split].
    + intros j Hj. rewrite Hrow0 by exact Hj. apply Hframe; lia.
    + intros j Hj. rewrite HrowL by exact Hj. apply Hframe; lia.
Qed.

End SystemRows.

Lemma lzeros_lget (n m i j : nat) : lget (lzeros n m) i j = 0.
Proof.
  unfold lget, lzeros.
  assert (Hrow : nth i (repeat (repeat 0 m) n) [] = repeat 0 m
                 \/ nth i (repeat (repeat 0 m) n) [] = []).
  { destruct (Nat.lt_ge_cases i n) as [Hi | Hi].
    - left. apply nth_repeat_lt. exact Hi.
    - right. apply nth_overflow. rewrite repeat_length. exact Hi. }
  destruct Hrow as [-> | ->].
  - destruct (Nat.lt_ge_cases j m) as [Hj | Hj].
    + apply nth_repeat_lt. exact Hj.
    + apply nth_overflow. rewrite repeat_length. exact Hj.
  - destruct j; reflexivity.
Qed.

(** The first and the last row of the matrix [__calc_A] returns are
    unit rows. *)
Lemma calc_A_boundary_rows (nx : nat) (h : list R) (A : lmatrix) :
  CubicSpline1D.calc_A nx h = Ok A ->
  (2 <= nx)%nat /\ is_shape nx nx A
  /\ (forall j, lget A 0 j = if (j =? 0)%nat then 1 else 0)
  /\ (forall j, lget A (nx - 1) j = if (j =? nx - 1)%nat then 1 else 0).
Proof.
  unfold CubicSpline1D.calc_A. intros H.
  apply bind_ok in H. destruct H as (A0 & H0 & H).
  apply bind_ok in H. destruct H as (A1 & Hloop & H).
  apply bind_ok in H. destruct H as (A2 & H2 & H).
  apply bind_ok in H. destruct H as (A3 & H3 & H4).
  destruct (lmset_lget nx nx _ A0 _ _ _ (lzeros_shape nx nx) H0)
    as (HS0 & _ & _ & Hg0).
  destruct (calc_A_loop_frame nx h (seq 0 (nx - 1)) A0 A1 HS0 Hloop)
    as (HS1 & Hrow0 & HrowL).
  { apply Forall_forall. intros i Hi. apply in_seq in Hi. lia. }
  destruct (lmset_lget nx nx A1 A2 _ _ _ HS1 H2) as (HS2 & _ & Hnx & Hg2).
  destruct (lmset_lget nx nx A2 A3 _ _ _ HS2 H3) as (HS3 & _ & _ & Hg3).
  destruct (lmset_lget nx nx A3 A _ _ _ HS3 H4) as (HS4 & _ & _ & Hg4).
  split; [lia | split; [exact HS4 | split]].
  - intros j. rewrite Hg4, Hg3.
    destruct (Nat.eqb_spec 0 (nx - 1)); [lia|]. cbn [andb].
    rewrite Hg2. cbn [Nat.eqb andb].
    destruct (Nat.eqb_spec j 1) as [-> | Hj1]; [reflexivity|].
    rewrite Hrow0 by exact Hj1. rewrite Hg0, lzeros_lget. cbn [Nat.eqb andb].
    destruct j; reflexivity.
  - intros j. rewrite Hg4. rewrite Nat.eqb_refl. cbn [andb].
    destruct (Nat.eqb_spec j (nx - 1)) as [-> | HjL]; [reflexivity|].
    rewrite Hg3. rewrite Nat.eqb_refl. cbn [andb].
    destruct (Nat.eqb_spec j (nx - 2)) as [-> | Hj2]; [reflexivity|].
    rewrite Hg2. destruct (Nat.eqb_spec (nx - 1) 0); [lia|]. cbn [andb].
    rewrite HrowL by exact Hj2. rewrite Hg0, lzeros_lget.
    destruct (Nat.eqb_spec (nx - 1) 0); [lia | reflexivity].
Qed.

Lemma calc_B_loop_ends (h a : list R) (steps : list nat) (B B' : list R)
  (k : nat) :
  for_in steps (CubicSpline1D.calc_B_step h a) B = Ok B' ->
  Forall (fun i => (i + 1 <> k)%nat) steps ->
  length B' = length B /\ nth k B' 0 = nth k B 0.
Proof.
  revert B. induction steps as [|i steps IH]; intros B H Hsteps.
  - cbn in H. injection H as <-. auto.
  - cbn [for_in] in H. apply bind_ok in H. destruct H as (B1 & Hstep & H).
    apply Forall_cons_iff in Hsteps. destruct Hsteps as [Hi Hrest].
    unfold CubicSpline1D.calc_B_step in Hstep.
    apply bind_ok in Hstep. destruct Hstep as (? & _ & Hstep).
    apply bind_ok in Hstep. destruct Hstep as (? & _ & Hstep).
    apply bind_ok in Hstep. destruct Hstep as (? & _ & Hstep).
    apply bind_ok in Hstep. destruct Hstep as (? & _ & Hstep).
    apply bind_ok in Hstep. destruct Hstep as (? & _ & Hstep).
    unfold setitem in Hstep.
    destruct (i + 1 <? length B)%nat; [|discriminate].
    injection Hstep as <-.
    destruct (IH _ H Hrest) as [Hlen Hk].
    rewrite list_set_length in Hlen. split; [exact Hlen|].
    rewrite Hk. apply list_set_nth_other. exact Hi.
Qed.

Lemma calc_B_boundary (nx : nat) (h a B : list R) :
  CubicSpline1D.calc_B nx h a = Ok B ->
  length B = nx /\ nth 0 B 0 = 0 /\ nth (nx - 1) B 0 = 0.
Proof.
  unfold CubicSpline1D.calc_B. intros H.
  destruct (calc_B_loop_ends h a _ _ _ 0 H) as [Hlen H0].
  { apply Forall_forall. intros i _. lia. }
  destruct (calc_B_loop_ends h a _ _ _ (nx - 1) H) as [_ HL].
  { apply Forall_forall. intros i Hi. apply in_seq in Hi. lia. }
  rewrite repeat_length in Hlen.
  split; [exact Hlen | split].
  - rewrite H0. destruct nx; reflexivity.
  - rewrite HL. destruct (Nat.lt_ge_cases (nx - 1) nx) as [Hlt | Hge].
    + apply nth_repeat_lt. exact Hlt.
    + apply nth_overflow. rewrite repeat_length. exact Hge.
Qed.

Lemma lmatvec_nth (A : lmatrix) (c : list R) (i : nat) :
  (i < length A)%nat -> nth i (lmatvec A c) 0 = dot (nth i A []) c.
Proof.
  intros Hi. unfold lmatvec.
  rewrite (nth_indep _ 0 ((fun r => dot r c) []))
    by (rewrite length_map; exact Hi).
  exact (map_nth (fun r => dot r c) A [] i).
Qed.

(** X28. When [np.linalg.solve] is exact on the system the constructor
    builds, the spline is natural: the coefficients [c[0]] and
    [c[nx - 1]] are 0, so that the second derivative [2 c] vanishes at
    both ends; on strictly increasing abscissas
    [calc_second_derivative] at the first knot returns 0. *)
Theorem CubicSpline1D_natural_boundary
  (solve : lmatrix -> list R -> result (list R)) (xs ys : list R)
  (sp : CubicSpline1D.t) :
  solver_exact solve xs ys ->
  CubicSpline1D.init solve xs ys = Ok sp ->
  nth 0 (CubicSpline1D.c sp) 0 = 0
  /\ nth (length xs - 1) (CubicSpline1D.c sp) 0 = 0
  /\ (Forall (fun hi => 0 < hi) (diff xs) ->
      CubicSpline1D.calc_second_derivative sp (nth 0 xs 0) = Ok (Some 0)).
Proof.
  intros Hexact Hinit.
  pose proof Hinit as Hinit'.
  unfold CubicSpline1D.init in Hinit.
  destruct (existsb (fun hi => Rltb hi 0) (diff xs)) eqn:Hneg;
    [discriminate|].
  apply bind_ok in Hinit. destruct Hinit as (A & HA & Hinit).
  apply bind_ok in Hinit. destruct Hinit as (B & HB & Hinit).
  apply bind_ok in Hinit. destruct Hinit as (c & Hc & Hinit).
  apply bind_ok in Hinit. destruct Hinit as ([d b] & Hloop & Hinit).
  injection Hinit as <-. cbn [CubicSpline1D.c].
  destruct (Hexact A B c HA HB Hc) as [Hlen Hsol].
  destruct (calc_A_boundary_rows _ _ _ HA) as (Hnx & [HAn HAm] & Hr0 & HrL).
  destruct (calc_B_boundary _ _ _ _ HB) as (HBn & HB0 & HBL).
  assert (Hc0 : nth 0 c 0 = 0).
  { transitivity (nth 0 B 0); [|exact HB0].
    rewrite <- Hsol, lmatvec_nth by lia.
    symmetry. apply dot_unit_row.
    - rewrite Forall_forall in HAm. rewrite (HAm (nth 0 A [])); [lia|].
      apply nth_In. lia.
    - lia.
    - apply (Hr0 0%nat).
    - intros j Hj. pose proof (Hr0 j) as H. unfold lget in H. rewrite H.
      destruct (Nat.eqb_spec j 0); [lia | reflexivity]. }
  assert (HcL : nth (length xs - 1) c 0 = 0).
  { transitivity (nth (length xs - 1) B 0); [|exact HBL].
    rewrite <- Hsol, lmatvec_nth by lia.
    symmetry. apply dot_unit_row.
    - rewrite Forall_forall in HAm.
      rewrite (HAm (nth (length xs - 1) A [])); [lia|].
      apply nth_In. lia.
    - lia.
    - pose proof (HrL (length xs - 1)%nat) as H. unfold lget in H.
      rewrite H, Nat.eqb_refl. reflexivity.
    - intros j Hj. pose proof (HrL j) as H. unfold lget in H. rewrite H.
      destruct (Nat.eqb_spec j (length xs - 1)); [lia | reflexivity]. }
  split; [exact Hc0 | split; [exact HcL |]].
  intros Hstrict.
  destruct (CubicSpline1D_init_shape solve xs ys _ Hinit')
    as (Hx & _ & Hsorted & _ & Hd).
  cbn [CubicSpline1D.x CubicSpline1D.d] in Hx, Hd.
  unfold CubicSpline1D.calc_second_derivative, CubicSpline1D.search_index.
  cbn [CubicSpline1D.x CubicSpline1D.c CubicSpline1D.d].
  rewrite (index_nth xs 0 0) by lia. cbn [bind].
  replace (Rltb (nth 0 xs 0) (nth 0 xs 0)) with false
    by (symmetry; apply Rltb_false; lra).
  destruct xs as [|x0 rest] eqn:Exs; [cbn in Hnx; lia|].
  rewrite <- Exs in *.
  assert (Hlast : index_last xs = Ok (last xs 0))
    by (rewrite Exs; apply index_last_cons).
  rewrite Hlast. cbn [bind].
  pose proof (diff_nonneg_le_last xs 0 Hsorted) as Hle.
  replace (Rltb (last xs 0) (nth 0 xs 0)) with false.
  2:{ symmetry. apply Rltb_false. rewrite Forall_forall in Hle.
      apply Hle. apply nth_In. lia. }
  rewrite (bisect_knot xs 0 Hstrict) by lia.
  cbn [Nat.add Z.of_nat Pos.of_succ_nat Z.sub Z.add Z.opp Z.pos_sub].
  rewrite (index_z_ok xs 0 0) by lia.
  rewrite (index_z_ok c 0 0) by lia.
  rewrite (index_z_ok d 0 0) by lia.
  cbn [bind Z.to_nat]. rewrite Hc0. do 2 f_equal. ring.
Qed.

(** On the knots [(0, 0), (1, 1), (2, 0)] the system is
    [c0 = 0], [c0 + 4 c1 + c2 = -6], [c2 = 0], solved by
    [(0, -3/2, 0)]. *)
Lemma fixed_solver_exact :
  solver_exact (fixed_solver [0; -3 / 2; 0]) [0; 1; 2] [0; 1; 0].
Proof.
  intros A B c HA HB Hc.
  injection Hc as <-. split; [reflexivity|].
  cbn in HA, HB. injection HA as <-. injection HB as <-.
  unfold lmatvec, dot, sum. cbn [map map2 fold_left].
  repeat (apply f_equal2; [lra|]). reflexivity.
Qed.

Lemma CubicSpline1D_natural_boundary_example :
  exists sp,
    CubicSpline1D.init (fixed_solver [0; -3 / 2; 0]) [0; 1; 2] [0; 1; 0]
    = Ok sp
    /\ solver_exact (fixed_solver [0; -3 / 2; 0]) [0; 1; 2] [0; 1; 0]
    /\ nth 0 (CubicSpline1D.c sp) 0 = 0
    /\ nth (length [0; 1; 2] - 1) (CubicSpline1D.c sp) 0 = 0
    /\ (Forall (fun hi => 0 < hi) (diff [0; 1; 2]) ->
        CubicSpline1D.calc_second_derivative sp (nth 0 [0; 1; 2] 0)
        = Ok (Some 0)).
Proof.
  destruct (CubicSpline1D_init_ok (fixed_solver [0; -3 / 2; 0])
              [0; 1; 2] [0; 1; 0]) as (sp & Hsp).
  - simpl; lia.
  - reflexivity.
  - cbn [diff]. repeat constructor; lra.
  - intros A B _ _. exists [0; -3 / 2; 0]. split; reflexivity.
  - exists sp. split; [exact Hsp | split; [exact fixed_solver_exact |]].
    exact (CubicSpline1D_natural_boundary _ _ _ sp fixed_solver_exact Hsp).
Defined.
